(** * Fiber chain client: RPC transports, transaction queue, preconfs fan-out

    A shallow embedding of the TypeScript sources [fiberChain.ts]
    ([createFiberTransport], [createFiberWebSocketTransport]) and
    [fiberUtils.ts] (class [FiberUtils]).

    JavaScript runs the handlers of one realm one after the other, so every
    component is a state machine whose steps are the handler bodies: an API
    call, a socket event delivered by the browser, a timer that fires, or
    the resumption of an [await].  Sockets are objects with their own
    [readyState]; the browser delivers [open], [error], [close] and
    [message] events per socket, also for sockets the program no longer
    references. *)

From stdpp Require Import gmap strings.
From Stdlib Require Import ZArith Lia Ascii DecimalString.

Local Open Scope string_scope.
Local Open Scope Z_scope.
Local Open Scope list_scope.

(** ** The RPC method mapper *)
Module Mapper.

(** [method === "eth_sendRawTransaction" ? "fiber_sendRawTransaction" : method] *)
Definition mapMethod (method : string) : string :=
  if String.eqb method "eth_sendRawTransaction"
  then "fiber_sendRawTransaction"
  else method.

(** The JSON-RPC envelope [{jsonrpc, method, params, id}]. *)
Record Envelope (Params : Type) : Type := mkEnvelope {
  jsonrpc : string;
  method : string;
  params : Params;
  id : Z
}.
Arguments mkEnvelope {Params} _ _ _ _.
Arguments jsonrpc {Params} _.
Arguments method {Params} _.
Arguments params {Params} _.
Arguments id {Params} _.

(** The body posted by the HTTP transport ([createFiberTransport]): the id
    is the constant 1. *)
Definition httpRequestBody {Params : Type} (m : string) (p : Params) : Envelope Params :=
  mkEnvelope "2.0" (mapMethod m) p 1.

(** The message built by the WebSocket transport for request id [i]. *)
Definition wsRequestMessage {Params : Type} (m : string) (p : Params) (i : Z) : Envelope Params :=
  mkEnvelope "2.0" (mapMethod m) p i.

End Mapper.

(** ** JavaScript values that cross the models unchanged *)

(** JSON-like values: request parameters, results, ABIs and call arguments
    are passed through by the code and never inspected. *)
#[warnings="-register-all"]
Inductive Json : Type :=
| JNull
| JBool (b : bool)
| JNum (z : Z)
| JStr (s : string)
| JArr (l : list Json)
| JObj (l : list (string * Json)).

(** A thrown or rejected [Error], identified by its message. *)
Definition Error : Type := string.

(** ** The transaction submission queue of [FiberUtils] *)
Module TxQueue.

(** The object destructured by [writeContract] and [executeTransaction]:
    the optional fields are [undefined] when omitted. *)
Record TxParams : Type := mkTxParams {
  address : string;
  abi : Json;
  functionName : string;
  args : option (list Json);
  account : string;
  gas : option Z;
  gasPrice : option Z;
  nonce : option Z;
  value : option Z
}.

(** The argument of [walletClient.writeContract]. *)
Record WalletCall : Type := mkWalletCall {
  wc_address : string;
  wc_abi : Json;
  wc_functionName : string;
  wc_args : option (list Json);
  wc_account : string;
  wc_gas : option Z;
  wc_nonce : option Z;
  wc_value : Z;
  wc_gasPrice : Z
}.

(** [interface WriteContractResult]; [gas_used] is an integral number. *)
Record WriteContractResult : Type := mkResult {
  hash : string;
  from : string;
  to : string;
  r_value : string;
  gas_used : Z;
  logs : list Json;
  status : bool;
  output : string;
  reject_reason : option string;
  weiSpent : option Z
}.

Definition set_weiSpent (r : WriteContractResult) (w : Z) : WriteContractResult :=
  mkResult (hash r) (from r) (to r) (r_value r) (gas_used r) (logs r)
           (status r) (output r) (reject_reason r) (Some w).

(** An [async] function body as the tree of its suspension points: it
    returns, throws, or awaits one of the two client calls and continues
    with the settled outcome. *)
Inductive Async (A : Type) : Type :=
| Return (a : A)
| Throw (e : Error)
| AwaitGetGasPrice (k : Error + Z -> Async A)
| AwaitWriteContract (c : WalletCall) (k : Error + WriteContractResult -> Async A).
Arguments Return {A} _.
Arguments Throw {A} _.
Arguments AwaitGetGasPrice {A} _.
Arguments AwaitWriteContract {A} _ _.

(** [x || y] on an optional bigint: [undefined] and [0n] are falsy. *)
Definition truthy (g : option Z) : option Z :=
  match g with
  | Some z => if z =? 0 then None else Some z
  | None => None
  end.

(** The part of [executeTransaction] after the effective gas price is
    known: the wallet call, then [result.weiSpent = BigInt(gas_used) * gasPrice]. *)
Definition executeWith (p : TxParams) (effective : Z) : Async WriteContractResult :=
  AwaitWriteContract
    (mkWalletCall (address p) (abi p) (functionName p) (args p) (account p)
                  (gas p) (nonce p) (default 0 (value p)) effective)
    (fun r => match r with
              | inl e => Throw e
              | inr result => Return (set_weiSpent result (gas_used result * effective))
              end).

(** [executeTransaction]: [gasPrice = gasPrice || (await getGasPrice())]. *)
Definition executeTransaction (p : TxParams) : Async WriteContractResult :=
  match truthy (gasPrice p) with
  | Some g => executeWith p g
  | None => AwaitGetGasPrice (fun r => match r with
                                        | inl e => Throw e
                                        | inr g => executeWith p g
                                        end)
  end.

(** The calls [executeTransaction] makes on the two clients. *)
Inductive ClientCall : Type :=
| CallGetGasPrice
| CallWriteContract (c : WalletCall).

(** Runs an execution against a chain that answers the gas price query
    with [chain] and a wallet that answers a write with [wallet c]: the
    calls made, in order, and the outcome. *)
Fixpoint interp {A : Type} (chain : Error + Z)
         (wallet : WalletCall -> Error + WriteContractResult)
         (t : Async A) : list ClientCall * (Error + A) :=
  match t with
  | Return a => ([], inr a)
  | Throw e => ([], inl e)
  | AwaitGetGasPrice k =>
      let '(calls, out) := interp chain wallet (k chain) in
      (CallGetGasPrice :: calls, out)
  | AwaitWriteContract c k =>
      let '(calls, out) := interp chain wallet (k (wallet c)) in
      (CallWriteContract c :: calls, out)
  end.

(** A queue entry: the parameters and the promise ([resolve]/[reject]
    pair) returned to the caller, named by its creation index. *)
Record QueueItem : Type := mkItem {
  params : TxParams;
  promise : nat
}.

(** A drain worker suspended inside [await this.executeTransaction(...)]. *)
Record Worker : Type := mkWorker {
  item : QueueItem;
  cont : Async WriteContractResult
}.

(** What an observer of the service sees, in order. *)
Inductive Obs : Type :=
| ObsEnqueue (p : nat)
| ObsExecute (p : nat)
| ObsGetGasPrice (p : nat)
| ObsWalletWrite (p : nat) (c : WalletCall)
| ObsResolve (p : nat) (r : WriteContractResult)
| ObsReject (p : nat) (e : Error).

Record State : Type := mkState {
  transactionQueue : list QueueItem;
  isProcessingQueue : bool;
  workers : list Worker;
  nextPromise : nat;
  log : list Obs
}.

Definition init : State := mkState [] false [] 0%nat [].

Definition emit (o : Obs) (s : State) : State :=
  mkState (transactionQueue s) (isProcessingQueue s) (workers s) (nextPromise s)
          (log s ++ [o]).

Definition set_queue (q : list QueueItem) (s : State) : State :=
  mkState q (isProcessingQueue s) (workers s) (nextPromise s) (log s).

Definition set_processing (b : bool) (s : State) : State :=
  mkState (transactionQueue s) b (workers s) (nextPromise s) (log s).

Definition set_workers (ws : list Worker) (s : State) : State :=
  mkState (transactionQueue s) (isProcessingQueue s) ws (nextPromise s) (log s).

(** The body of the drain loop from the loop test on.  [q] is the queue at
    the test; the worker either finishes ([isProcessingQueue = false]) or
    suspends at the first [await] of the entry it shifted.  [slot] is the
    position the worker occupies among the suspended workers. *)
Fixpoint drain (slot : nat) (q : list QueueItem) (s : State) : State :=
  match q with
  | [] => set_processing false (set_queue [] s)
  | it :: rest =>
      let s1 := emit (ObsExecute (promise it)) (set_queue rest s) in
      match executeTransaction (params it) with
      | Return r => drain slot rest (emit (ObsResolve (promise it) r) s1)
      | Throw e => drain slot rest (emit (ObsReject (promise it) e) s1)
      | AwaitGetGasPrice k =>
          set_workers (take slot (workers s1) ++ mkWorker it (AwaitGetGasPrice k) :: drop slot (workers s1))
                      (emit (ObsGetGasPrice (promise it)) s1)
      | AwaitWriteContract c k =>
          set_workers (take slot (workers s1) ++ mkWorker it (AwaitWriteContract c k) :: drop slot (workers s1))
                      (emit (ObsWalletWrite (promise it) c) s1)
      end
  end.

(** [processTransactionQueue]: the guard, then the loop. *)
Definition processTransactionQueue (s : State) : State :=
  if isProcessingQueue s || bool_decide (transactionQueue s = [])
  then s
  else drain (length (workers s)) (transactionQueue s) (set_processing true s).

(** [writeContract]: the defaults of the destructuring pattern, the push,
    and the call of [processTransactionQueue]. *)
Definition withDefaults (a : TxParams) : TxParams :=
  mkTxParams (address a) (abi a) (functionName a) (args a) (account a)
             (Some (default 600000 (gas a)))
             (Some (default 1 (gasPrice a)))
             (nonce a)
             (Some (default 0 (value a))).

(** The push of [writeContract], before the queue is processed. *)
Definition enqueue (a : TxParams) (s : State) : State :=
  mkState (transactionQueue s ++ [mkItem (withDefaults a) (nextPromise s)])
          (isProcessingQueue s) (workers s)
          (S (nextPromise s)) (log s ++ [ObsEnqueue (nextPromise s)]).

Definition writeContract (a : TxParams) (s : State) : State :=
  processTransactionQueue (enqueue a s).

(** A worker resumes with the rest [t] of the execution of [it]: further
    awaits suspend it again; a return or throw settles the caller's promise
    and re-enters the loop. *)
Definition resume (slot : nat) (it : QueueItem) (t : Async WriteContractResult) (s : State) : State :=
  let others := set_workers (delete slot (workers s)) s in
  match t with
  | Return r => drain slot (transactionQueue s) (emit (ObsResolve (promise it) r) others)
  | Throw e => drain slot (transactionQueue s) (emit (ObsReject (promise it) e) others)
  | AwaitGetGasPrice k =>
      set_workers (<[slot := mkWorker it (AwaitGetGasPrice k)]> (workers s))
                  (emit (ObsGetGasPrice (promise it)) s)
  | AwaitWriteContract c k =>
      set_workers (<[slot := mkWorker it (AwaitWriteContract c k)]> (workers s))
                  (emit (ObsWalletWrite (promise it) c) s)
  end.

(** The queue part of [cleanup]: every queued entry is rejected, the queue
    is emptied and the flag cleared; suspended workers are not touched. *)
Definition cleanup (s : State) : State :=
  let s1 := foldl (fun acc it => emit (ObsReject (promise it) "Service cleanup: Transaction cancelled") acc)
                  s (transactionQueue s) in
  set_processing false (set_queue [] s1).

Inductive Event : Type :=
| EvWriteContract (a : TxParams)
| EvGasPrice (slot : nat) (r : Error + Z)
| EvWalletWrite (slot : nat) (r : Error + WriteContractResult)
| EvCleanup.

(** One step; [None] when the event is not enabled (no worker in that slot
    awaits that call). *)
Definition step (s : State) (ev : Event) : option State :=
  match ev with
  | EvWriteContract a => Some (writeContract a s)
  | EvGasPrice slot r =>
      match workers s !! slot with
      | Some (mkWorker it (AwaitGetGasPrice k)) => Some (resume slot it (k r) s)
      | _ => None
      end
  | EvWalletWrite slot r =>
      match workers s !! slot with
      | Some (mkWorker it (AwaitWriteContract _ k)) => Some (resume slot it (k r) s)
      | _ => None
      end
  | EvCleanup => Some (cleanup s)
  end.

Fixpoint run (s : State) (tr : list Event) : option State :=
  match tr with
  | [] => Some s
  | ev :: tr' => match step s ev with
                 | Some s' => run s' tr'
                 | None => None
                 end
  end.

Definition is_cleanup (ev : Event) : bool :=
  match ev with EvCleanup => true | _ => false end.

(** The promises in the order [writeContract] enqueued them. *)
Fixpoint submitted (l : list Obs) : list nat :=
  match l with
  | [] => []
  | ObsEnqueue p :: l' => p :: submitted l'
  | _ :: l' => submitted l'
  end.

(** The promises in the order [executeTransaction] was invoked for them. *)
Fixpoint executed (l : list Obs) : list nat :=
  match l with
  | [] => []
  | ObsExecute p :: l' => p :: executed l'
  | _ :: l' => executed l'
  end.

(** Replays a log and checks that executions do not overlap: [cur] is the
    entry in execution.  An execution starts only when none is running, its
    client calls belong to it, and it ends by settling its own promise. *)
Fixpoint sequential (cur : option nat) (l : list Obs) : option (option nat) :=
  match l with
  | [] => Some cur
  | ObsEnqueue _ :: l' => sequential cur l'
  | ObsExecute p :: l' =>
      match cur with None => sequential (Some p) l' | Some _ => None end
  | ObsGetGasPrice p :: l' | ObsWalletWrite p _ :: l' =>
      if bool_decide (cur = Some p) then sequential cur l' else None
  | ObsResolve p _ :: l' | ObsReject p _ :: l' =>
      if bool_decide (cur = Some p) then sequential None l' else None
  end.

(** A suspended worker is inside [executeTransaction] for its entry: at
    its start, or after the gas price [g] was obtained. *)
Definition executing (w : Worker) : Prop :=
  cont w = executeTransaction (params (item w)) \/
  exists g, cont w = executeWith (params (item w)) g.

(** The arguments of the [writeContract] calls of a trace, in order: the
    call number [p] created promise [p]. *)
Fixpoint submissions (tr : list Event) : list TxParams :=
  match tr with
  | [] => []
  | EvWriteContract a :: tr' => a :: submissions tr'
  | _ :: tr' => submissions tr'
  end.

(** An entry stems from the submission that created its promise. *)
Definition stems (subs : list TxParams) (it : QueueItem) : Prop :=
  exists a, subs !! promise it = Some a /\ params it = withDefaults a.

(** What the log may contain, given the submissions so far. *)
Definition justified (subs : list TxParams) (o : Obs) : Prop :=
  match o with
  | ObsGetGasPrice p => exists a, subs !! p = Some a /\ gasPrice a = Some 0
  | ObsWalletWrite p c =>
      exists a, subs !! p = Some a /\
                wc_gas c = Some (default 600000 (gas a)) /\
                wc_value c = default 0 (value a) /\
                (gasPrice a <> Some 0 -> wc_gasPrice c = default 1 (gasPrice a))
  | _ => True
  end.

(** The invariant that ties entries, workers and log to the submissions;
    it holds on every trace, with or without [cleanup]. *)
Record Provenance (subs : list TxParams) (s : State) : Prop := mkProvenance {
  prov_next : nextPromise s = length subs;
  prov_queue : Forall (stems subs) (transactionQueue s);
  prov_workers : Forall (fun w => stems subs (item w) /\ executing w) (workers s);
  prov_log : Forall (justified subs) (log s)
}.

(** Sample inputs. *)
Definition sampleParams : TxParams :=
  mkTxParams "0xc0" JNull "increment" None "0xa1" None None None None.

Definition sampleResult : WriteContractResult :=
  mkResult "0x01" "0xa1" "0xc0" "0x0" 21000 [] true "0x" None None.

(** The sample call with an explicit gas price. *)
Definition withGasPrice (g : Z) : TxParams :=
  mkTxParams "0xc0" JNull "increment" None "0xa1" None (Some g) None None.

(** The promise of the entry a suspended worker is executing, if any. *)
Definition running (s : State) : option nat :=
  match workers s with
  | [] => None
  | w :: _ => Some (promise (item w))
  end.

(** The tree a worker continues with after one of its awaits settled. *)
Definition resumable (it : QueueItem) (t : Async WriteContractResult) : Prop :=
  match t with
  | Return _ | Throw _ => True
  | _ => executing (mkWorker it t)
  end.

(** The invariant of the queue as long as [cleanup] is not called. *)
Record Serial (s : State) : Prop := mkSerial {
  serial_cont : Forall executing (workers s);
  serial_workers : (length (workers s) <= 1)%nat;
  serial_flag : isProcessingQueue s = bool_decide (workers s <> []);
  serial_idle : workers s = [] -> transactionQueue s = [];
  serial_ids : submitted (log s) = seq 0 (nextPromise s);
  serial_fifo : submitted (log s) = executed (log s) ++ map promise (transactionQueue s);
  serial_log : sequential None (log s) = Some (running s)
}.

(** The event that answers the await of the worker in slot 0 with the
    outcomes [g] (gas price query) or [w] (wallet write). *)
Definition answer (g : Error + Z) (w : Error + WriteContractResult) (s : State) : option Event :=
  match workers s with
  | mkWorker _ (AwaitGetGasPrice _) :: _ => Some (EvGasPrice 0 g)
  | mkWorker _ (AwaitWriteContract _ _) :: _ => Some (EvWalletWrite 0 w)
  | _ => None
  end.

(** The number of awaits left before the queue is drained. *)
Definition pendingAwaits (s : State) : nat :=
  match workers s with
  | [] => 0
  | w :: _ => 2 * length (transactionQueue s) +
              match cont w with AwaitGetGasPrice _ => 2 | _ => 1 end
  end.

(** Answers pending awaits [n] times, or until no worker is suspended. *)
Fixpoint settle (g : Error + Z) (w : Error + WriteContractResult) (n : nat) (s : State) : State :=
  match n with
  | O => s
  | S n' => match answer g w s with
            | Some ev => match step s ev with
                         | Some s' => settle g w n' s'
                         | None => s
                         end
            | None => s
            end
  end.

(** The promises settled, in the order they were resolved or rejected. *)
Fixpoint settled (l : list Obs) : list nat :=
  match l with
  | [] => []
  | ObsResolve p _ :: l' | ObsReject p _ :: l' => p :: settled l'
  | _ :: l' => settled l'
  end.

(** Where the promises created so far are: settled, waiting in the queue,
    or held by a suspended worker. *)
Definition accounted (s : State) : list nat :=
  settled (log s) ++ map promise (transactionQueue s) ++
  map (fun w => promise (item w)) (workers s).

(** The entry [writeContract] pushes for the arguments [a] in state [s]. *)
Definition entryOf (a : TxParams) (s : State) : QueueItem :=
  mkItem (withDefaults a) (nextPromise s).

(** The rejections [cleanup] makes for the queue [q]. *)
Definition cancellations (q : list QueueItem) : list Obs :=
  map (fun it => ObsReject (promise it) "Service cleanup: Transaction cancelled") q.

(** A log entry that tells how a promise was resolved is backed by the
    wallet call made for it: the value is the wallet's result [res] with
    [weiSpent = gas_used * gasPrice] of that call. *)
Definition backed (l : list Obs) (o : Obs) : Prop :=
  match o with
  | ObsResolve p r =>
      exists c res, ObsWalletWrite p c ∈ l /\
                    r = set_weiSpent res (gas_used res * wc_gasPrice c)
  | _ => True
  end.

(** A worker suspended in the wallet call has logged it, and continues as
    [executeWith] does for the gas price of the call. *)
Definition awaitsLogged (l : list Obs) (w : Worker) : Prop :=
  match cont w with
  | AwaitWriteContract c k =>
      ObsWalletWrite (promise (item w)) c ∈ l /\
      cont w = executeWith (params (item w)) (wc_gasPrice c)
  | AwaitGetGasPrice k => cont w = executeTransaction (params (item w))
  | _ => False
  end.

(** The invariant that ties resolved values to wallet calls. *)
Record Backed (s : State) : Prop := mkBacked {
  backed_log : Forall (backed (log s)) (log s);
  backed_workers : Forall (awaitsLogged (log s)) (workers s)
}.

End TxQueue.

(** ** The WebSocket transport ([createFiberWebSocketTransport]) *)
Module Transport.

(** [WebSocket.readyState] *)
Inductive ReadyState : Type := CONNECTING | OPEN | CLOSING | CLOSED.

Global Instance ReadyState_eq_dec : EqDecision ReadyState.
Proof. solve_decision. Defined.

(** Who awaits the promise returned by a call of [connect]: a
    [transport.request] suspended in [await connect()], or the reconnect
    timer, which ignores the outcome. *)
Inductive Waiter : Type :=
| WRequest (method : string) (params : Json)
| WReconnect.

(** A socket made by [new WebSocket(url)]: its state, the [connect] call
    whose [resolve]/[reject] its handlers captured, and whether that
    promise is settled. *)
Record Socket : Type := mkSocket {
  readyState : ReadyState;
  creator : Waiter;
  connectSettled : bool
}.

Inductive TimerAction : Type :=
| TimeoutReq (id : Z) (method : string)   (* the 30 s timeout of request [id] *)
| Reconnect                               (* [connect().catch(console.error)] *)
| Poll (w : Waiter).                      (* [checkConnection] of a waiting connect *)

Record Timer : Type := mkTimer {
  due : Z;
  action : TimerAction
}.

(** How the promise created for a request id ended. *)
Inductive Outcome : Type :=
| Resolved (result : Json)
| Rejected (e : Error).

Inductive Obs : Type :=
| ObsSocketCreated (j : nat) (w : Waiter)        (* [new WebSocket(url)] *)
| ObsSocketClose (j : nat) (code : Z)            (* [ws.close(code, ...)] *)
| ObsSend (j : nat) (m : Mapper.Envelope Json)   (* [socket.send(message)] *)
| ObsReconnectScheduled (delay : Z)              (* [setTimeout] of a reconnect *)
| ObsRequestFailed (method : string) (e : Error) (* request rejected before it got an id *)
| ObsRegistered (id : Z) (method : string) (params : Json).

(** The variables of the closure.  [requestId] and [reconnectAttempts] are
    JavaScript numbers holding integers (exact below 2^53) and [now] is the
    clock in milliseconds.  [pendingRequests] maps a request id to
    the timeout handle its stored handlers clear ([None] for the handlers
    stored before the timer exists); the promise created for an id is named
    by the id. *)
Record State : Type := mkState {
  ws : option nat;
  sockets : list Socket;
  requestId : Z;
  reconnectAttempts : Z;
  pendingRequests : gmap Z (option nat);
  promises : gmap Z Outcome;
  timers : gmap nat Timer;
  nextTimer : nat;
  now : Z;
  log : list Obs
}.

Definition maxReconnectAttempts : Z := 5.
Definition reconnectDelay : Z := 1000.
Definition requestTimeout : Z := 30000.
Definition pollInterval : Z := 100.

Definition init : State := mkState None [] 1 0 ∅ ∅ ∅ 0%nat 0 [].

Definition set_ws (v : option nat) (s : State) : State :=
  mkState v (sockets s) (requestId s) (reconnectAttempts s) (pendingRequests s)
          (promises s) (timers s) (nextTimer s) (now s) (log s).

Definition set_sockets (v : list Socket) (s : State) : State :=
  mkState (ws s) v (requestId s) (reconnectAttempts s) (pendingRequests s)
          (promises s) (timers s) (nextTimer s) (now s) (log s).

Definition set_requestId (v : Z) (s : State) : State :=
  mkState (ws s) (sockets s) v (reconnectAttempts s) (pendingRequests s)
          (promises s) (timers s) (nextTimer s) (now s) (log s).

Definition set_attempts (v : Z) (s : State) : State :=
  mkState (ws s) (sockets s) (requestId s) v (pendingRequests s)
          (promises s) (timers s) (nextTimer s) (now s) (log s).

Definition set_pending (v : gmap Z (option nat)) (s : State) : State :=
  mkState (ws s) (sockets s) (requestId s) (reconnectAttempts s) v
          (promises s) (timers s) (nextTimer s) (now s) (log s).

Definition set_promises (v : gmap Z Outcome) (s : State) : State :=
  mkState (ws s) (sockets s) (requestId s) (reconnectAttempts s) (pendingRequests s)
          v (timers s) (nextTimer s) (now s) (log s).

Definition set_timers (v : gmap nat Timer) (s : State) : State :=
  mkState (ws s) (sockets s) (requestId s) (reconnectAttempts s) (pendingRequests s)
          (promises s) v (nextTimer s) (now s) (log s).

Definition set_now (v : Z) (s : State) : State :=
  mkState (ws s) (sockets s) (requestId s) (reconnectAttempts s) (pendingRequests s)
          (promises s) (timers s) (nextTimer s) v (log s).

Definition emit (o : Obs) (s : State) : State :=
  mkState (ws s) (sockets s) (requestId s) (reconnectAttempts s) (pendingRequests s)
          (promises s) (timers s) (nextTimer s) (now s) (log s ++ [o]).

(** [socket.readyState] of socket [i]. *)
Definition stateOf (s : State) (i : nat) : option ReadyState :=
  readyState <$> sockets s !! i.

(** [ws?.readyState] *)
Definition wsState (s : State) : option ReadyState :=
  ws s ≫= stateOf s.

Definition set_readyState (i : nat) (r : ReadyState) (s : State) : State :=
  set_sockets (alter (fun k => mkSocket r (creator k) (connectSettled k)) i (sockets s)) s.

Definition set_connectSettled (i : nat) (s : State) : State :=
  set_sockets (alter (fun k => mkSocket (readyState k) (creator k) true) i (sockets s)) s.

(** [setTimeout(action, delay)]: the handle is [nextTimer s]. *)
Definition setTimeout (delay : Z) (a : TimerAction) (s : State) : State :=
  mkState (ws s) (sockets s) (requestId s) (reconnectAttempts s) (pendingRequests s)
          (promises s) (<[nextTimer s := mkTimer (now s + delay) a]> (timers s))
          (S (nextTimer s)) (now s) (log s).

Definition clearTimeout (t : nat) (s : State) : State :=
  set_timers (delete t (timers s)) s.

(** Resolving or rejecting the promise of request [id]; a settled promise
    ignores further calls. *)
Definition settle (id : Z) (o : Outcome) (s : State) : State :=
  match promises s !! id with
  | Some _ => s
  | None => set_promises (<[id := o]> (promises s)) s
  end.

(** Calling a handler stored in [pendingRequests]: the wrapped handlers
    clear their timeout first. *)
Definition invoke (id : Z) (h : option nat) (o : Outcome) (s : State) : State :=
  settle id o (match h with Some t => clearTimeout t s | None => s end).

(** [for (const [id, request] of pendingRequests.entries()) {
      request.reject(new Error(e)); pendingRequests.delete(id) }] *)
Definition rejectAll (e : Error) (s : State) : State :=
  set_pending ∅
    (foldr (fun entry acc => invoke entry.1 entry.2 (Rejected e) acc) s
           (map_to_list (pendingRequests s))).

(** The executor of the promise in [transport.request], run once
    [await connect()] produced [sock] (the value [connect] resolved with,
    [None] for [null]). *)
Definition register (m : string) (p : Json) (sock : option nat) (s : State) : State :=
  let id := requestId s in
  let s1 := emit (ObsRegistered id m p)
              (set_pending (<[id := None]> (pendingRequests s)) (set_requestId (id + 1) s)) in
  match sock with
  | None =>
      (* [socket.readyState] throws inside the executor *)
      settle id (Rejected "Cannot read properties of null (reading 'readyState')") s1
  | Some j =>
      let s2 := match stateOf s1 j with
                | Some OPEN => emit (ObsSend j (Mapper.wsRequestMessage m p id)) s1
                | _ => settle id (Rejected "WebSocket is not open")
                              (set_pending (delete id (pendingRequests s1)) s1)
                end in
      let t := nextTimer s2 in
      let s3 := setTimeout requestTimeout (TimeoutReq id m) s2 in
      set_pending (<[id := Some t]> (pendingRequests s3)) s3
  end.

(** The promise of a [connect] call resolves with [sock]. *)
Definition continueWaiter (w : Waiter) (sock : option nat) (s : State) : State :=
  match w with
  | WRequest m p => register m p sock s
  | WReconnect => s
  end.

(** The promise of a [connect] call rejects: the request rethrows. *)
Definition failWaiter (w : Waiter) (s : State) : State :=
  match w with
  | WRequest m _ =>
      emit (ObsRequestFailed m "WebSocket connection failed: Error: WebSocket connection failed") s
  | WReconnect => s
  end.

(** [checkConnection] reads the variable [ws] each time it runs. *)
Definition checkConnection (w : Waiter) (s : State) : State :=
  match wsState s with
  | Some OPEN => continueWaiter w (ws s) s
  | Some CLOSED | Some CLOSING => failWaiter w s
  | _ => setTimeout pollInterval (Poll w) s
  end.

(** [connect()], called on behalf of [w]. *)
Definition connect (w : Waiter) (s : State) : State :=
  match wsState s with
  | Some OPEN => continueWaiter w (ws s) s
  | Some CONNECTING => checkConnection w s
  | _ =>
      let j := length (sockets s) in
      emit (ObsSocketCreated j w)
           (set_ws (Some j) (set_sockets (sockets s ++ [mkSocket CONNECTING w false]) s))
  end.

(** [ws.onopen] of socket [i]: [resolve(ws!)] passes the current value of
    the variable [ws]. *)
Definition onopen (i : nat) (s : State) : State :=
  let s1 := set_attempts 0 s in
  match sockets s1 !! i with
  | Some k => if connectSettled k then s1
              else continueWaiter (creator k) (ws s1) (set_connectSettled i s1)
  | None => s1
  end.

(** [ws.onerror] of socket [i]. *)
Definition onerror (i : nat) (s : State) : State :=
  match sockets s !! i with
  | Some k => if connectSettled k then s
              else failWaiter (creator k) (set_connectSettled i s)
  | None => s
  end.

(** [ws.onclose]; the handler does not look at which socket closed. *)
Definition onclose (code : Z) (s : State) : State :=
  let s1 := rejectAll "WebSocket connection closed" (set_ws None s) in
  if bool_decide (code <> 1000) && (reconnectAttempts s1 <? maxReconnectAttempts)
  then
    let n := reconnectAttempts s1 + 1 in
    setTimeout (reconnectDelay * n) Reconnect
               (emit (ObsReconnectScheduled (reconnectDelay * n)) (set_attempts n s1))
  else s1.

(** [close()] of the transport. *)
Definition close (s : State) : State :=
  let s1 := match ws s with
            | Some i =>
                match stateOf s i with
                | Some OPEN | Some CONNECTING =>
                    emit (ObsSocketClose i 1000) (set_readyState i CLOSING s)
                | _ => s
                end
            | None => s
            end in
  rejectAll "WebSocket transport closed"
            (set_attempts maxReconnectAttempts (set_ws None s1)).

(** A parsed incoming frame.  In a response [id] is [None] when the frame
    has no id that can be a key of the map, [error] is [Some m] when the
    frame has an [error] with message [m] (empty when it has none) and
    [result] is its result. *)
Inductive Incoming : Type :=
| Unparseable                                  (* [JSON.parse] throws *)
| Notification                                 (* no [id], a [method] *)
| Response (id : option Z) (error : option string) (result : Json).

Definition outcomeOf (error : option string) (result : Json) : Outcome :=
  match error with
  | Some m => Rejected (if bool_decide (m = EmptyString) then "RPC error" else m)
  | None => Resolved result
  end.

(** [ws.onmessage] *)
Definition onmessage (msg : Incoming) (s : State) : State :=
  match msg with
  | Response (Some id) error result =>
      match pendingRequests s !! id with
      | Some h => invoke id h (outcomeOf error result)
                         (set_pending (delete id (pendingRequests s)) s)
      | None => s
      end
  | _ => s
  end.

(** The callback of a timer. *)
Definition fire (a : TimerAction) (s : State) : State :=
  match a with
  | TimeoutReq id m =>
      match pendingRequests s !! id with
      | Some _ => settle id (Rejected ("Request timeout for method: " +:+ m))
                         (set_pending (delete id (pendingRequests s)) s)
      | None => s
      end
  | Reconnect => connect WReconnect s
  | Poll w => checkConnection w s
  end.

Inductive Event : Type :=
| Request (method : string) (params : Json)   (* [transport.request({method, params})] *)
| Close                                       (* [transport.close()] *)
| SockOpen (i : nat)                          (* socket [i] opens *)
| SockClosing (i : nat)                       (* the peer starts the closing handshake *)
| SockClose (i : nat) (failed : bool) (code : Z)
    (* socket [i] is closed: [error] fires first when the connection failed *)
| SockMessage (i : nat) (msg : Incoming)
| Elapse (d : Z)                              (* time passes, no timer overdue *)
| Fire (t : nat).                             (* timer [t] is due and runs *)

(** One step; [None] when the environment cannot produce the event. *)
Definition step (s : State) (ev : Event) : option State :=
  match ev with
  | Request m p => Some (connect (WRequest m p) s)
  | Close => Some (close s)
  | SockOpen i =>
      match stateOf s i with
      | Some CONNECTING => Some (onopen i (set_readyState i OPEN s))
      | _ => None
      end
  | SockClosing i =>
      match stateOf s i with
      | Some OPEN => Some (set_readyState i CLOSING s)
      | _ => None
      end
  | SockClose i failed code =>
      match stateOf s i with
      | Some CLOSED | None => None
      | Some _ =>
          let s1 := set_readyState i CLOSED s in
          Some (onclose code (if failed then onerror i s1 else s1))
      end
  | SockMessage i msg =>
      match stateOf s i with
      | Some OPEN => Some (onmessage msg s)
      | _ => None
      end
  | Elapse d =>
      if bool_decide (0 <= d) &&
         bool_decide (map_Forall (fun _ tm => now s + d <= due tm) (timers s))
      then Some (set_now (now s + d) s)
      else None
  | Fire t =>
      match timers s !! t with
      | Some tm => if due tm <=? now s
                   then Some (fire (action tm) (clearTimeout t s))
                   else None
      | None => None
      end
  end.

Fixpoint run (s : State) (tr : list Event) : option State :=
  match tr with
  | [] => Some s
  | ev :: tr' => match step s ev with
                 | Some s' => run s' tr'
                 | None => None
                 end
  end.

(** The request ids in the order [requestId++] handed them out. *)
Fixpoint assigned (l : list Obs) : list Z :=
  match l with
  | [] => []
  | ObsRegistered id _ _ :: l' => id :: assigned l'
  | _ :: l' => assigned l'
  end.

(** The delays of the reconnects scheduled, in order. *)
Fixpoint reconnectsScheduled (l : list Obs) : list Z :=
  match l with
  | [] => []
  | ObsReconnectScheduled d :: l' => d :: reconnectsScheduled l'
  | _ :: l' => reconnectsScheduled l'
  end.

(** The sockets created, in order, with the [connect] call that made them. *)
Fixpoint socketsCreated (l : list Obs) : list (nat * Waiter) :=
  match l with
  | [] => []
  | ObsSocketCreated j w :: l' => (j, w) :: socketsCreated l'
  | _ :: l' => socketsCreated l'
  end.

(** Every frame sent was built by the mapper for a registered request. *)
Definition mappedSend (l : list Obs) (o : Obs) : Prop :=
  match o with
  | ObsSend _ env =>
      exists m p, ObsRegistered (Mapper.id env) m p ∈ l /\
                  env = Mapper.wsRequestMessage m p (Mapper.id env)
  | _ => True
  end.

(** The invariant of the transport. *)
Record WF (s : State) : Prop := mkWF {
  wf_pending : forall id h, pendingRequests s !! id = Some h -> id < requestId s;
  wf_promises : forall id o, promises s !! id = Some o -> id < requestId s;
  wf_timers : forall t tm, timers s !! t = Some tm ->
                (t < nextTimer s)%nat /\ now s <= due tm;
  wf_handles : forall id t, pendingRequests s !! id = Some (Some t) ->
                 (t < nextTimer s)%nat /\
                 forall tm, timers s !! t = Some tm -> exists m, action tm = TimeoutReq id m;
  wf_timeouts : forall t tm id m, timers s !! t = Some tm -> action tm = TimeoutReq id m ->
                  id < requestId s /\
                  forall h, pendingRequests s !! id = Some h -> h = Some t;
  wf_attempts : 0 <= reconnectAttempts s <= maxReconnectAttempts;
  wf_requestId : 1 <= requestId s;
  wf_ids : assigned (log s) = seqZ 1 (requestId s - 1);
  wf_sends : Forall (mappedSend (log s)) (log s)
}.

(** What the handlers other than [onclose] and the passing of time leave
    alone: ids only grow, the clock and the reconnect schedule stay, a
    settled promise stays settled and a retired id stays out of the map. *)
Record Frame (s s' : State) : Prop := mkFrame {
  frame_requestId : requestId s <= requestId s';
  frame_now : now s' = now s;
  frame_scheduled : reconnectsScheduled (log s') = reconnectsScheduled (log s);
  frame_promises : forall id o, promises s !! id = Some o -> promises s' !! id = Some o;
  frame_pending : forall id, id < requestId s -> pendingRequests s !! id = None ->
                             pendingRequests s' !! id = None
}.

(** What every step leaves alone. *)
Record Stable (s s' : State) : Prop := mkStable {
  stable_requestId : requestId s <= requestId s';
  stable_now : now s <= now s';
  stable_promises : forall id o, promises s !! id = Some o -> promises s' !! id = Some o;
  stable_pending : forall id, id < requestId s -> pendingRequests s !! id = None ->
                              pendingRequests s' !! id = None
}.

(** Request [id], for method [m], was sent at time [T] and nothing has
    settled it: its entry holds the handlers that clear timer [t], and
    timer [t] is its timeout, due at [T + 30000]. *)
Definition InFlight (s : State) (id : Z) (m : string) (T : Z) (t : nat) : Prop :=
  pendingRequests s !! id = Some (Some t) /\
  timers s !! t = Some (mkTimer (T + requestTimeout) (TimeoutReq id m)) /\
  promises s !! id = None.

(** Request [id] was rejected by its timeout, at [T + 30000] or later. *)
Definition TimedOut (s : State) (id : Z) (m : string) (T : Z) : Prop :=
  promises s !! id = Some (Rejected ("Request timeout for method: " +:+ m)) /\
  pendingRequests s !! id = None /\
  T + requestTimeout <= now s.

(** A handler that does not disturb requests in flight. *)
Definition Keeps (s s' : State) : Prop :=
  forall id m T t, InFlight s id m T t -> InFlight s' id m T t.

(** Events that settle request [id] other than its timeout: a response
    with its id, the close of a socket, [close()]. *)
Definition settles (id : Z) (ev : Event) : bool :=
  match ev with
  | SockMessage _ (Response (Some id') _ _) => bool_decide (id' = id)
  | SockClose _ _ _ | Close => true
  | _ => false
  end.

(** A step that sends nothing appends observations other than frames. *)
Definition notSend (o : Obs) : Prop :=
  match o with ObsSend _ _ => False | _ => True end.

Definition Silent (s s' : State) : Prop :=
  exists l, log s' = log s ++ l /\ Forall notSend l.

(** A step that ends by running the executor of a request. *)
Definition Registers (s s' : State) : Prop :=
  exists s0 m p sock,
    WF s0 /\ Silent s s0 /\ now s0 = now s /\ s' = register m p sock s0.

(** The frame [env] was sent on socket [j] by the step from [s] to [s']. *)
Definition sentBy (s s' : State) (j : nat) (env : Mapper.Envelope Json) : Prop :=
  exists l, log s' = log s ++ l /\ ObsSend j env ∈ l.

(** The ids of the frames sent, in the order they were sent. *)
Fixpoint sentIds (l : list Obs) : list Z :=
  match l with
  | [] => []
  | ObsSend _ env :: l' => Mapper.id env :: sentIds l'
  | _ :: l' => sentIds l'
  end.

(** Every element is below all later ones. *)
Fixpoint increasing (l : list Z) : Prop :=
  match l with
  | [] => True
  | a :: l' => Forall (Z.lt a) l' /\ increasing l'
  end.

(** The socket closes with a code other than the normal closure. *)
Definition closesAbnormally (ev : Event) : bool :=
  match ev with
  | SockClose _ _ code => bool_decide (code <> 1000)
  | _ => false
  end.

(** The number of abnormal closes in a trace. *)
Fixpoint abnormalCloses (tr : list Event) : Z :=
  match tr with
  | [] => 0
  | ev :: tr' => (if closesAbnormally ev then 1 else 0) + abnormalCloses tr'
  end.

(** Events that set the retry counter other than by a close: the open of a
    socket and [close()]. *)
Definition resetsCounter (ev : Event) : bool :=
  match ev with
  | SockOpen _ | Close => true
  | _ => false
  end.

(** Sample traces. *)
Definition sampleRequest : Event := Request "eth_blockNumber" (JArr []).

(** A request, the socket opens, then drops. *)
Definition dropTrace : list Event :=
  [sampleRequest; SockOpen 0; SockClose 0 true 1006].

Definition afterOpen : State := default init (run init [sampleRequest; SockOpen 0]).

Definition afterDrop : State := default init (run init dropTrace).

(** A second request, made on the open socket. *)
Definition afterRequest : State := default init (step afterOpen sampleRequest).

(** The socket drops, [close()] is called half a second later, and the
    reconnect timer armed by the drop fires when it is due. *)
Definition closeThenTimerTrace : list Event :=
  [sampleRequest; SockOpen 0; SockClose 0 true 1006; Elapse 500; Close;
   Elapse 500; Fire 1].

(** The peer drops socket [j] and every socket the reconnect timers open
    after it, at most [n] times and until no reconnect is scheduled: a drop,
    then the wait for the reconnect timer [t], which makes socket [j + 1].
    [a] is the retry counter before the drop. *)
Fixpoint dropsFrom (n : nat) (j : nat) (t : nat) (a : Z) : list Event :=
  match n with
  | O => []
  | S n' => SockClose j true 1006 ::
            (if a <? 5
             then Elapse (1000 * (a + 1)) :: Fire t :: dropsFrom n' (S j) (S t) (a + 1)
             else [])
  end.

Definition repeatedDrops : list Event := dropsFrom 7 0 1 0.

(** The peer starts closing socket 0, a request makes socket 1, which
    opens and carries the request; socket 0 has not closed yet. *)
Definition staleTrace : list Event :=
  [sampleRequest; SockOpen 0; SockClosing 0; sampleRequest; SockOpen 1].

Definition withStaleSocket : State := default init (run init staleTrace).

(** As before, but socket 0 closes while socket 1 is still connecting. *)
Definition orphanTrace : list Event :=
  [sampleRequest; SockOpen 0; SockClosing 0; sampleRequest; SockClose 0 false 1000].

Definition withOrphanSocket : State := default init (run init orphanTrace).

(** As before, and a third request has made socket 2, which the variable
    now refers to; sockets 1 and 2 are both connecting. *)
Definition supersededTrace : list Event := orphanTrace ++ [sampleRequest].

Definition withSupersededSocket : State := default init (run init supersededTrace).

(** A second request waits for the connecting socket, the connection
    fails, and the poll of the waiting request comes due. *)
Definition pollingTrace : list Event :=
  [sampleRequest; sampleRequest; SockClose 0 true 1006; Elapse 100].

Definition whilePolling : State := default init (run init pollingTrace).

(** The first request has made socket 0, which is still connecting. *)
Definition whileConnecting : State := default init (step init sampleRequest).

End Transport.

(** ** JavaScript string primitives used by [decodeSolidityError] *)
Module Js.

(** The relative index of [String.prototype.slice]: negative counts from
    the end, and the result is clamped to the string. *)
Definition clampIndex (len i : Z) : Z :=
  if i <? 0 then Z.max (len + i) 0 else Z.min i len.

(** [s.slice(start, stop)] *)
Definition slice (s : string) (start stop : Z) : string :=
  let len := Z.of_nat (String.length s) in
  let a := clampIndex len start in
  let b := clampIndex len stop in
  String.substring (Z.to_nat a) (Z.to_nat (b - a)) s.

(** [s.slice(start)] *)
Definition sliceFrom (s : string) (start : Z) : string :=
  slice s start (Z.of_nat (String.length s)).

(** [s.startsWith(p)] *)
Definition startsWith (s p : string) : bool := String.prefix p s.

Definition hexDigit (c : ascii) : option Z :=
  let n := Z.of_N (N_of_ascii c) in
  if (48 <=? n) && (n <=? 57) then Some (n - 48)
  else if (97 <=? n) && (n <=? 102) then Some (n - 87)
  else if (65 <=? n) && (n <=? 70) then Some (n - 55)
  else None.

(** The value of the longest prefix of hex digits, [None] when it is empty. *)
Fixpoint hexPrefix (s : string) (acc : option Z) : option Z :=
  match s with
  | EmptyString => acc
  | String c s' =>
      match hexDigit c with
      | Some d => hexPrefix s' (Some (16 * default 0 acc + d))
      | None => acc
      end
  end.

Definition isWhite (c : ascii) : bool :=
  let n := N_of_ascii c in
  ((9 <=? n) && (n <=? 13))%N || (n =? 32)%N.

Fixpoint skipWhite (s : string) : string :=
  match s with
  | String c s' => if isWhite c then skipWhite s' else s
  | EmptyString => s
  end.

(** [parseInt(s, 16)]: leading white space, a sign, an optional [0x], then
    hex digits; [None] is [NaN]. *)
Definition parseInt16 (s : string) : option Z :=
  let s1 := skipWhite s in
  let '(neg, s2) := match s1 with
                    | String "-" r => (true, r)
                    | String "+" r => (false, r)
                    | _ => (false, s1)
                    end in
  let s3 := if String.prefix "0x" s2 || String.prefix "0X" s2
            then String.substring 2 (String.length s2 - 2) s2 else s2 in
  (fun v => if neg then - v else v) <$> hexPrefix s3 None.

(** [n.toString()] of a bigint. *)
Definition bigintToString (z : Z) : string := NilZero.string_of_int (Z.to_int z).

(** A value read from a decoded error: [args?.[0]]. *)
Inductive Value : Type :=
| VUndefined
| VString (s : string)
| VBigint (z : Z)
| VBool (b : bool).

(** [String(v)] *)
Definition toString (v : Value) : string :=
  match v with
  | VUndefined => "undefined"
  | VString s => s
  | VBigint z => bigintToString z
  | VBool true => "true"
  | VBool false => "false"
  end.

(** [t] occurs in [s]. *)
Definition contains (s t : string) : Prop :=
  exists a b, s = a +:+ t +:+ b.

(** A printed integer starts with a digit or a minus sign. *)
Definition numeralStart (c : ascii) : Prop :=
  c = "-"%char \/ (48 <= N_of_ascii c <= 57)%N.

End Js.

(** ** [FiberUtils.decodeSolidityError] *)
Module SolidityError.
Import Js.

(** The two one-input error ABIs the function builds. *)
Inductive ErrorAbi : Type :=
| StandardError   (* [Error(string)] *)
| PanicError.     (* [Panic(uint256)] *)

(** The [args] of the object [decodeErrorResult] returns ([None] when it
    has no [args]). *)
Definition Decoded : Type := option (list Value).

(** [decoded.args?.[0]] *)
Definition firstArg (d : Decoded) : Value :=
  match d with
  | Some (v :: _) => v
  | _ => VUndefined
  end.

(** The manual decoding in the [catch] of the [Error(string)] branch. *)
Definition manualMessageHex (output : string) : string :=
  let errorData := sliceFrom output 10 in
  let lengthHex := slice errorData 64 128 in
  match parseInt16 lengthHex with
  | Some len => slice errorData 128 (128 + len * 2)
  | None => slice errorData 128 0   (* [NaN] as an index is 0 *)
  end.

(** [decodeSolidityError(output)].  The two functions of the viem library
    it calls are parameters: [decodeErrorResult abi data] and
    [hexToString hex], each returning [inl] when it throws.  The result is
    [None] for [null]. *)
Definition decodeSolidityError
           (decodeErrorResult : ErrorAbi -> string -> Error + Decoded)
           (hexToString : string -> Error + string)
           (output : string) : option string :=
  if negb (startsWith output "0x") then None
  else
    let panicOrUnknown :=
      if startsWith output "0x4e487b71" then
        match decodeErrorResult PanicError output with
        | inr decoded => Some ("Panic(" +:+ toString (firstArg decoded) +:+ ")")
        | inl _ => Some "Panic"
        end
      else Some ("Unknown error (" +:+ slice output 0 10 +:+ ")") in
    if startsWith output "0x08c379a0" then
      match decodeErrorResult StandardError output with
      | inr decoded =>
          match firstArg decoded with
          | VString message => Some message
          | _ => panicOrUnknown
          end
      | inl _ =>
          match hexToString ("0x" +:+ manualMessageHex output) with
          | inr s => Some s
          | inl _ => None   (* caught by the outer [catch] *)
          end
      end
    else panicOrUnknown.

End SolidityError.

(** ** The viem functions called by [decodeSolidityError]

    viem is a dependency of the repository, not part of it.  The
    definitions below follow its documented behaviour for the two ABIs
    above: hex strings are decoded to bytes, a [uint256] is the first
    32-byte word, and a [string] is an offset word, a length word at the
    offset and that many bytes. *)
Module Viem.
Import Js SolidityError.

(** Pairs of hex digits to bytes; [None] on a character that is no digit. *)
Fixpoint pairs (s : string) : option (list Z) :=
  match s with
  | EmptyString => Some []
  | String a (String b r) =>
      match hexDigit a, hexDigit b, pairs r with
      | Some x, Some y, Some l => Some ((16 * x + y) :: l)
      | _, _, _ => None
      end
  | String _ EmptyString => None
  end.

(** [hexToBytes]: the [0x] prefix is dropped and an odd number of digits
    is padded with a leading zero. *)
Definition hexToBytes (hex : string) : Error + list Z :=
  let digits := if String.prefix "0x" hex
                then String.substring 2 (String.length hex - 2) hex else hex in
  let padded := if Nat.odd (String.length digits) then String "0" digits else digits in
  match pairs padded with
  | Some l => inr l
  | None => inl "Invalid byte sequence"
  end.

Definition bytesToNumber (bs : list Z) : Z :=
  foldl (fun acc b => 256 * acc + b) 0 bs.

Definition bytesToString (bs : list Z) : string :=
  String.string_of_list_ascii (map (fun b => ascii_of_N (Z.to_N b)) bs).

(** [hexToString] *)
Definition hexToString (hex : string) : Error + string :=
  match hexToBytes hex with
  | inr bs => inr (bytesToString bs)
  | inl e => inl e
  end.

(** Reads [n] bytes at [pos]; [None] when the cursor leaves the data. *)
Definition readBytes (bs : list Z) (pos n : nat) : option (list Z) :=
  if bool_decide (pos + n <= length bs)%nat then Some (take n (drop pos bs)) else None.

(** [trim]: leading zero bytes are removed. *)
Fixpoint trimLeft (bs : list Z) : list Z :=
  match bs with
  | 0 :: r => trimLeft r
  | _ => bs
  end.

(** [decodeAbiParameters] for one parameter. *)
Definition decodeParameter (abi : ErrorAbi) (bs : list Z) : Error + Value :=
  if bool_decide (length bs = 0%nat) then inl "AbiDecodingZeroDataError"
  else if bool_decide (length bs < 32)%nat then inl "AbiDecodingDataSizeTooSmallError"
  else
    match abi with
    | PanicError =>
        match readBytes bs 0 32 with
        | Some w => inr (VBigint (bytesToNumber w))
        | None => inl "PositionOutOfBoundsError"
        end
    | StandardError =>
        match readBytes bs 0 32 with
        | Some w =>
            let offset := Z.to_nat (bytesToNumber w) in
            match readBytes bs offset 32 with
            | Some lw =>
                let len := Z.to_nat (bytesToNumber lw) in
                if bool_decide (len = 0%nat) then inr (VString EmptyString)
                else match readBytes bs (offset + 32) len with
                     | Some data => inr (VString (bytesToString (trimLeft data)))
                     | None => inl "PositionOutOfBoundsError"
                     end
            | None => inl "PositionOutOfBoundsError"
            end
        | None => inl "PositionOutOfBoundsError"
        end
    end.

Definition selectorOf (abi : ErrorAbi) : string :=
  match abi with
  | StandardError => "0x08c379a0"
  | PanicError => "0x4e487b71"
  end.

(** [decodeErrorResult({abi, data})] *)
Definition decodeErrorResult (abi : ErrorAbi) (data : string) : Error + Decoded :=
  let signature := slice data 0 10 in
  if bool_decide (signature = "0x") then inl "AbiDecodingZeroDataError"
  else if negb (bool_decide (signature = selectorOf abi)) then inl "AbiErrorSignatureNotFoundError"
  else
    match hexToBytes ("0x" +:+ sliceFrom data 10) with
    | inl e => inl e
    | inr bs =>
        match decodeParameter abi bs with
        | inr v => inr (Some [v])
        | inl e => inl e
        end
    end.

(** The payload of [Error("hello")]. *)
Definition helloPayload : string :=
  "0x08c379a0"
  +:+ "0000000000000000000000000000000000000000000000000000000000000020"
  +:+ "0000000000000000000000000000000000000000000000000000000000000005"
  +:+ "68656c6c6f000000000000000000000000000000000000000000000000000000".

(** The payload of [Panic(0x11)] (arithmetic overflow). *)
Definition overflowPayload : string :=
  "0x4e487b71"
  +:+ "0000000000000000000000000000000000000000000000000000000000000011".

End Viem.

(** ** The shared preconfs feed of [FiberUtils] *)
Module Preconfs.

Inductive ReadyState : Type := CONNECTING | OPEN | CLOSING | CLOSED.

Global Instance ReadyState_eq_dec : EqDecision ReadyState.
Proof. solve_decision. Defined.

(** What an observer sees: sockets made and closed, the subscribe message,
    and the events handed to listeners. *)
Inductive Obs : Type :=
| ObsSocketCreated (j : nat)             (* [new WebSocket(wsUrl)] *)
| ObsSocketClose (j : nat)               (* [socket.close()] *)
| ObsSubscribeSent (j : nat)             (* [fiber_subscribePreconfs] sent on [j] *)
| ObsDelivered (callback : nat) (entry : Json).

(** The fields of the service.  Listeners are function objects, named by
    numbers; [preconfsCallbacks] is a JavaScript [Set], kept in insertion
    order.  [issued] holds the listeners for which [subscribeToPreconfs]
    returned an unsubscribe closure. *)
Record State : Type := mkState {
  preconfsWebSocket : option nat;
  preconfsConnected : bool;
  preconfsCallbacks : list nat;
  sockets : list ReadyState;
  issued : list nat;
  log : list Obs
}.

Definition init : State := mkState None false [] [] [] [].

Definition set_ws (v : option nat) (s : State) : State :=
  mkState v (preconfsConnected s) (preconfsCallbacks s) (sockets s) (issued s) (log s).

Definition set_connected (v : bool) (s : State) : State :=
  mkState (preconfsWebSocket s) v (preconfsCallbacks s) (sockets s) (issued s) (log s).

Definition set_callbacks (v : list nat) (s : State) : State :=
  mkState (preconfsWebSocket s) (preconfsConnected s) v (sockets s) (issued s) (log s).

Definition set_sockets (v : list ReadyState) (s : State) : State :=
  mkState (preconfsWebSocket s) (preconfsConnected s) (preconfsCallbacks s) v (issued s) (log s).

Definition set_issued (v : list nat) (s : State) : State :=
  mkState (preconfsWebSocket s) (preconfsConnected s) (preconfsCallbacks s) (sockets s) v (log s).

Definition emit (o : Obs) (s : State) : State :=
  mkState (preconfsWebSocket s) (preconfsConnected s) (preconfsCallbacks s) (sockets s)
          (issued s) (log s ++ [o]).

Definition stateOf (s : State) (j : nat) : option ReadyState := sockets s !! j.

(** [this.preconfsWebSocket.readyState], when the field is set. *)
Definition wsState (s : State) : option ReadyState :=
  preconfsWebSocket s ≫= stateOf s.

(** [socket.close()]: an open or connecting socket starts closing. *)
Definition closeSocket (j : nat) (s : State) : State :=
  emit (ObsSocketClose j)
       (match stateOf s j with
        | Some OPEN | Some CONNECTING => set_sockets (<[j := CLOSING]> (sockets s)) s
        | _ => s
        end).

(** [Set.prototype.add] and [delete]. *)
Definition setAdd (c : nat) (l : list nat) : list nat :=
  if bool_decide (c ∈ l) then l else l ++ [c].

Definition setDelete (c : nat) (l : list nat) : list nat :=
  filter (fun x => x <> c) l.

(** [initializePreconfsConnection] *)
Definition initializePreconfsConnection (s : State) : State :=
  match preconfsWebSocket s with
  | Some j =>
      if preconfsConnected s
         || bool_decide (stateOf s j = Some CONNECTING)
         || bool_decide (stateOf s j = Some OPEN)
      then s
      else
        let s1 := set_connected false (set_ws None (closeSocket j s)) in
        let k := length (sockets s1) in
        emit (ObsSocketCreated k) (set_ws (Some k) (set_sockets (sockets s1 ++ [CONNECTING]) s1))
  | None =>
      let k := length (sockets s) in
      emit (ObsSocketCreated k) (set_ws (Some k) (set_sockets (sockets s ++ [CONNECTING]) s))
  end.

(** [subscribeToPreconfs(callback)] *)
Definition subscribeToPreconfs (c : nat) (s : State) : State :=
  let s1 := match wsState s with
            | Some CONNECTING | Some OPEN => s
            | _ => initializePreconfsConnection s
            end in
  set_issued (setAdd c (issued s1)) (set_callbacks (setAdd c (preconfsCallbacks s1)) s1).

(** The closure returned by [subscribeToPreconfs(callback)]. *)
Definition unsubscribe (c : nat) (s : State) : State :=
  let s1 := set_callbacks (setDelete c (preconfsCallbacks s)) s in
  match preconfsCallbacks s1, preconfsWebSocket s1 with
  | [], Some j => set_connected false (set_ws None (closeSocket j s1))
  | _, _ => s1
  end.

(** [onopen]: the handler reads the field, not the socket that opened. *)
Definition onopen (s : State) : State :=
  let s1 := set_connected true s in
  match preconfsWebSocket s1 with
  | Some j => if bool_decide (stateOf s1 j = Some OPEN) then emit (ObsSubscribeSent j) s1 else s1
  | None => s1
  end.

Definition onerror (s : State) : State := set_connected false s.

Definition onclose (s : State) : State := set_ws None (set_connected false s).

(** [onmessage]: every log entry goes to every listener; a listener that
    throws is caught and does not stop the others.  [None] stands for a
    frame that does not parse or carries no [params.result.logs]. *)
Definition onmessage (entries : option (list Json)) (s : State) : State :=
  match entries with
  | Some l =>
      foldl (fun acc entry =>
               foldl (fun acc' c => emit (ObsDelivered c entry) acc') acc (preconfsCallbacks s))
            s l
  | None => s
  end.

(** The preconfs part of [cleanup()]. *)
Definition cleanup (s : State) : State :=
  let s1 := match preconfsWebSocket s with
            | Some j => set_connected false (set_ws None (closeSocket j s))
            | None => s
            end in
  set_callbacks [] s1.

Inductive Event : Type :=
| Subscribe (c : nat)
| Unsubscribe (c : nat)
| Cleanup
| SockOpen (j : nat)
| SockClosing (j : nat)
| SockClose (j : nat) (failed : bool)
| SockMessage (j : nat) (entries : option (list Json)).

Definition step (s : State) (ev : Event) : option State :=
  match ev with
  | Subscribe c => Some (subscribeToPreconfs c s)
  | Unsubscribe c => if bool_decide (c ∈ issued s) then Some (unsubscribe c s) else None
  | Cleanup => Some (cleanup s)
  | SockOpen j =>
      match stateOf s j with
      | Some CONNECTING => Some (onopen (set_sockets (<[j := OPEN]> (sockets s)) s))
      | _ => None
      end
  | SockClosing j =>
      match stateOf s j with
      | Some OPEN => Some (set_sockets (<[j := CLOSING]> (sockets s)) s)
      | _ => None
      end
  | SockClose j failed =>
      match stateOf s j with
      | Some CLOSED | None => None
      | Some _ =>
          let s1 := set_sockets (<[j := CLOSED]> (sockets s)) s in
          Some (onclose (if failed then onerror s1 else s1))
      end
  | SockMessage j entries =>
      match stateOf s j with
      | Some OPEN => Some (onmessage entries s)
      | _ => None
      end
  end.

Fixpoint run (s : State) (tr : list Event) : option State :=
  match tr with
  | [] => Some s
  | ev :: tr' => match step s ev with
                 | Some s' => run s' tr'
                 | None => None
                 end
  end.

(** The sockets that are connecting or open. *)
Definition liveSockets (s : State) : list nat :=
  filter (fun j => stateOf s j = Some CONNECTING \/ stateOf s j = Some OPEN)
         (seq 0 (length (sockets s))).

(** The number of sockets made so far. *)
Definition opened (s : State) : nat := length (sockets s).

(** A listener subscribes, unsubscribes and another subscribes at once
    (a component that mounts, unmounts and mounts again); then the first
    socket reports its close and the second its open; finally the second
    listener unsubscribes. *)
Definition remountTrace : list Event :=
  [Subscribe 0; Unsubscribe 0; Subscribe 1; SockClose 0 true; SockOpen 1; Unsubscribe 1].

(** The state [remountTrace] leads to, and the state after one more
    listener is registered. *)
Definition afterRemount : State :=
  Eval vm_compute in default init (run init remountTrace).

Definition afterResubscribe : State :=
  Eval vm_compute in default init (step afterRemount (Subscribe 2)).

(** The calls [onmessage] makes for the log entries [entries] while the
    listeners [cbs] are registered: entry by entry, listener by listener. *)
Definition deliveries (cbs : list nat) (entries : list Json) : list Obs :=
  flat_map (fun entry => map (fun c => ObsDelivered c entry) cbs) entries.

(** The log entries handed to listener [c], in order. *)
Fixpoint deliveredTo (c : nat) (l : list Obs) : list Json :=
  match l with
  | [] => []
  | ObsDelivered c' entry :: l' =>
      if bool_decide (c' = c) then entry :: deliveredTo c l' else deliveredTo c l'
  | _ :: l' => deliveredTo c l'
  end.

(** [subscribeToPreconfs] keeps the socket the field refers to: the socket
    is connecting or open, or the connected flag is still set. *)
Definition keepsSocket (s : State) : bool :=
  match preconfsWebSocket s with
  | Some j => preconfsConnected s
              || bool_decide (stateOf s j = Some CONNECTING)
              || bool_decide (stateOf s j = Some OPEN)
  | None => false
  end.

Definition is_subscribe (ev : Event) : bool :=
  match ev with Subscribe _ => true | _ => false end.

Definition subscribes (c : nat) (ev : Event) : bool :=
  match ev with Subscribe c' => bool_decide (c' = c) | _ => false end.

(** The events the browser delivers, as opposed to calls of the service. *)
Definition fromSocket (ev : Event) : bool :=
  match ev with
  | SockOpen _ | SockClosing _ | SockClose _ _ | SockMessage _ _ => true
  | _ => false
  end.

(** What holds of the fields in every reachable state. *)
Record Tidy (s : State) : Prop := mkTidy {
  tidy_nodup : NoDup (preconfsCallbacks s);
  tidy_issued : forall c, c ∈ preconfsCallbacks s -> c ∈ issued s;
  tidy_idle : preconfsCallbacks s = [] -> preconfsWebSocket s = None;
  tidy_field : forall j, preconfsWebSocket s = Some j -> (j < length (sockets s))%nat
}.

(** Two listeners on an open feed. *)
Definition feedTrace : list Event := [Subscribe 0; SockOpen 0; Subscribe 1].

Definition withFeed : State := Eval vm_compute in default init (run init feedTrace).

(** The peer has started to close the feed; the close event has not come. *)
Definition withClosingFeed : State :=
  Eval vm_compute in default init (run init [Subscribe 0; SockOpen 0; SockClosing 0]).

(** Socket 1 is open and subscribed but the stale close of socket 0 has
    cleared the field; a new listener has made socket 2, also open and
    subscribed. *)
Definition twoFeedsTrace : list Event :=
  [Subscribe 0; Unsubscribe 0; Subscribe 1; SockOpen 1; SockClose 0 true;
   Subscribe 2; SockOpen 2].

Definition withTwoFeeds : State := Eval vm_compute in default init (run init twoFeedsTrace).

(** Socket 2 is open and subscribed and the field refers to it; socket 1,
    made before it, is still connecting. *)
Definition lateOpenTrace : list Event :=
  [Subscribe 0; Unsubscribe 0; Subscribe 1; SockClose 0 true; Subscribe 2; SockOpen 2].

Definition withLateSocket : State := Eval vm_compute in default init (run init lateOpenTrace).

End Preconfs.

(** ** The HTTP transport ([createFiberTransport]) *)
Module HttpTransport.

(** [data.error] as the code reads it. *)
Inductive ErrorField : Type :=
| NoError                                (* absent, or a falsy value *)
| ErrorObject (message : option string). (* truthy; [None] when it has no [message] *)

(** What [await response.json()] gives.  Of the parsed body the code reads
    [data.error], [data.error.message] and [data.result] ([None] when the
    body has no [result]). *)
Inductive Body : Type :=
| NotJson (e : Error)                    (* [response.json()] rejects *)
| NullBody                               (* the body is the JSON [null] *)
| Data (error : ErrorField) (result : option Json).

(** What [await fetch(url, ...)] gives. *)
Inductive FetchResult : Type :=
| NetworkError (e : Error)               (* [fetch] rejects *)
| Response (ok : bool) (status : Z) (body : Body).

Inductive Outcome : Type :=
| Returned (result : option Json)
| Thrown (e : Error).

(** [`${response.status}`]: the status is an integer. *)
Definition statusToString (status : Z) : string := NilZero.string_of_int (Z.to_int status).

(** [data.error.message || "RPC error"] *)
Definition errorMessage (message : option string) : string :=
  match message with
  | Some m => if bool_decide (m = EmptyString) then "RPC error" else m
  | None => "RPC error"
  end.

(** [request({method, params})]; [fetch] answers the posted body. *)
Definition request (fetch : Mapper.Envelope Json -> FetchResult)
           (method : string) (params : Json) : Outcome :=
  match fetch (Mapper.httpRequestBody method params) with
  | NetworkError e => Thrown e
  | Response ok status body =>
      if negb ok
      then Thrown ("HTTP error! status: " +:+ statusToString status)
      else
        match body with
        | NotJson e => Thrown e
        | NullBody => Thrown "Cannot read properties of null (reading 'error')"
        | Data (ErrorObject message) _ => Thrown (errorMessage message)
        | Data NoError result => Returned result
        end
  end.

(** The [error] of the same reply as the WebSocket transport's [onmessage]
    reads it (see [Transport.Incoming]). *)
Definition wsError (error : ErrorField) : option string :=
  match error with
  | NoError => None
  | ErrorObject message => Some (default EmptyString message)
  end.

(** A server that answers every call with the same reply. *)
Definition always (r : FetchResult) : Mapper.Envelope Json -> FetchResult := fun _ => r.

End HttpTransport.

(** ** [FiberUtils.sendFBR] *)
Module SendFBR.

(** The argument of [sendFBR]; the account is identified by its address. *)
Record Params : Type := mkParams {
  to : string;
  value : string;
  account : string;
  nonce : option Z;
  gasPrice : option Z
}.

(** The argument of [walletClient.sendTransaction]. *)
Record SendCall : Type := mkSendCall {
  sc_account : string;
  sc_to : string;
  sc_value : Z;
  sc_nonce : Z;
  sc_gasPrice : option Z
}.

Inductive Call : Type :=
| CallGetTransactionCount (address : string)
| CallSendTransaction (c : SendCall).

(** [!nonce] is false only for a number other than 0. *)
Definition suppliedNonce (n : option Z) : option Z :=
  match n with
  | Some z => if z =? 0 then None else Some z
  | None => None
  end.

Section Clients.
(** [parseEther] of viem and the two client calls; [inl] is a throw or a
    rejection. *)
Variable parseEther : string -> Error + Z.
Variable getTransactionCount : string -> Error + Z.
Variable sendTransaction : SendCall -> Error + string.

(** The rest of [sendFBR] once the nonce is known: the argument object is
    built, which evaluates [parseEther(value)], and the wallet is called. *)
Definition sendWith (p : Params) (n : Z) : list Call * (Error + string) :=
  match parseEther (value p) with
  | inl e => ([], inl e)
  | inr v =>
      let c := mkSendCall (account p) (to p) v n (gasPrice p) in
      ([CallSendTransaction c], sendTransaction c)
  end.

(** [sendFBR]: the calls made, in order, and the outcome; the [catch]
    logs and rethrows. *)
Definition sendFBR (p : Params) : list Call * (Error + string) :=
  match suppliedNonce (nonce p) with
  | Some n => sendWith p n
  | None =>
      match getTransactionCount (account p) with
      | inl e => ([CallGetTransactionCount (account p)], inl e)
      | inr n =>
          let '(calls, out) := sendWith p n in
          (CallGetTransactionCount (account p) :: calls, out)
      end
  end.

End Clients.

Definition withNonce (n : option Z) (p : Params) : Params :=
  mkParams (to p) (value p) (account p) n (gasPrice p).

Definition sampleTransfer : Params := mkParams "0xb0" "1.5" "0xa1" (Some 0) None.

End SendFBR.

(** ** The transports of the [FiberUtils] singleton *)
Module Service.

(** The transport a client was made with: a WebSocket transport, numbered
    in the order [createFiberWebSocketTransport] made them, or an HTTP
    transport, numbered likewise. *)
Inductive TransportRef : Type :=
| WebSocketTransport (n : nat)
| HttpTransport (n : nat).

(** The fields [webSocketTransport], [publicClient] and [walletClient],
    the state of every WebSocket transport made, and the number of HTTP
    transports made. *)
Record State : Type := mkState {
  webSocketTransport : option nat;
  publicClient : TransportRef;
  walletClient : TransportRef;
  wsTransports : list Transport.State;
  httpTransports : nat
}.

(** The constructor. *)
Definition init : State :=
  mkState (Some 0%nat) (WebSocketTransport 0) (WebSocketTransport 0) [Transport.init] 0.

(** [if (this.webSocketTransport && typeof this.webSocketTransport.close
    === "function") this.webSocketTransport.close()]; every transport made
    by [createFiberWebSocketTransport] has the [close] method. *)
Definition closeCurrent (s : State) : State :=
  match webSocketTransport s with
  | Some n => mkState (webSocketTransport s) (publicClient s) (walletClient s)
                      (alter Transport.close n (wsTransports s)) (httpTransports s)
  | None => s
  end.

(** [switchToHttpTransport()] *)
Definition switchToHttpTransport (s : State) : State :=
  let k := httpTransports s in
  let s1 := closeCurrent s in
  mkState (webSocketTransport s1) (publicClient s1) (HttpTransport k)
          (wsTransports s1) (S k).

(** [switchToWebSocketTransport()] *)
Definition switchToWebSocketTransport (s : State) : State :=
  let s1 := closeCurrent s in
  let n := length (wsTransports s1) in
  mkState (Some n) (publicClient s1) (WebSocketTransport n)
          (wsTransports s1 ++ [Transport.init]) (httpTransports s1).

(** The transport part of [cleanup()]. *)
Definition cleanup (s : State) : State := closeCurrent s.

(** [isWebSocketConnected()] *)
Definition isWebSocketConnected (s : State) : bool :=
  match webSocketTransport s with Some _ => true | None => false end.

(** [getCurrentTransportType()] *)
Definition getCurrentTransportType (s : State) : string :=
  match webSocketTransport s with Some _ => "websocket" | None => "http" end.

Inductive Event : Type :=
| SwitchToHttp
| SwitchToWebSocket
| Cleanup
| OnTransport (n : nat) (ev : Transport.Event).  (* a step of WebSocket transport [n] *)

Definition step (s : State) (ev : Event) : option State :=
  match ev with
  | SwitchToHttp => Some (switchToHttpTransport s)
  | SwitchToWebSocket => Some (switchToWebSocketTransport s)
  | Cleanup => Some (cleanup s)
  | OnTransport n tev =>
      match wsTransports s !! n with
      | Some t =>
          match Transport.step t tev with
          | Some t' => Some (mkState (webSocketTransport s) (publicClient s) (walletClient s)
                                     (<[n := t']> (wsTransports s)) (httpTransports s))
          | None => None
          end
      | None => None
      end
  end.

Fixpoint run (s : State) (tr : list Event) : option State :=
  match tr with
  | [] => Some s
  | ev :: tr' => match step s ev with
                 | Some s' => run s' tr'
                 | None => None
                 end
  end.

End Service.

(** ** The address scraper ([extract-addresses.js]) *)
Module ExtractAddresses.

(** [\w] *)
Definition isWord (c : ascii) : bool :=
  let n := N_of_ascii c in
  (((48 <=? n) && (n <=? 57)) || ((65 <=? n) && (n <=? 90)) ||
   ((97 <=? n) && (n <=? 122)) || (n =? 95))%N.

(** [[a-fA-F0-9]] *)
Definition isHex (c : ascii) : bool :=
  let n := N_of_ascii c in
  (((48 <=? n) && (n <=? 57)) || ((65 <=? n) && (n <=? 70)) ||
   ((97 <=? n) && (n <=? 102)))%N.

Definition isUpper (c : ascii) : bool :=
  let n := N_of_ascii c in ((65 <=? n) && (n <=? 90))%N.

(** [toLowerCase] on the characters a contract name is made of. *)
Definition lowerChar (c : ascii) : ascii :=
  if isUpper c then ascii_of_N (N_of_ascii c + 32) else c.

Fixpoint toLowerCase (s : string) : string :=
  match s with
  | EmptyString => EmptyString
  | String c s' => String (lowerChar c) (toLowerCase s')
  end.

Fixpoint allChars (P : ascii -> bool) (s : string) : bool :=
  match s with
  | EmptyString => true
  | String c s' => P c && allChars P s'
  end.

(** [s] without its first [n] characters. *)
Fixpoint dropChars (n : nat) (s : string) : string :=
  match n, s with
  | O, _ => s
  | S n', String _ s' => dropChars n' s'
  | S _, EmptyString => EmptyString
  end.

(** The text after the first occurrence of [pat] in [s]. *)
Fixpoint after (pat s : string) : option string :=
  if String.prefix pat s then Some (dropChars (String.length pat) s)
  else match s with
       | EmptyString => None
       | String _ s' => after pat s'
       end.

(** The text before the first occurrence of [pat] in [s]. *)
Fixpoint before (pat s : string) : option string :=
  if String.prefix pat s then Some EmptyString
  else match s with
       | EmptyString => None
       | String c s' => String c <$> before pat s'
       end.

(** [logContent.match(/== Logs ==([\s\S]*?)## Setting up/)]: the capture is
    the text between the first ["== Logs =="] and the first
    ["## Setting up"] after it. *)
Definition logsSection (logContent : string) : option string :=
  after "== Logs ==" logContent ≫= before "## Setting up".

(** The longest run of word characters at the start of [s], and the rest. *)
Fixpoint spanWord (s : string) : string * string :=
  match s with
  | String c s' =>
      if isWord c then let '(w, r) := spanWord s' in (String c w, r)
      else (EmptyString, s)
  | EmptyString => (EmptyString, EmptyString)
  end.

(** Exactly [n] hex digits at the start of [s], and the rest. *)
Fixpoint takeHex (n : nat) (s : string) : option (string * string) :=
  match n with
  | O => Some (EmptyString, s)
  | S n' =>
      match s with
      | String c s' =>
          if isHex c then (fun hr => (String c hr.1, hr.2)) <$> takeHex n' s' else None
      | EmptyString => None
      end
  end.

Definition stripPrefix (p s : string) : option string :=
  if String.prefix p s then Some (dropChars (String.length p) s) else None.

(** A match of [/(\w+) deployed at: (0x[a-fA-F0-9]{40})/] that starts at the
    first character of [s]: the two captures and the text after the match.
    The greedy [\w+] takes the whole run of word characters; a shorter one
    cannot be followed by the space of the literal. *)
Definition matchAt (s : string) : option (string * string * string) :=
  let '(name, r1) := spanWord s in
  if bool_decide (name = EmptyString) then None
  else
    r2 ← stripPrefix " deployed at: 0x" r1;
    hr ← takeHex 40 r2;
    Some (name, "0x" +:+ hr.1, hr.2).

(** The loop [while ((match = addressRegex.exec(logs)) !== null)] with the
    [g] flag: the leftmost match at or after [lastIndex], then on from the
    end of that match.  [fuel] bounds the characters visited. *)
Fixpoint matchesFrom (fuel : nat) (s : string) : list (string * string) :=
  match fuel with
  | O => []
  | S fuel' =>
      match matchAt s with
      | Some (name, address, rest) => (name, address) :: matchesFrom fuel' rest
      | None =>
          match s with
          | String _ s' => matchesFrom fuel' s'
          | EmptyString => []
          end
      end
  end.

Definition allMatches (logs : string) : list (string * string) :=
  matchesFrom (S (String.length logs)) logs.

(** [addresses[contractName.toLowerCase()] = address] on a plain object:
    the key ["__proto__"] reaches the setter of [Object.prototype], which
    ignores a string. *)
Definition assign (addresses : gmap string string) (m : string * string) : gmap string string :=
  if bool_decide (toLowerCase m.1 = "__proto__") then addresses
  else <[toLowerCase m.1 := m.2]> addresses.

(** [extractAddressesFromLog], on the content of the log file. *)
Definition extractAddressesFromLog (logContent : string) : gmap string string :=
  match logsSection logContent with
  | None => ∅
  | Some logs => foldl assign ∅ (allMatches logs)
  end.

(** An address as the pattern captures it. *)
Definition isAddress (v : string) : Prop :=
  exists h, v = "0x" +:+ h /\ String.length h = 40%nat /\ allChars isHex h = true.

(** A key of the result. *)
Definition isKey (k : string) : Prop :=
  k <> EmptyString /\ allChars isWord k = true /\ allChars (fun c => negb (isUpper c)) k = true.

Definition newline : string := String (ascii_of_N 10) EmptyString.

(** A deployment log as the build prints it. *)
Definition sampleLog : string :=
  "Compiling..." +:+ newline +:+
  "== Logs ==" +:+ newline +:+
  "  Counter deployed at: 0x5FbDB2315678afecb367f032d93F642f64180aa3" +:+ newline +:+
  "  counter deployed at: 0xe7f1725E7734CE288F8367e1Bb143E90bb3F0512" +:+ newline +:+
  "  Token2 deployed at: 0x9fE46736679d2D9a65F0992F2272dE9f3c7fa6e" +:+ newline +:+
  newline +:+
  "## Setting up 1 EVM." +:+ newline.

End ExtractAddresses.

(** * Properties of the transaction queue *)
Section TxQueueFacts.
Import TxQueue.

Lemma submitted_app (l1 l2 : list Obs) :
  submitted (l1 ++ l2) = submitted l1 ++ submitted l2.
Proof.
  induction l1 as [|o l1 IH]; [done|].
  destruct o; simpl; by rewrite IH.
Qed.

Lemma executed_app (l1 l2 : list Obs) :
  executed (l1 ++ l2) = executed l1 ++ executed l2.
Proof.
  induction l1 as [|o l1 IH]; [done|].
  destruct o; simpl; by rewrite IH.
Qed.

Lemma sequential_app (l1 l2 : list Obs) (cur : option nat) :
  sequential cur (l1 ++ l2) = sequential cur l1 ≫= (fun c => sequential c l2).
Proof.
  revert cur. induction l1 as [|o l1 IH]; intros cur; [done|].
  destruct o; simpl; try apply IH.
  - destruct cur; [done|apply IH].
  - case_bool_decide; [apply IH|done].
  - case_bool_decide; [apply IH|done].
  - case_bool_decide; [apply IH|done].
  - case_bool_decide; [apply IH|done].
Qed.

Lemma sequential_snoc (l : list Obs) (o : Obs) (cur c : option nat) :
  sequential cur l = Some c -> sequential cur (l ++ [o]) = sequential c [o].
Proof. intros H. by rewrite sequential_app, H. Qed.

Local Ltac log_step :=
  repeat (rewrite ?submitted_app, ?executed_app; simpl);
  rewrite ?app_nil_r.

(** The loop, entered by the only worker with nothing in execution,
    re-establishes the invariant. *)
Lemma drain_serial (q : list QueueItem) (s : State) :
  workers s = [] ->
  isProcessingQueue s = true ->
  submitted (log s) = seq 0 (nextPromise s) ->
  submitted (log s) = executed (log s) ++ map promise q ->
  sequential None (log s) = Some None ->
  Serial (drain 0 q s).
Proof.
  revert s. induction q as [|it rest IH]; intros s Hw Hproc Hids Hfifo Hseq.
  - simpl in *. rewrite app_nil_r in Hfifo.
    split; unfold running; simpl; rewrite ?Hw, ?app_nil_r; auto.
  - simpl.
    assert (Hexec : sequential None (log s ++ [ObsExecute (promise it)]) = Some (Some (promise it))).
    { by rewrite (sequential_snoc _ _ _ _ Hseq). }
    assert (Hfifo' : submitted (log s) = (executed (log s) ++ [promise it]) ++ map promise rest).
    { by rewrite <- app_assoc. }
    destruct (executeTransaction (params it)) as [r|e|k|c k] eqn:Hexe.
    + apply IH; simpl; auto; log_step; auto.
      rewrite (sequential_snoc _ _ _ _ Hexec). simpl. by rewrite bool_decide_true.
    + apply IH; simpl; auto; log_step; auto.
      rewrite (sequential_snoc _ _ _ _ Hexec). simpl. by rewrite bool_decide_true.
    + split; unfold running; simpl; rewrite ?Hw; simpl; log_step; auto.
      * constructor; [by left|constructor].
      * done.
      * rewrite (sequential_snoc _ _ _ _ Hexec). simpl. by rewrite bool_decide_true.
    + split; unfold running; simpl; rewrite ?Hw; simpl; log_step; auto.
      * constructor; [by left|constructor].
      * done.
      * rewrite (sequential_snoc _ _ _ _ Hexec). simpl. by rewrite bool_decide_true.
Qed.

Local Arguments drain : simpl never.
Local Arguments seq : simpl never.

Lemma init_serial : Serial init.
Proof. split; try done. simpl. lia. Qed.

Lemma writeContract_serial (a : TxParams) (s : State) :
  Serial s -> Serial (writeContract a s).
Proof.
  intros [Hcont Hlen Hflag Hidle Hids Hfifo Hlog].
  unfold writeContract, processTransactionQueue. simpl.
  destruct (workers s) as [|w ws] eqn:Hw.
  - rewrite Hflag. simpl.
    rewrite bool_decide_false by (by destruct (transactionQueue s)).
    rewrite (Hidle eq_refl) in *. simpl in *. rewrite app_nil_r in Hfifo.
    apply drain_serial; simpl; auto; log_step.
    + by rewrite Hids, seq_S.
    + by rewrite Hfifo.
    + rewrite (sequential_snoc _ _ _ _ Hlog). unfold running. by rewrite Hw.
  - rewrite Hflag. simpl.
    unfold running in Hlog. rewrite Hw in Hlog.
    split; unfold running; simpl; rewrite ?Hw; log_step; auto.
    + done.
    + by rewrite Hids, seq_S.
    + by rewrite Hfifo, map_app, app_assoc.
    + by rewrite (sequential_snoc _ _ _ _ Hlog).
Qed.

Lemma resume_serial (it : QueueItem) (t0 t : Async WriteContractResult) (s : State) :
  Serial s -> workers s = [mkWorker it t0] -> resumable it t -> Serial (resume 0 it t s).
Proof.
  intros [Hcont Hlen Hflag Hidle Hids Hfifo Hlog] Hw Ht.
  unfold running in Hlog. rewrite Hw in *. simpl in *.
  unfold resume. rewrite Hw. simpl.
  destruct t as [r|e|k|c k].
  - apply drain_serial; simpl; auto; log_step; auto.
    rewrite (sequential_snoc _ _ _ _ Hlog). simpl. by rewrite bool_decide_true.
  - apply drain_serial; simpl; auto; log_step; auto.
    rewrite (sequential_snoc _ _ _ _ Hlog). simpl. by rewrite bool_decide_true.
  - split; unfold running; simpl; auto; log_step; auto; [done|].
    rewrite (sequential_snoc _ _ _ _ Hlog). simpl. by rewrite bool_decide_true.
  - split; unfold running; simpl; auto; log_step; auto; [done|].
    rewrite (sequential_snoc _ _ _ _ Hlog). simpl. by rewrite bool_decide_true.
Qed.

Lemma executing_gas (it : QueueItem) (k : Error + Z -> Async WriteContractResult) (r : Error + Z) :
  executing (mkWorker it (AwaitGetGasPrice k)) -> resumable it (k r).
Proof.
  unfold executing, executeTransaction. simpl. intros [H|[g H]]; [|done].
  destruct (truthy (gasPrice (params it))); [done|].
  injection H as ->. destruct r as [e|g]; simpl; [done|]. right. by exists g.
Qed.

Lemma executing_write (it : QueueItem) (c : WalletCall)
      (k : Error + WriteContractResult -> Async WriteContractResult)
      (r : Error + WriteContractResult) :
  executing (mkWorker it (AwaitWriteContract c k)) ->
  match k r with Return _ | Throw _ => True | _ => False end.
Proof.
  unfold executing, executeTransaction. simpl. intros [H|[g H]].
  - destruct (truthy (gasPrice (params it))); [|done].
    injection H as _ ->. by destruct r.
  - injection H as _ ->. by destruct r.
Qed.

Lemma step_serial (s s' : State) (ev : Event) :
  is_cleanup ev = false -> step s ev = Some s' -> Serial s -> Serial s'.
Proof.
  intros Hev Hstep Hs. destruct ev as [a|slot r|slot r|]; simpl in *; try done.
  - injection Hstep as <-. by apply writeContract_serial.
  - destruct (workers s !! slot) as [[it t0]|] eqn:Hslot; [|done].
    destruct t0 as [| |k|]; try done. injection Hstep as <-.
    pose proof (serial_workers _ Hs) as Hlen.
    pose proof (serial_cont _ Hs) as Hcont.
    destruct (workers s) as [|w [|w' ws]] eqn:Hw; simpl in *; try done; try lia.
    destruct slot; simpl in *; [|done]. injection Hslot as ->.
    eapply resume_serial; eauto. apply executing_gas. by inversion Hcont.
  - destruct (workers s !! slot) as [[it t0]|] eqn:Hslot; [|done].
    destruct t0 as [| | |c k]; try done. injection Hstep as <-.
    pose proof (serial_workers _ Hs) as Hlen.
    pose proof (serial_cont _ Hs) as Hcont.
    destruct (workers s) as [|w [|w' ws]] eqn:Hw; simpl in *; try done; try lia.
    destruct slot; simpl in *; [|done]. injection Hslot as ->.
    eapply resume_serial; eauto.
    assert (He : executing (mkWorker it (AwaitWriteContract c k))) by (by inversion Hcont).
    apply (executing_write _ _ _ r) in He. unfold resumable. by destruct (k r).
Qed.

Lemma run_serial (tr : list Event) (s s' : State) :
  forallb (fun ev => negb (is_cleanup ev)) tr = true ->
  run s tr = Some s' -> Serial s -> Serial s'.
Proof.
  revert s. induction tr as [|ev tr IH]; intros s Hnc Hrun Hs; simpl in *.
  - by injection Hrun as <-.
  - apply andb_prop in Hnc as [Hev Hnc].
    destruct (step s ev) as [s1|] eqn:Hstep; [|done].
    apply (IH s1); auto. eapply step_serial; eauto.
    by destruct (is_cleanup ev).
Qed.

Lemma drain_nextPromise (slot : nat) (q : list QueueItem) (s : State) :
  nextPromise (drain slot q s) = nextPromise s.
Proof.
  revert s. induction q as [|it rest IH]; intros s; [done|].
  unfold drain; fold drain.
  destruct (executeTransaction (params it)); rewrite ?IH; done.
Qed.

Lemma drain_pendingAwaits (q : list QueueItem) (s : State) :
  workers s = [] -> (pendingAwaits (drain 0 q s) <= 2 * length q)%nat.
Proof.
  revert s. induction q as [|it rest IH]; intros s Hw.
  - unfold drain, pendingAwaits. simpl. by rewrite Hw.
  - unfold drain; fold drain.
    destruct (executeTransaction (params it)).
    + etrans; [apply IH; by simpl|]. simpl. lia.
    + etrans; [apply IH; by simpl|]. simpl. lia.
    + unfold pendingAwaits. simpl. lia.
    + unfold pendingAwaits. simpl. lia.
Qed.

Lemma resume_nextPromise (it : QueueItem) (t : Async WriteContractResult) (s : State) :
  nextPromise (resume 0 it t s) = nextPromise s.
Proof. unfold resume. destruct t; rewrite ?drain_nextPromise; done. Qed.

(** Once the client calls settle, with whatever outcome, the queue drains. *)
Lemma settle_drains (g : Error + Z) (w : Error + WriteContractResult) (n : nat) (s : State) :
  Serial s -> (pendingAwaits s <= n)%nat ->
  Serial (settle g w n s) /\ workers (settle g w n s) = [] /\
  nextPromise (settle g w n s) = nextPromise s.
Proof.
  revert s. induction n as [|n IH]; intros s Hs Hn.
  - simpl. split; [done|]. split; [|done].
    unfold pendingAwaits in Hn. destruct (workers s) as [|w0 ws]; [done|].
    destruct (cont w0); lia.
  - pose proof (serial_workers _ Hs) as Hlen.
    pose proof (serial_cont _ Hs) as Hcont.
    simpl. unfold answer.
    destruct (workers s) as [|[it t0] [|w' ws]] eqn:Hw; simpl in Hlen; try lia; [done|].
    assert (Hexe : executing (mkWorker it t0)) by (by inversion Hcont).
    unfold pendingAwaits in Hn. rewrite Hw in Hn. simpl in Hn.
    destruct t0 as [r|e|k|c k].
    + destruct Hexe as [H|[? H]]; simpl in H; [|done].
      unfold executeTransaction in H. by destruct (truthy _).
    + destruct Hexe as [H|[? H]]; simpl in H; [|done].
      unfold executeTransaction in H. by destruct (truthy _).
    + simpl. rewrite Hw. simpl.
      assert (Hs1 : Serial (resume 0 it (k g) s)).
      { eapply resume_serial; eauto. by apply executing_gas. }
      destruct (IH (resume 0 it (k g) s) Hs1) as (H1 & H2 & H3).
      * pose proof (executing_gas _ _ g Hexe) as Hres.
        unfold resume. rewrite Hw. simpl.
        destruct (k g) as [r|e|k'|c' k'] eqn:Hk.
        -- etrans; [apply drain_pendingAwaits; by simpl|]. lia.
        -- etrans; [apply drain_pendingAwaits; by simpl|]. lia.
        -- destruct Hexe as [H|[? H]]; [|done].
           unfold executeTransaction in H. simpl in H.
           destruct (truthy _); [done|]. injection H as ->.
           by destruct g.
        -- unfold pendingAwaits. simpl. lia.
      * by rewrite H3, resume_nextPromise.
    + simpl. rewrite Hw. simpl.
      pose proof (executing_write _ _ _ w Hexe) as Hres.
      assert (Hs1 : Serial (resume 0 it (k w) s)).
      { eapply resume_serial; eauto. unfold resumable. by destruct (k w). }
      destruct (IH (resume 0 it (k w) s) Hs1) as (H1 & H2 & H3).
      * unfold resume. rewrite Hw. simpl.
        destruct (k w) as [r|e|k'|c' k'] eqn:Hk; try done.
        -- etrans; [apply drain_pendingAwaits; by simpl|]. lia.
        -- etrans; [apply drain_pendingAwaits; by simpl|]. lia.
      * by rewrite H3, resume_nextPromise.
Qed.

(** C1. Write submissions through [writeContract], interleaved in any way
    with the settlements of the client calls (and without [cleanup]):
    at most one drain worker is suspended at any time; the entries for which
    [executeTransaction] was invoked, followed by the entries still queued,
    are the submitted entries in submission order; in the log every
    execution ends, settling its own promise, before the next one starts;
    and when the client calls settle (with any outcomes [g], [w]) within
    [pendingAwaits] resumptions the worker has stopped, the queue is empty
    and [executeTransaction] has been invoked for every submitted entry, in
    submission order. *)
Theorem writeContract_fifo_one_at_a_time (tr : list Event) (s : State) :
  forallb (fun ev => negb (is_cleanup ev)) tr = true ->
  run init tr = Some s ->
  (length (workers s) <= 1)%nat /\
  submitted (log s) = seq 0 (nextPromise s) /\
  submitted (log s) = executed (log s) ++ map promise (transactionQueue s) /\
  sequential None (log s) = Some (running s) /\
  (forall g w, let s' := settle g w (pendingAwaits s) s in
     workers s' = [] /\ transactionQueue s' = [] /\
     executed (log s') = submitted (log s) /\
     sequential None (log s') = Some None).
Proof.
  intros Hnc Hrun.
  assert (Hs : Serial s) by (eapply run_serial; eauto using init_serial).
  destruct Hs as [Hcont Hlen Hflag Hidle Hids Hfifo Hlog] eqn:E. clear E.
  repeat split; auto.
  all: destruct (settle_drains g w (pendingAwaits s) s) as (H1 & H2 & H3);
    [by split|lia| ].
  all: pose proof (serial_idle _ H1 H2) as Hq;
    pose proof (serial_fifo _ H1) as Hf;
    pose proof (serial_ids _ H1) as Hi;
    pose proof (serial_log _ H1) as Hl.
  - done.
  - done.
  - rewrite Hq, app_nil_r in Hf. by rewrite <- Hf, Hi, H3, Hids.
  - unfold running in Hl. by rewrite H2 in Hl.
Qed.

(** A trace of two submissions, the second made while the first executes. *)
Lemma writeContract_fifo_one_at_a_time_witness :
  exists s,
    run init [EvWriteContract sampleParams; EvWriteContract sampleParams;
              EvWalletWrite 0 (inr sampleResult)] = Some s /\
    executed (log s) = [0; 1]%nat /\ (length (workers s) <= 1)%nat.
Proof.
  eexists. split; [reflexivity|].
  split; [reflexivity|].
  exact (proj1 (writeContract_fifo_one_at_a_time
                  [EvWriteContract sampleParams; EvWriteContract sampleParams;
                   EvWalletWrite 0 (inr sampleResult)] _
                  eq_refl eq_refl)).
Defined.

(** [cleanup] clears the flag under a suspended worker: a later submission
    starts a second worker next to it, so the restriction to traces without
    [cleanup] is needed above. *)
Lemma cleanup_allows_second_worker :
  exists s, run init [EvWriteContract sampleParams; EvCleanup;
                      EvWriteContract sampleParams] = Some s /\
            length (workers s) = 2%nat.
Proof. eexists. split; reflexivity. Qed.

(** ** The execution step *)

(** C8, as amended.  For any chain and wallet behaviour: a supplied gas
    price other than zero is the effective one and no query is made; a
    missing or zero gas price makes [executeTransaction] query the chain
    first and the answer is the effective one.  The wallet is invoked with
    the effective gas price and a successful result carries
    [weiSpent = gas_used * effective]. *)
Theorem executeTransaction_effective_gas_price
        (p : TxParams) (chain : Error + Z)
        (wallet : WalletCall -> Error + WriteContractResult) :
  (forall g, gasPrice p = Some g -> g <> 0 ->
     exists c, (interp chain wallet (executeTransaction p)).1 = [CallWriteContract c] /\
               wc_gasPrice c = g /\
               forall res, wallet c = inr res ->
                 exists res', (interp chain wallet (executeTransaction p)).2 = inr res' /\
                              weiSpent res' = Some (gas_used res * g) /\
                              gas_used res' = gas_used res) /\
  (gasPrice p = None \/ gasPrice p = Some 0 ->
   forall q, chain = inr q ->
     exists c, (interp chain wallet (executeTransaction p)).1 = [CallGetGasPrice; CallWriteContract c] /\
               wc_gasPrice c = q /\
               forall res, wallet c = inr res ->
                 exists res', (interp chain wallet (executeTransaction p)).2 = inr res' /\
                              weiSpent res' = Some (gas_used res * q) /\
                              gas_used res' = gas_used res).
Proof.
  split.
  - intros g Hg Hnz. unfold executeTransaction, truthy. rewrite Hg.
    destruct (Z.eqb_spec g 0) as [->|_]; [done|].
    unfold executeWith. simpl.
    destruct (wallet _) as [e|res] eqn:Hw; simpl.
    + eexists. repeat split; try done. intros res. by rewrite Hw.
    + eexists. repeat split; try done. intros res0. rewrite Hw.
      intros [= <-]. by eexists.
  - intros Hg q ->.
    assert (Ht : truthy (gasPrice p) = None) by (by destruct Hg as [-> | ->]).
    unfold executeTransaction. rewrite Ht. unfold executeWith. simpl.
    destruct (wallet _) as [e|res] eqn:Hw; simpl.
    + eexists. repeat split; try done. intros res. by rewrite Hw.
    + eexists. repeat split; try done. intros res0. rewrite Hw.
      intros [= <-]. by eexists.
Qed.

Lemma executeTransaction_effective_gas_price_witness :
  exists c, (interp (inr 7) (fun _ => inr sampleResult)
                    (executeTransaction (withGasPrice 3))).1 = [CallWriteContract c] /\
            wc_gasPrice c = 3.
Proof.
  destruct (proj1 (executeTransaction_effective_gas_price
                     (withGasPrice 3) (inr 7) (fun _ => inr sampleResult))
                  3 eq_refl ltac:(lia)) as (c & Hc & Hg & _).
  by exists c.
Defined.

(** C8 as stated fails when the caller supplies the gas price [0n]: the
    supplied price is not used, the chain is queried and the wallet is
    invoked with the chain's answer (here 7). *)
Lemma executeTransaction_supplied_zero_is_replaced :
  gasPrice (withGasPrice 0) = Some 0 /\
  exists c, (interp (inr 7) (fun _ => inr sampleResult)
                    (executeTransaction (withGasPrice 0))).1
            = [CallGetGasPrice; CallWriteContract c] /\
            wc_gasPrice c = 7 /\ wc_gasPrice c <> 0.
Proof. split; [done|]. eexists. by repeat split. Qed.

(** ** Defaults of [writeContract] *)

Lemma stems_mono (subs : list TxParams) (a : TxParams) (it : QueueItem) :
  stems subs it -> stems (subs ++ [a]) it.
Proof. intros (a0 & H1 & H2). exists a0. split; [|done]. by apply lookup_app_l_Some. Qed.

Lemma justified_mono (subs : list TxParams) (a : TxParams) (o : Obs) :
  justified subs o -> justified (subs ++ [a]) o.
Proof.
  destruct o; simpl; try done.
  - intros (a0 & H1 & H2). exists a0. split; [|done]. by apply lookup_app_l_Some.
  - intros (a0 & H1 & H2). exists a0. split; [|done]. by apply lookup_app_l_Some.
Qed.

Lemma stems_gas_query (subs : list TxParams) (it : QueueItem)
      (k : Error + Z -> Async WriteContractResult) :
  stems subs it -> executeTransaction (params it) = AwaitGetGasPrice k ->
  justified subs (ObsGetGasPrice (promise it)) /\
  forall r, match k r with
            | Return _ | AwaitGetGasPrice _ => False
            | Throw _ => True
            | AwaitWriteContract c k' =>
                justified subs (ObsWalletWrite (promise it) c) /\
                executing (mkWorker it (AwaitWriteContract c k'))
            end.
Proof.
  intros (a & Ha & Hp) He. unfold executeTransaction in He.
  destruct (truthy (gasPrice (params it))) eqn:Ht; [done|].
  injection He as <-.
  assert (Hz : gasPrice a = Some 0).
  { rewrite Hp in Ht. simpl in Ht. destruct (gasPrice a) as [g|]; simpl in Ht; [|done].
    destruct (Z.eqb_spec g 0) as [Hg|Hg]; [by rewrite Hg|done]. }
  split; [by exists a|].
  intros [e|g]; [done|]. simpl. split.
  - exists a. rewrite Hp. simpl. repeat split; try done.
  - right. by exists g.
Qed.

Lemma stems_wallet_write (subs : list TxParams) (it : QueueItem) (c : WalletCall)
      (k : Error + WriteContractResult -> Async WriteContractResult) :
  stems subs it -> executeTransaction (params it) = AwaitWriteContract c k ->
  justified subs (ObsWalletWrite (promise it) c).
Proof.
  intros (a & Ha & Hp) He. unfold executeTransaction in He.
  destruct (truthy (gasPrice (params it))) as [g|] eqn:Ht; [|done].
  injection He as <- <-. exists a. rewrite Hp in *. simpl in *.
  repeat split; try done. intros _.
  destruct (Z.eqb_spec (default 1 (gasPrice a)) 0); by simplify_eq.
Qed.

Lemma Forall_insert_at {A : Type} (P : A -> Prop) (l : list A) (n : nat) (x : A) :
  Forall P l -> P x -> Forall P (take n l ++ x :: drop n l).
Proof.
  intros Hl Hx. apply Forall_app. split; [by apply Forall_take|].
  constructor; [done|by apply Forall_drop].
Qed.

Lemma drain_provenance (subs : list TxParams) (slot : nat) (q : list QueueItem) (s : State) :
  Forall (stems subs) q ->
  nextPromise s = length subs ->
  Forall (fun w => stems subs (item w) /\ executing w) (workers s) ->
  Forall (justified subs) (log s) ->
  Provenance subs (drain slot q s).
Proof.
  revert s. induction q as [|it rest IH]; intros s Hq Hn Hw Hl.
  - by split.
  - inversion Hq as [|? ? Hit Hrest]; subst.
    unfold drain; fold drain.
    destruct (executeTransaction (params it)) as [r|e|k|c k] eqn:He.
    + apply IH; simpl; auto. rewrite !Forall_app. repeat split; auto; by repeat constructor.
    + apply IH; simpl; auto. rewrite !Forall_app. repeat split; auto; by repeat constructor.
    + destruct (stems_gas_query _ _ _ Hit He) as [Hj _].
      split; simpl; auto.
      * apply Forall_insert_at; [done|]. split; [done|by left].
      * rewrite !Forall_app. repeat split; auto; by repeat constructor.
    + pose proof (stems_wallet_write _ _ _ _ Hit He) as Hj.
      split; simpl; auto.
      * apply Forall_insert_at; [done|]. split; [done|by left].
      * rewrite !Forall_app. repeat split; auto; by repeat constructor.
Qed.

Lemma cleanup_log (q : list QueueItem) (s : State) :
  let s' := foldl (fun acc it => emit (ObsReject (promise it) "Service cleanup: Transaction cancelled") acc) s q in
  workers s' = workers s /\ nextPromise s' = nextPromise s /\
  exists l, log s' = log s ++ l /\ Forall (fun o => forall subs, justified subs o) l.
Proof.
  revert s. induction q as [|it rest IH]; intros s; simpl.
  - repeat split; auto. exists []. by rewrite app_nil_r.
  - destruct (IH (emit (ObsReject (promise it) "Service cleanup: Transaction cancelled") s))
      as (H1 & H2 & l & H3 & H4). simpl in *.
    repeat split; auto. eexists. rewrite H3, <- app_assoc. split; [done|].
    by constructor.
Qed.

Lemma step_provenance (subs : list TxParams) (s s' : State) (ev : Event) :
  step s ev = Some s' -> Provenance subs s ->
  Provenance (subs ++ submissions [ev]) s'.
Proof.
  intros Hstep [Hn Hq Hw Hl].
  destruct ev as [a|slot r|slot r|]; simpl in *; rewrite ?app_nil_r.
  - injection Hstep as <-.
    assert (Hit : stems (subs ++ [a]) (mkItem (withDefaults a) (nextPromise s))).
    { exists a. split; [|done]. simpl. rewrite Hn. by apply list_lookup_middle. }
    assert (Hq' : Forall (stems (subs ++ [a])) (transactionQueue s ++ [mkItem (withDefaults a) (nextPromise s)])).
    { apply Forall_app. split; [|by constructor].
      eapply Forall_impl; [done|]. intros. by apply stems_mono. }
    assert (Hw' : Forall (fun w => stems (subs ++ [a]) (item w) /\ executing w) (workers s)).
    { eapply Forall_impl; [done|]. intros w0 [? ?]. split; [by apply stems_mono|done]. }
    assert (Hl' : Forall (justified (subs ++ [a])) (log s ++ [ObsEnqueue (nextPromise s)])).
    { apply Forall_app. split; [|by repeat constructor].
      eapply Forall_impl; [done|]. intros. by apply justified_mono. }
    unfold writeContract, processTransactionQueue, enqueue. simpl.
    destruct (isProcessingQueue s || _).
    + split; simpl; auto. rewrite length_app. simpl. lia.
    + apply drain_provenance; simpl; auto. rewrite length_app. simpl. lia.
  - destruct (workers s !! slot) as [[it t0]|] eqn:Hslot; [|done].
    destruct t0 as [| |k|]; try done. injection Hstep as <-.
    destruct (Forall_lookup_1 _ _ _ _ Hw Hslot) as [Hit Hexe]. simpl in *.
    assert (He : executeTransaction (params it) = AwaitGetGasPrice k).
    { destruct Hexe as [H|[g H]]; [done|]. simpl in H. done. }
    destruct (stems_gas_query _ _ _ Hit He) as [_ Hk]. specialize (Hk r).
    unfold resume. destruct (k r) as [r'|e|k'|c k']; try done.
    + apply drain_provenance; simpl; auto.
      * by apply Forall_delete.
      * apply Forall_app. split; [done|by repeat constructor].
    + destruct Hk as [Hj Hexe']. split; simpl; auto.
      * by apply Forall_insert.
      * apply Forall_app. split; [done|by repeat constructor].
  - destruct (workers s !! slot) as [[it t0]|] eqn:Hslot; [|done].
    destruct t0 as [| | |c k]; try done. injection Hstep as <-.
    destruct (Forall_lookup_1 _ _ _ _ Hw Hslot) as [Hit Hexe]. simpl in *.
    pose proof (executing_write _ _ _ r Hexe) as Hk.
    unfold resume. destruct (k r) as [r'|e|k'|c' k']; try done.
    + apply drain_provenance; simpl; auto.
      * by apply Forall_delete.
      * apply Forall_app. split; [done|by repeat constructor].
    + apply drain_provenance; simpl; auto.
      * by apply Forall_delete.
      * apply Forall_app. split; [done|by repeat constructor].
  - injection Hstep as <-. unfold cleanup.
    destruct (cleanup_log (transactionQueue s) s) as (H1 & H2 & l & H3 & H4).
    split; simpl; auto.
    + by rewrite H2.
    + by rewrite H1.
    + rewrite H3. apply Forall_app. split; [done|].
      eapply Forall_impl; [done|]. simpl. auto.
Qed.

Lemma submissions_cons (ev : Event) (tr : list Event) :
  submissions (ev :: tr) = submissions [ev] ++ submissions tr.
Proof. by destruct ev. Qed.

Lemma run_provenance (tr : list Event) (subs : list TxParams) (s s' : State) :
  run s tr = Some s' -> Provenance subs s -> Provenance (subs ++ submissions tr) s'.
Proof.
  revert subs s. induction tr as [|ev tr IH]; intros subs s Hrun Hs.
  - simpl in *. rewrite app_nil_r. by injection Hrun as <-.
  - simpl in Hrun. destruct (step s ev) as [s1|] eqn:Hstep; [|done].
    rewrite submissions_cons, app_assoc. eapply IH; [done|].
    by eapply step_provenance.
Qed.

(** C10.  [writeContract] appends an entry whose omitted [gas], [gasPrice]
    and [value] are 600000, 1 and 0.  On every trace, for the submission
    that created promise [p]: its entry, queued or in execution, carries
    these defaults; the wallet is invoked with them; and when [gasPrice] was
    omitted the gas price of the chain is never queried for it. *)
Theorem writeContract_defaults (tr : list Event) (s : State) (p : nat) (a : TxParams) :
  run init tr = Some s ->
  submissions tr !! p = Some a ->
  (forall s0, exists it,
     transactionQueue (enqueue a s0) = transactionQueue s0 ++ [it] /\
     (gas a = None -> gas (params it) = Some 600000) /\
     (gasPrice a = None -> gasPrice (params it) = Some 1) /\
     (value a = None -> value (params it) = Some 0)) /\
  (forall it, it ∈ transactionQueue s \/ it ∈ map item (workers s) ->
     promise it = p ->
     (gas a = None -> gas (params it) = Some 600000) /\
     (gasPrice a = None -> gasPrice (params it) = Some 1) /\
     (value a = None -> value (params it) = Some 0)) /\
  (forall c, ObsWalletWrite p c ∈ log s ->
     (gas a = None -> wc_gas c = Some 600000) /\
     (gasPrice a = None -> wc_gasPrice c = 1) /\
     (value a = None -> wc_value c = 0)) /\
  (gasPrice a = None -> ObsGetGasPrice p ∉ log s).
Proof.
  intros Hrun Ha.
  assert (Hs : Provenance (submissions tr) s).
  { apply (run_provenance tr [] init); [done|]. split; simpl; auto. }
  destruct Hs as [Hn Hq Hw Hl].
  split; [|split; [|split]].
  - intros s0. eexists. split; [done|]. simpl.
    repeat split; by intros ->.
  - intros it Hin Hp.
    assert (Hit : stems (submissions tr) it).
    { destruct Hin as [Hin|Hin].
      - by apply (proj1 (Forall_forall _ _) Hq).
      - apply list_elem_of_fmap in Hin as (w & -> & Hin).
        by apply (proj1 (Forall_forall _ _) Hw) in Hin as [? _]. }
    destruct Hit as (a0 & Ha0 & ->). rewrite Hp, Ha in Ha0. injection Ha0 as <-.
    simpl. repeat split; by intros ->.
  - intros c Hin. apply (proj1 (Forall_forall _ _) Hl) in Hin.
    destruct Hin as (a0 & Ha0 & Hg & Hv & Hgp). rewrite Ha in Ha0. injection Ha0 as <-.
    repeat split.
    + intros H. by rewrite Hg, H.
    + intros H. rewrite Hgp; by rewrite H.
    + intros H. by rewrite Hv, H.
  - intros Hg Hin. apply (proj1 (Forall_forall _ _) Hl) in Hin.
    destruct Hin as (a0 & Ha0 & Hz). rewrite Ha in Ha0. injection Ha0 as <-.
    by rewrite Hg in Hz.
Qed.

Lemma writeContract_defaults_witness :
  exists s, run init [EvWriteContract sampleParams; EvWalletWrite 0 (inr sampleResult)] = Some s /\
            ObsGetGasPrice 0 ∉ log s.
Proof.
  eexists. split; [reflexivity|].
  exact (proj2 (proj2 (proj2 (writeContract_defaults
     [EvWriteContract sampleParams; EvWalletWrite 0 (inr sampleResult)] _ 0%nat sampleParams
     eq_refl eq_refl))) eq_refl).
Defined.

End TxQueueFacts.

(** * Decoding Solidity errors *)
Section SolidityErrorFacts.
Import Js SolidityError.

Lemma startsWith_app (s p : string) :
  startsWith s p = true -> exists r, s = p +:+ r.
Proof.
  unfold startsWith. revert s. induction p as [|c p IH]; intros s H.
  - by exists s.
  - destruct s as [|c' s]; simpl in H; [done|].
    destruct (ascii_dec c c') as [->|]; [|done].
    destruct (IH _ H) as [r ->]. by exists r.
Qed.

Lemma contains_middle (a t b : string) : contains (a +:+ t +:+ b) t.
Proof. by exists a, b. Qed.

Lemma string_of_uint_start (d : Decimal.uint) :
  exists c r, NilZero.string_of_uint d = String c r /\ numeralStart c.
Proof.
  destruct d; simpl; eexists _, _; (split; [reflexivity|]); right; simpl; lia.
Qed.

Lemma bigintToString_start (z : Z) :
  exists c r, bigintToString z = String c r /\ numeralStart c.
Proof.
  unfold bigintToString. destruct (Z.to_int z) as [d|d]; simpl.
  - apply string_of_uint_start.
  - eexists _, _. split; [reflexivity|]. by left.
Qed.

Lemma Panic_has_no_numeral (z : Z) : ~ contains "Panic" (bigintToString z).
Proof.
  intros (a & b & H).
  destruct (bigintToString_start z) as (c & r & Hz & Hc). rewrite Hz in H.
  assert (Hno : forall x : ascii, x ∈ ["P"; "a"; "n"; "i"; "c"]%char -> ~ numeralStart x).
  { intros x Hx [->|Hr].
    - repeat (apply elem_of_cons in Hx as [Hx|Hx]; [done|]). by apply elem_of_nil in Hx.
    - repeat (apply elem_of_cons in Hx as [->|Hx]; [simpl in Hr; lia|]).
      by apply elem_of_nil in Hx. }
  do 5 (destruct a as [|? a]; simpl in H;
        [injection H as Hx _; subst c; eapply Hno; [|exact Hc]; set_solver|];
        injection H as _ H).
  by destruct a.
Qed.

Lemma standard_selector_facts (output : string) :
  startsWith output "0x08c379a0" = true ->
  startsWith output "0x" = true /\ startsWith output "0x4e487b71" = false.
Proof. intros H. apply startsWith_app in H as [r ->]. by split. Qed.

Lemma panic_selector_facts (output : string) :
  startsWith output "0x4e487b71" = true ->
  startsWith output "0x" = true /\ startsWith output "0x08c379a0" = false.
Proof. intros H. apply startsWith_app in H as [r ->]. by split. Qed.

(** C7, as amended.  Whatever the library decoder does on other inputs:
    a payload with the [Error(string)] selector that decodes to a message
    yields that message, and when the decoder throws the bytes found by the
    manual decoding are returned; a payload with the [Panic(uint256)]
    selector that decodes to a code yields ["Panic(<code>)"], which contains
    the code in decimal, and when the decoder throws the result is the bare
    ["Panic"]; any other input that starts with ["0x"] yields
    ["Unknown error (<first ten characters>)"]. *)
Theorem decodeSolidityError_spec
        (decodeErrorResult : ErrorAbi -> string -> Error + Decoded)
        (hexToString : string -> Error + string)
        (output : string) :
  (forall message rest,
     startsWith output "0x08c379a0" = true ->
     decodeErrorResult StandardError output = inr (Some (VString message :: rest)) ->
     decodeSolidityError decodeErrorResult hexToString output = Some message) /\
  (forall e,
     startsWith output "0x08c379a0" = true ->
     decodeErrorResult StandardError output = inl e ->
     decodeSolidityError decodeErrorResult hexToString output =
       match hexToString ("0x" +:+ manualMessageHex output) with
       | inr s => Some s
       | inl _ => None
       end) /\
  (forall code rest,
     startsWith output "0x4e487b71" = true ->
     decodeErrorResult PanicError output = inr (Some (VBigint code :: rest)) ->
     decodeSolidityError decodeErrorResult hexToString output =
       Some ("Panic(" +:+ bigintToString code +:+ ")") /\
     contains ("Panic(" +:+ bigintToString code +:+ ")") (bigintToString code)) /\
  (forall e,
     startsWith output "0x4e487b71" = true ->
     decodeErrorResult PanicError output = inl e ->
     decodeSolidityError decodeErrorResult hexToString output = Some "Panic") /\
  (startsWith output "0x" = true ->
   startsWith output "0x08c379a0" = false ->
   startsWith output "0x4e487b71" = false ->
   decodeSolidityError decodeErrorResult hexToString output =
     Some ("Unknown error (" +:+ slice output 0 10 +:+ ")") /\
   contains ("Unknown error (" +:+ slice output 0 10 +:+ ")") (slice output 0 10)).
Proof.
  unfold decodeSolidityError. split; [|split; [|split; [|split]]].
  - intros message rest Hs Hd. destruct (standard_selector_facts _ Hs) as [H0 _].
    by rewrite H0, Hs, Hd.
  - intros e Hs Hd. destruct (standard_selector_facts _ Hs) as [H0 _].
    by rewrite H0, Hs, Hd.
  - intros code rest Hs Hd. destruct (panic_selector_facts _ Hs) as [H0 H1].
    split; [by rewrite H0, H1, Hs, Hd|apply contains_middle].
  - intros e Hs Hd. destruct (panic_selector_facts _ Hs) as [H0 H1].
    by rewrite H0, H1, Hs, Hd.
  - intros H0 H1 H2. split; [by rewrite H0, H1, H2|apply contains_middle].
Qed.

Lemma decodeSolidityError_spec_witness :
  decodeSolidityError Viem.decodeErrorResult Viem.hexToString Viem.helloPayload = Some "hello".
Proof.
  exact (proj1 (decodeSolidityError_spec Viem.decodeErrorResult Viem.hexToString
                  Viem.helloPayload) "hello" [] eq_refl eq_refl).
Defined.

(** C7 as stated fails on the input ["0x4e487b71"]: it begins with the
    [Panic(uint256)] selector, the decoder throws for want of data, and the
    result ["Panic"] contains no number. *)
Lemma decodeSolidityError_bare_panic :
  startsWith "0x4e487b71" "0x4e487b71" = true /\
  decodeSolidityError Viem.decodeErrorResult Viem.hexToString "0x4e487b71" = Some "Panic" /\
  forall code, ~ contains "Panic" (bigintToString code).
Proof. split; [done|]. split; [done|]. apply Panic_has_no_numeral. Qed.

Example decodeSolidityError_overflow :
  decodeSolidityError Viem.decodeErrorResult Viem.hexToString Viem.overflowPayload
  = Some "Panic(17)".
Proof. reflexivity. Qed.

Example decodeSolidityError_unknown :
  decodeSolidityError Viem.decodeErrorResult Viem.hexToString "0x12345678abcdef"
  = Some "Unknown error (0x12345678)".
Proof. reflexivity. Qed.

End SolidityErrorFacts.

(** * Properties of the WebSocket transport *)
Section TransportFacts.
Import Transport.

Lemma assigned_app (l1 l2 : list Obs) : assigned (l1 ++ l2) = assigned l1 ++ assigned l2.
Proof. induction l1 as [|o l1 IH]; [done|]. destruct o; simpl; by rewrite ?IH. Qed.

Lemma reconnectsScheduled_app (l1 l2 : list Obs) :
  reconnectsScheduled (l1 ++ l2) = reconnectsScheduled l1 ++ reconnectsScheduled l2.
Proof. induction l1 as [|o l1 IH]; [done|]. destruct o; simpl; by rewrite ?IH. Qed.

Lemma socketsCreated_app (l1 l2 : list Obs) :
  socketsCreated (l1 ++ l2) = socketsCreated l1 ++ socketsCreated l2.
Proof. induction l1 as [|o l1 IH]; [done|]. destruct o; simpl; by rewrite ?IH. Qed.

Lemma mappedSend_mono (l l' : list Obs) (o : Obs) :
  mappedSend l o -> mappedSend (l ++ l') o.
Proof.
  destruct o; simpl; try done.
  intros (m0 & p & Hin & ->). exists m0, p. split; [|done].
  apply elem_of_app. by left.
Qed.

Lemma sends_snoc (l : list Obs) (o : Obs) :
  Forall (mappedSend l) l -> mappedSend (l ++ [o]) o ->
  Forall (mappedSend (l ++ [o])) (l ++ [o]).
Proof.
  intros Hl Ho. apply Forall_app. split; [|by constructor].
  eapply Forall_impl; [done|]. intros. by apply mappedSend_mono.
Qed.

(** *** The invariant is kept by the building blocks *)

Local Ltac wf_fields H :=
  destruct H as [Hpend Hprom Htim Hhand Htout Hatt Hrid Hids Hsend].

Lemma WF_emit (o : Obs) (s : State) :
  WF s ->
  match o with ObsRegistered _ _ _ | ObsSend _ _ => False | _ => True end ->
  WF (emit o s).
Proof.
  intros H Ho. wf_fields H. split; simpl; auto.
  - rewrite assigned_app. destruct o; simpl; try done; by rewrite app_nil_r.
  - apply sends_snoc; [done|]. by destruct o.
Qed.

Lemma WF_set_ws (v : option nat) (s : State) : WF s -> WF (set_ws v s).
Proof. intros H. wf_fields H. by split. Qed.

Lemma WF_set_sockets (v : list Socket) (s : State) : WF s -> WF (set_sockets v s).
Proof. intros H. wf_fields H. by split. Qed.

Lemma WF_set_attempts (v : Z) (s : State) :
  0 <= v <= maxReconnectAttempts -> WF s -> WF (set_attempts v s).
Proof. intros Hv H. wf_fields H. by split. Qed.

Lemma WF_clearTimeout (t : nat) (s : State) : WF s -> WF (clearTimeout t s).
Proof.
  intros H. wf_fields H. split; simpl; auto.
  - intros t0 tm Ht. apply lookup_delete_Some in Ht as [_ Ht]. eauto.
  - intros id t0 Hid. destruct (Hhand id t0 Hid) as [? Hx]. split; [done|].
    intros tm Ht. apply lookup_delete_Some in Ht as [_ Ht]. eauto.
  - intros t0 tm id m0 Ht. apply lookup_delete_Some in Ht as [_ Ht]. eauto.
Qed.

Lemma WF_settle (id : Z) (o : Outcome) (s : State) :
  id < requestId s -> WF s -> WF (settle id o s).
Proof.
  intros Hid H. unfold settle. destruct (promises s !! id); [done|].
  wf_fields H. split; simpl; auto.
  intros id' o' Hl. apply lookup_insert_Some in Hl as [[<- _]|[_ Hl]]; eauto.
Qed.

Lemma WF_invoke (id : Z) (h : option nat) (o : Outcome) (s : State) :
  id < requestId s -> WF s -> WF (invoke id h o s).
Proof.
  intros Hid H. unfold invoke. apply WF_settle.
  - by destruct h.
  - destruct h; [by apply WF_clearTimeout|done].
Qed.

Lemma WF_delete_pending (id : Z) (s : State) :
  WF s -> WF (set_pending (delete id (pendingRequests s)) s).
Proof.
  intros H. wf_fields H. split; simpl; auto.
  - intros id' h Hl. apply lookup_delete_Some in Hl as [_ Hl]. eauto.
  - intros id' t Hl. apply lookup_delete_Some in Hl as [_ Hl]. eauto.
  - intros t tm id' m0 Ht Ha. destruct (Htout t tm id' m0 Ht Ha) as [? Hx].
    split; [done|]. intros h Hl. apply lookup_delete_Some in Hl as [_ Hl]. eauto.
Qed.

Lemma WF_clear_pending (s : State) : WF s -> WF (set_pending ∅ s).
Proof.
  intros H. wf_fields H. split; simpl; auto; try done.
  intros t tm id' m0 Ht Ha. destruct (Htout t tm id' m0 Ht Ha) as [? Hx].
  split; [done|]. by intros h Hl.
Qed.

(** Facts about the fold of [rejectAll]. *)
Lemma rejectFold_fields (e : Error) (l : list (Z * option nat)) (s : State) :
  let s' := foldr (fun entry acc => invoke entry.1 entry.2 (Rejected e) acc) s l in
  ws s' = ws s /\ sockets s' = sockets s /\ requestId s' = requestId s /\
  reconnectAttempts s' = reconnectAttempts s /\ pendingRequests s' = pendingRequests s /\
  nextTimer s' = nextTimer s /\ now s' = now s /\ log s' = log s.
Proof.
  induction l as [|[id h] l IH]; simpl; [done|].
  destruct IH as (?&?&?&?&?&?&?&?).
  unfold invoke, settle.
  destruct h; simpl; destruct (promises _ !! id); simpl; done.
Qed.

Lemma WF_rejectFold (e : Error) (l : list (Z * option nat)) (s : State) :
  Forall (fun entry => entry.1 < requestId s) l -> WF s ->
  WF (foldr (fun entry acc => invoke entry.1 entry.2 (Rejected e) acc) s l).
Proof.
  induction l as [|[id h] l IH]; intros Hl Hs; simpl; [done|].
  inversion Hl; subst. apply WF_invoke; [|by apply IH].
  by rewrite (proj1 (proj2 (proj2 (rejectFold_fields e l s)))).
Qed.

Lemma WF_rejectAll (e : Error) (s : State) : WF s -> WF (rejectAll e s).
Proof.
  intros Hs. unfold rejectAll. apply WF_clear_pending, WF_rejectFold; [|done].
  apply Forall_forall. intros [id h] Hin. apply elem_of_map_to_list in Hin.
  simpl. by eapply wf_pending.
Qed.

Lemma WF_setTimeout (delay : Z) (a : TimerAction) (s : State) :
  0 <= delay ->
  match a with TimeoutReq _ _ => False | _ => True end ->
  WF s -> WF (setTimeout delay a s).
Proof.
  intros Hd Ha H. wf_fields H. split; simpl; auto.
  - intros t tm Ht. apply lookup_insert_Some in Ht as [[<- <-]|[_ Ht]]; simpl.
    + split; lia.
    + destruct (Htim _ _ Ht). split; lia.
  - intros id t Hid. destruct (Hhand id t Hid) as [? Hx]. split; [lia|].
    intros tm Ht. apply lookup_insert_Some in Ht as [[<- <-]|[_ Ht]]; [lia|eauto].
  - intros t tm id m0 Ht Hact.
    apply lookup_insert_Some in Ht as [[<- <-]|[_ Ht]]; [|eauto].
    simpl in Hact. by subst a.
Qed.

Lemma seqZ_snoc (n : Z) : 0 <= n -> seqZ 1 (n + 1) = seqZ 1 n ++ [1 + n].
Proof. intros Hn. rewrite seqZ_app by lia. f_equal. Qed.

Lemma WF_register (m : string) (p : Json) (sock : option nat) (s : State) :
  WF s -> WF (register m p sock s).
Proof.
  intros H.
  set (id := requestId s).
  set (s1 := emit (ObsRegistered id m p)
               (set_pending (<[id := None]> (pendingRequests s)) (set_requestId (id + 1) s))).
  assert (Hnotimer : forall t tm m0, timers s !! t = Some tm -> action tm <> TimeoutReq id m0).
  { intros t tm m0 Ht Ha. destruct (wf_timeouts _ H t tm id m0 Ht Ha). unfold id in *. lia. }
  assert (H1 : WF s1).
  { wf_fields H. subst s1. split; simpl; auto; try lia.
    - intros id' h Hl. apply lookup_insert_Some in Hl as [[<- _]|[_ Hl]]; [lia|].
      specialize (Hpend _ _ Hl). lia.
    - intros id' o Hl. specialize (Hprom _ _ Hl). lia.
    - intros id' t Hl. apply lookup_insert_Some in Hl as [[_ ?]|[_ Hl]]; [done|eauto].
    - intros t tm id' m0 Ht Ha. destruct (Htout _ _ _ _ Ht Ha) as [? Hx].
      split; [lia|]. intros h Hl.
      apply lookup_insert_Some in Hl as [[<- _]|[_ Hl]]; [|eauto].
      by destruct (Hnotimer _ _ _ Ht Ha).
    - rewrite assigned_app, Hids. simpl.
      replace (id + 1 - 1) with ((id - 1) + 1) by lia.
      rewrite seqZ_snoc by (unfold id; lia). do 2 f_equal. lia.
    - by apply sends_snoc. }
  unfold register. fold id. fold s1.
  destruct sock as [j|]; [|by apply WF_settle; [simpl; lia|]].
  set (s2 := match stateOf s1 j with
             | Some OPEN => emit (ObsSend j (Mapper.wsRequestMessage m p id)) s1
             | _ => settle id (Rejected "WebSocket is not open")
                           (set_pending (delete id (pendingRequests s1)) s1)
             end).
  assert (H2 : WF s2 /\ requestId s2 = id + 1 /\ timers s2 = timers s).
  { assert (Hother : WF (settle id (Rejected "WebSocket is not open")
                          (set_pending (delete id (pendingRequests s1)) s1)) /\
                     requestId (settle id (Rejected "WebSocket is not open")
                          (set_pending (delete id (pendingRequests s1)) s1)) = id + 1 /\
                     timers (settle id (Rejected "WebSocket is not open")
                          (set_pending (delete id (pendingRequests s1)) s1)) = timers s).
    { split; [apply WF_settle; [simpl; lia|by apply WF_delete_pending]|].
      unfold settle. simpl. by destruct (promises s !! id). }
    subst s2. destruct (stateOf s1 j) as [[]|]; try done.
    split; [|done]. wf_fields H1. split; simpl; auto.
    - by rewrite assigned_app, app_nil_r.
    - apply sends_snoc; [done|]. simpl. exists m, p. split; [|done].
      subst s1. simpl. rewrite !elem_of_app, !list_elem_of_singleton. auto. }
  destruct H2 as (H2 & Hrid2 & Htim2). clearbody s2. wf_fields H2.
  split; simpl; auto.
  - intros id' h Hl. apply lookup_insert_Some in Hl as [[<- _]|[_ Hl]]; [lia|eauto].
  - intros t tm Ht. apply lookup_insert_Some in Ht as [[<- <-]|[_ Ht]]; simpl.
    + unfold requestTimeout. split; lia.
    + destruct (Htim _ _ Ht). split; lia.
  - intros id' t Hl. apply lookup_insert_Some in Hl as [[<- [= <-]]|[Hne Hl]].
    + split; [lia|]. intros tm. rewrite lookup_insert_eq. intros [= <-]. by exists m.
    + destruct (Hhand _ _ Hl) as [? Hx]. split; [lia|].
      intros tm Ht. apply lookup_insert_Some in Ht as [[<- <-]|[_ Ht]]; [lia|eauto].
  - intros t tm id' m0 Ht Ha.
    apply lookup_insert_Some in Ht as [[<- <-]|[Hne Ht]]; simpl in *.
    + injection Ha as <- <-. split; [lia|]. intros h. rewrite lookup_insert_eq. by intros [= <-].
    + destruct (Htout _ _ _ _ Ht Ha) as [? Hx]. split; [done|].
      intros h Hl. apply lookup_insert_Some in Hl as [[<- _]|[_ Hl]]; [|eauto].
      rewrite Htim2 in Ht. by destruct (Hnotimer _ _ _ Ht Ha).
Qed.

Lemma WF_continueWaiter (w : Waiter) (sock : option nat) (s : State) :
  WF s -> WF (continueWaiter w sock s).
Proof. destruct w; simpl; [apply WF_register|done]. Qed.

Lemma WF_failWaiter (w : Waiter) (s : State) : WF s -> WF (failWaiter w s).
Proof. destruct w; simpl; [|done]. intros. by apply WF_emit. Qed.

Lemma WF_checkConnection (w : Waiter) (s : State) : WF s -> WF (checkConnection w s).
Proof.
  intros H. unfold checkConnection.
  destruct (wsState s) as [[]|];
    auto using WF_continueWaiter, WF_failWaiter;
    apply WF_setTimeout; done.
Qed.

Lemma WF_connect (w : Waiter) (s : State) : WF s -> WF (connect w s).
Proof.
  intros H. unfold connect.
  destruct (wsState s) as [[]|];
    auto using WF_continueWaiter, WF_checkConnection;
    apply WF_emit; try done; by apply WF_set_ws, WF_set_sockets.
Qed.

Lemma WF_onopen (i : nat) (s : State) : WF s -> WF (onopen i s).
Proof.
  intros H. unfold onopen.
  assert (H0 : WF (set_attempts 0 s)) by (by apply WF_set_attempts).
  simpl. destruct (sockets s !! i) as [k|]; [|done].
  destruct (connectSettled k); [done|].
  by apply WF_continueWaiter, WF_set_sockets.
Qed.

Lemma WF_onerror (i : nat) (s : State) : WF s -> WF (onerror i s).
Proof.
  intros H. unfold onerror.
  destruct (sockets s !! i) as [k|]; [|done].
  destruct (connectSettled k); [done|].
  by apply WF_failWaiter, WF_set_sockets.
Qed.

Lemma rejectAll_fields (e : Error) (s : State) :
  ws (rejectAll e s) = ws s /\ sockets (rejectAll e s) = sockets s /\
  requestId (rejectAll e s) = requestId s /\
  reconnectAttempts (rejectAll e s) = reconnectAttempts s /\
  pendingRequests (rejectAll e s) = ∅ /\
  nextTimer (rejectAll e s) = nextTimer s /\ now (rejectAll e s) = now s /\
  log (rejectAll e s) = log s.
Proof.
  unfold rejectAll. simpl.
  destruct (rejectFold_fields e (map_to_list (pendingRequests s)) s)
    as (?&?&?&?&?&?&?&?).
  done.
Qed.

Lemma WF_onclose (code : Z) (s : State) : WF s -> WF (onclose code s).
Proof.
  intros H. unfold onclose.
  assert (H1 : WF (rejectAll "WebSocket connection closed" (set_ws None s))).
  { by apply WF_rejectAll, WF_set_ws. }
  destruct (bool_decide _ && _) eqn:Hc; [|done].
  apply andb_prop in Hc as [_ Hlt]. apply Z.ltb_lt in Hlt.
  pose proof (wf_attempts _ H1) as Hatt.
  apply WF_setTimeout; [unfold reconnectDelay; lia|done|].
  apply WF_emit; [|done]. apply WF_set_attempts; [lia|done].
Qed.

Lemma WF_set_readyState (i : nat) (r : ReadyState) (s : State) :
  WF s -> WF (set_readyState i r s).
Proof. apply WF_set_sockets. Qed.

Lemma WF_close (s : State) : WF s -> WF (close s).
Proof.
  intros H. unfold close. apply WF_rejectAll, WF_set_attempts; [done|].
  apply WF_set_ws.
  destruct (ws s) as [i|]; [|done].
  destruct (stateOf s i) as [[]|]; try done;
    apply WF_emit; try done; by apply WF_set_readyState.
Qed.

Lemma WF_onmessage (msg : Incoming) (s : State) : WF s -> WF (onmessage msg s).
Proof.
  intros H. destruct msg as [| |[id|] err res]; simpl; try done.
  destruct (pendingRequests s !! id) as [h|] eqn:Hl; [|done].
  apply WF_invoke; [simpl; by eapply wf_pending|by apply WF_delete_pending].
Qed.

Lemma WF_fire (a : TimerAction) (s : State) : WF s -> WF (fire a s).
Proof.
  intros H. destruct a as [id m| |w]; simpl.
  - destruct (pendingRequests s !! id) as [h|] eqn:Hl; [|done].
    apply WF_settle; [simpl; by eapply wf_pending|by apply WF_delete_pending].
  - by apply WF_connect.
  - by apply WF_checkConnection.
Qed.

Lemma WF_init : WF init.
Proof. split; simpl; try done. Qed.

Lemma step_WF (s s' : State) (ev : Event) : step s ev = Some s' -> WF s -> WF s'.
Proof.
  intros Hstep H. destruct ev as [m p| |i|i|i failed code|i msg|d|t]; simpl in Hstep.
  - injection Hstep as <-. by apply WF_connect.
  - injection Hstep as <-. by apply WF_close.
  - destruct (stateOf s i) as [[]|]; try done. injection Hstep as <-.
    by apply WF_onopen, WF_set_readyState.
  - destruct (stateOf s i) as [[]|]; try done. injection Hstep as <-.
    by apply WF_set_readyState.
  - destruct (stateOf s i) as [[]|]; try done; injection Hstep as <-;
      apply WF_onclose; destruct failed;
      try apply WF_onerror; by apply WF_set_readyState.
  - destruct (stateOf s i) as [[]|]; try done. injection Hstep as <-.
    by apply WF_onmessage.
  - destruct (bool_decide (0 <= d) && _) eqn:Hc; [|done]. injection Hstep as <-.
    apply andb_prop in Hc as [Hd Hall].
    apply bool_decide_eq_true in Hd. apply bool_decide_eq_true in Hall.
    wf_fields H. split; simpl; auto.
    intros t tm Ht. destruct (Htim _ _ Ht). split; [done|]. by apply (Hall t tm).
  - destruct (timers s !! t) as [tm|] eqn:Ht; [|done].
    destruct (due tm <=? now s); [|done]. injection Hstep as <-.
    by apply WF_fire, WF_clearTimeout.
Qed.

Lemma run_WF (tr : list Event) (s s' : State) : run s tr = Some s' -> WF s -> WF s'.
Proof.
  revert s. induction tr as [|ev tr IH]; intros s Hrun H; simpl in Hrun.
  - by injection Hrun as <-.
  - destruct (step s ev) as [s1|] eqn:Hstep; [|done].
    eapply IH; [done|]. by eapply step_WF.
Qed.

(** *** What the handlers change *)

Lemma Frame_refl (s : State) : Frame s s.
Proof. split; auto; lia. Qed.

Lemma Frame_trans (s1 s2 s3 : State) : Frame s1 s2 -> Frame s2 s3 -> Frame s1 s3.
Proof.
  intros [A1 A2 A3 A4 A5] [B1 B2 B3 B4 B5]. split; try congruence; auto; try lia.
  intros id Hlt Hn. apply B5; [lia|auto].
Qed.

Lemma Keeps_trans (s1 s2 s3 : State) : Keeps s1 s2 -> Keeps s2 s3 -> Keeps s1 s3.
Proof. unfold Keeps. eauto. Qed.

(** The state [register] produces, field by field. *)
Lemma register_spec (m : string) (p : Json) (sock : option nat) (s : State) :
  let id := requestId s in
  let s' := register m p sock s in
  let sent := match sock with
              | Some j => bool_decide (stateOf s j = Some OPEN)
              | None => false
              end in
  ws s' = ws s /\ sockets s' = sockets s /\ requestId s' = id + 1 /\
  reconnectAttempts s' = reconnectAttempts s /\ now s' = now s /\
  pendingRequests s' =
    <[id := match sock with Some _ => Some (nextTimer s) | None => None end]> (pendingRequests s) /\
  timers s' = match sock with
              | Some _ => <[nextTimer s := mkTimer (now s + requestTimeout) (TimeoutReq id m)]> (timers s)
              | None => timers s
              end /\
  nextTimer s' = match sock with Some _ => S (nextTimer s) | None => nextTimer s end /\
  promises s' = (if sent then promises s
                 else match promises s !! id with
                      | Some _ => promises s
                      | None => <[id := Rejected (match sock with
                                                  | Some _ => "WebSocket is not open"
                                                  | None => "Cannot read properties of null (reading 'readyState')"
                                                  end)]> (promises s)
                      end) /\
  log s' = log s ++ ObsRegistered id m p ::
             match sock with
             | Some j => if sent then [ObsSend j (Mapper.wsRequestMessage m p id)] else []
             | None => []
             end.
Proof.
  intros id s' sent. subst s' sent. unfold register. fold id.
  destruct sock as [j|]; simpl.
  - change (stateOf (emit _ _) j) with (stateOf s j).
    destruct (stateOf s j) as [[]|] eqn:Hj; simpl;
      rewrite ?bool_decide_true, ?bool_decide_false by done;
      unfold settle; simpl; destruct (promises s !! id); simpl;
      rewrite ?insert_delete_eq, ?insert_insert_eq, <- ?app_assoc; done.
  - unfold settle. simpl. destruct (promises s !! id); simpl; done.
Qed.

Lemma register_Frame (m : string) (p : Json) (sock : option nat) (s : State) :
  Frame s (register m p sock s).
Proof.
  destruct (register_spec m p sock s) as (Hws & Hso & Hrid & Hatt & Hnow & Hpe & Hti & Hnt & Hpr & Hlog).
  split; try done.
  - lia.
  - rewrite Hlog, reconnectsScheduled_app. simpl.
    destruct sock; [destruct (bool_decide _)|]; simpl; by rewrite app_nil_r.
  - intros id o Ho. rewrite Hpr. destruct sock as [j|].
    + destruct (bool_decide _); [done|].
      destruct (promises s !! requestId s) eqn:Hp; [done|].
      rewrite lookup_insert_ne; [done|congruence].
    + destruct (promises s !! requestId s) eqn:Hp; [done|].
      rewrite lookup_insert_ne; [done|congruence].
  - intros id Hlt Hn. rewrite Hpe, lookup_insert_ne; [done|lia].
Qed.

Lemma register_Keeps (m : string) (p : Json) (sock : option nat) (s : State) :
  WF s -> Keeps s (register m p sock s).
Proof.
  intros H id m0 T t (Hp & Ht & Hpr).
  destruct (register_spec m p sock s) as (Hws & Hso & Hrid & Hatt & Hnow & Hpe & Hti & Hnt & Hprom & Hlog).
  pose proof (wf_pending _ H _ _ Hp) as Hlt.
  destruct (wf_handles _ H _ _ Hp) as [Htl _].
  repeat split.
  - rewrite Hpe, lookup_insert_ne; [done|lia].
  - rewrite Hti. destruct sock; [|done]. rewrite lookup_insert_ne; [done|lia].
  - rewrite Hprom. destruct sock as [j|].
    + destruct (bool_decide _); [done|].
      destruct (promises s !! requestId s); [done|].
      rewrite lookup_insert_ne; [done|lia].
    + destruct (promises s !! requestId s); [done|].
      rewrite lookup_insert_ne; [done|lia].
Qed.

Lemma continueWaiter_Frame (w : Waiter) (sock : option nat) (s : State) :
  Frame s (continueWaiter w sock s).
Proof. destruct w; simpl; [apply register_Frame|apply Frame_refl]. Qed.

Lemma continueWaiter_Keeps (w : Waiter) (sock : option nat) (s : State) :
  WF s -> Keeps s (continueWaiter w sock s).
Proof. destruct w; simpl; [apply register_Keeps|by intros ? ?]. Qed.

Lemma continueWaiter_attempts (w : Waiter) (sock : option nat) (s : State) :
  reconnectAttempts (continueWaiter w sock s) = reconnectAttempts s.
Proof.
  destruct w as [m p|]; simpl; [|done].
  by destruct (register_spec m p sock s) as (_ & _ & _ & -> & _).
Qed.

Lemma emit_Frame (o : Obs) (s : State) :
  match o with ObsReconnectScheduled _ => False | _ => True end -> Frame s (emit o s).
Proof.
  intros Ho. split; simpl; auto; try lia.
  rewrite reconnectsScheduled_app. destruct o; simpl; try done; by rewrite app_nil_r.
Qed.

Lemma failWaiter_Frame (w : Waiter) (s : State) : Frame s (failWaiter w s).
Proof. destruct w; simpl; [by apply emit_Frame|apply Frame_refl]. Qed.

Lemma failWaiter_Keeps (w : Waiter) (s : State) : Keeps s (failWaiter w s).
Proof. destruct w; simpl; by intros ? ?. Qed.

Lemma setTimeout_Frame (d : Z) (a : TimerAction) (s : State) : Frame s (setTimeout d a s).
Proof. split; simpl; auto; lia. Qed.

Lemma setTimeout_Keeps (d : Z) (a : TimerAction) (s : State) :
  WF s -> Keeps s (setTimeout d a s).
Proof.
  intros H id m T t (Hp & Ht & Hpr). repeat split; simpl; auto.
  destruct (wf_timers _ H _ _ Ht) as [Hlt _].
  rewrite lookup_insert_ne; [done|lia].
Qed.

Lemma checkConnection_Frame (w : Waiter) (s : State) : Frame s (checkConnection w s).
Proof.
  unfold checkConnection.
  destruct (wsState s) as [[]|];
    auto using continueWaiter_Frame, failWaiter_Frame, setTimeout_Frame.
Qed.

Lemma checkConnection_Keeps (w : Waiter) (s : State) :
  WF s -> Keeps s (checkConnection w s).
Proof.
  intros H. unfold checkConnection.
  destruct (wsState s) as [[]|];
    auto using continueWaiter_Keeps, failWaiter_Keeps, setTimeout_Keeps.
Qed.

Lemma connect_Frame (w : Waiter) (s : State) : Frame s (connect w s).
Proof.
  unfold connect.
  destruct (wsState s) as [[]|];
    auto using continueWaiter_Frame, checkConnection_Frame;
    split; simpl; auto; try lia;
    by rewrite reconnectsScheduled_app, app_nil_r.
Qed.

Lemma connect_Keeps (w : Waiter) (s : State) : WF s -> Keeps s (connect w s).
Proof.
  intros H. unfold connect.
  destruct (wsState s) as [[]|];
    auto using continueWaiter_Keeps, checkConnection_Keeps; by intros ? ?.
Qed.

Lemma onopen_Frame (i : nat) (s : State) : Frame s (onopen i s).
Proof.
  unfold onopen. simpl. destruct (sockets s !! i) as [k|]; [|by split; simpl; auto; lia].
  destruct (connectSettled k); [by split; simpl; auto; lia|].
  eapply Frame_trans; [|apply continueWaiter_Frame]. split; simpl; auto; lia.
Qed.

Lemma onopen_Keeps (i : nat) (s : State) : WF s -> Keeps s (onopen i s).
Proof.
  intros H. unfold onopen. simpl. destruct (sockets s !! i) as [k|]; [|by intros ? ?].
  destruct (connectSettled k); [by intros ? ?|].
  eapply Keeps_trans; [|apply continueWaiter_Keeps].
  - by intros ? ?.
  - by apply WF_set_sockets, WF_set_attempts.
Qed.

Lemma onopen_attempts (i : nat) (s : State) : reconnectAttempts (onopen i s) = 0.
Proof.
  unfold onopen. simpl. destruct (sockets s !! i) as [k|]; [|done].
  destruct (connectSettled k); [done|]. by rewrite continueWaiter_attempts.
Qed.

Lemma onerror_Frame (i : nat) (s : State) : Frame s (onerror i s).
Proof.
  unfold onerror. destruct (sockets s !! i) as [k|]; [|apply Frame_refl].
  destruct (connectSettled k); [apply Frame_refl|].
  eapply Frame_trans; [|apply failWaiter_Frame]. split; simpl; auto; lia.
Qed.

Lemma onerror_Keeps (i : nat) (s : State) : Keeps s (onerror i s).
Proof.
  unfold onerror. destruct (sockets s !! i) as [k|]; [|by intros ? ?].
  destruct (connectSettled k); [by intros ? ?|].
  eapply Keeps_trans; [|apply failWaiter_Keeps]. by intros ? ?.
Qed.

Lemma onerror_fields (i : nat) (s : State) :
  reconnectAttempts (onerror i s) = reconnectAttempts s /\
  nextTimer (onerror i s) = nextTimer s /\ timers (onerror i s) = timers s /\
  pendingRequests (onerror i s) = pendingRequests s /\
  promises (onerror i s) = promises s /\ ws (onerror i s) = ws s.
Proof.
  unfold onerror. destruct (sockets s !! i) as [k|]; [|done].
  destruct (connectSettled k); [done|]. by destruct (creator k).
Qed.

Lemma rejectFold_promises (e : Error) (l : list (Z * option nat)) (s : State) (id : Z) :
  promises (foldr (fun entry acc => invoke entry.1 entry.2 (Rejected e) acc) s l) !! id =
  match promises s !! id with
  | Some o => Some o
  | None => if bool_decide (id ∈ l.*1) then Some (Rejected e) else None
  end.
Proof.
  induction l as [|[id1 h1] l IH]; simpl.
  - by destruct (promises s !! id).
  - set (x := foldr _ s l) in *.
    assert (Hinv : promises (invoke id1 h1 (Rejected e) x) =
                   match promises x !! id1 with
                   | Some _ => promises x
                   | None => <[id1 := Rejected e]> (promises x)
                   end).
    { unfold invoke, settle. destruct h1; simpl; by destruct (promises x !! id1). }
    rewrite Hinv. destruct (decide (id = id1)) as [->|Hne].
    + rewrite bool_decide_true by (simpl; left).
      destruct (promises x !! id1) eqn:Hx.
      * rewrite Hx, IH in *. destruct (promises s !! id1); [done|].
        by destruct (bool_decide _).
      * rewrite lookup_insert_eq. rewrite IH in Hx.
        by destruct (promises s !! id1).
    + assert (Hx : (match promises x !! id1 with
                    | Some _ => promises x
                    | None => <[id1 := Rejected e]> (promises x)
                    end) !! id = promises x !! id).
      { destruct (promises x !! id1); [done|]. by rewrite lookup_insert_ne. }
      rewrite Hx, IH. destruct (promises s !! id); [done|].
      destruct (decide (id ∈ l.*1)) as [Hin|Hin].
      * rewrite (bool_decide_true _ Hin). rewrite bool_decide_true; [done|].
        simpl. by right.
      * rewrite (bool_decide_false _ Hin). rewrite bool_decide_false; [done|].
        simpl. intros [?|?]%elem_of_cons; done.
Qed.

Lemma rejectFold_timers (e : Error) (l : list (Z * option nat)) (s : State) (t : nat) (tm : Timer) :
  timers (foldr (fun entry acc => invoke entry.1 entry.2 (Rejected e) acc) s l) !! t = Some tm ->
  timers s !! t = Some tm.
Proof.
  induction l as [|[id1 h1] l IH]; simpl; [done|].
  set (x := foldr _ s l) in *.
  unfold invoke, settle. destruct h1 as [t1|]; simpl;
    destruct (promises x !! id1); simpl; auto.
  - intros Hl. apply lookup_delete_Some in Hl as [_ Hl]. auto.
  - intros Hl. apply lookup_delete_Some in Hl as [_ Hl]. auto.
Qed.

(** [rejectAll] rejects the promise of every entry and leaves the others. *)
Lemma rejectAll_promises (e : Error) (s : State) (id : Z) :
  promises (rejectAll e s) !! id =
  match promises s !! id with
  | Some o => Some o
  | None => match pendingRequests s !! id with
            | Some _ => Some (Rejected e)
            | None => None
            end
  end.
Proof.
  unfold rejectAll. simpl. rewrite rejectFold_promises.
  destruct (promises s !! id); [done|].
  destruct (pendingRequests s !! id) as [h|] eqn:Hp.
  - rewrite bool_decide_true; [done|].
    apply list_elem_of_fmap. exists (id, h). split; [done|]. by apply elem_of_map_to_list.
  - rewrite bool_decide_false; [done|].
    intros Hin. apply list_elem_of_fmap in Hin as ([id' h] & -> & Hin).
    apply elem_of_map_to_list in Hin. simpl in Hp. congruence.
Qed.

Lemma rejectAll_timers (e : Error) (s : State) (t : nat) (tm : Timer) :
  timers (rejectAll e s) !! t = Some tm -> timers s !! t = Some tm.
Proof. unfold rejectAll. simpl. apply rejectFold_timers. Qed.

Lemma rejectAll_Frame (e : Error) (s : State) : Frame s (rejectAll e s).
Proof.
  destruct (rejectAll_fields e s) as (Hws & Hso & Hrid & Hatt & Hpe & Hnt & Hnow & Hlog).
  split.
  - lia.
  - done.
  - by rewrite Hlog.
  - intros id o Ho. by rewrite rejectAll_promises, Ho.
  - intros id _ _. by rewrite Hpe.
Qed.

(** The three parts of [onclose]: what it does to the requests, to the
    counter and to the schedule. *)
Lemma onclose_spec (code : Z) (s : State) :
  let s' := onclose code s in
  let again := bool_decide (code <> 1000) &&
               (reconnectAttempts s <? maxReconnectAttempts) in
  ws s' = None /\ pendingRequests s' = ∅ /\ requestId s' = requestId s /\
  now s' = now s /\
  (forall id, promises s' !! id =
     match promises s !! id with
     | Some o => Some o
     | None => match pendingRequests s !! id with
               | Some _ => Some (Rejected "WebSocket connection closed")
               | None => None
               end
     end) /\
  reconnectAttempts s' = (if again then reconnectAttempts s + 1 else reconnectAttempts s) /\
  reconnectsScheduled (log s') =
    reconnectsScheduled (log s) ++
      (if again then [reconnectDelay * (reconnectAttempts s + 1)] else []) /\
  nextTimer s' = (if again then S (nextTimer s) else nextTimer s) /\
  (forall t tm, timers s' !! t = Some tm ->
     timers s !! t = Some tm \/
     again = true /\ t = nextTimer s /\
     tm = mkTimer (now s + reconnectDelay * (reconnectAttempts s + 1)) Reconnect) /\
  (again = true ->
   timers s' !! nextTimer s =
     Some (mkTimer (now s + reconnectDelay * (reconnectAttempts s + 1)) Reconnect)).
Proof.
  intros s' again. subst s' again. unfold onclose.
  assert (Hprom : forall id,
     promises (rejectAll "WebSocket connection closed" (set_ws None s)) !! id =
     match promises s !! id with
     | Some o => Some o
     | None => match pendingRequests s !! id with
               | Some _ => Some (Rejected "WebSocket connection closed")
               | None => None
               end
     end).
  { intros id. by rewrite rejectAll_promises. }
  assert (Htim : forall t tm,
     timers (rejectAll "WebSocket connection closed" (set_ws None s)) !! t = Some tm ->
     timers s !! t = Some tm).
  { intros t tm Ht. by apply rejectAll_timers in Ht. }
  destruct (rejectAll_fields "WebSocket connection closed" (set_ws None s))
    as (Hws & Hso & Hrid & Hatt & Hpe & Hnt & Hnow & Hlog).
  set (s1 := rejectAll "WebSocket connection closed" (set_ws None s)) in *.
  clearbody s1. simpl in *.
  rewrite Hatt. destruct (bool_decide (code <> 1000) && _); simpl.
  - rewrite Hrid, Hnow, Hnt, Hlog, reconnectsScheduled_app. simpl.
    repeat split; auto.
    + intros t tm Ht. apply lookup_insert_Some in Ht as [[<- <-]|[_ Ht]]; auto.
    + by rewrite lookup_insert_eq.
  - rewrite Hlog, app_nil_r. repeat split; auto. done.
Qed.

Lemma settle_Frame (id : Z) (o : Outcome) (s : State) : Frame s (settle id o s).
Proof.
  unfold settle. destruct (promises s !! id) eqn:Hp; [apply Frame_refl|].
  split; simpl; auto; try lia.
  intros id' o' Ho. rewrite lookup_insert_ne; [done|congruence].
Qed.

Lemma delete_pending_Frame (id : Z) (s : State) :
  Frame s (set_pending (delete id (pendingRequests s)) s).
Proof.
  split; simpl; auto; try lia.
  intros id' _ Hn. apply lookup_delete_None. auto.
Qed.

Lemma clearTimeout_Frame (t : nat) (s : State) : Frame s (clearTimeout t s).
Proof. split; simpl; auto; lia. Qed.

Lemma invoke_Frame (id : Z) (h : option nat) (o : Outcome) (s : State) :
  Frame s (invoke id h o s).
Proof.
  unfold invoke. eapply Frame_trans; [|apply settle_Frame].
  destruct h; [apply clearTimeout_Frame|apply Frame_refl].
Qed.

Lemma onmessage_Frame (msg : Incoming) (s : State) : Frame s (onmessage msg s).
Proof.
  destruct msg as [| |[id|] err res]; simpl; try apply Frame_refl.
  destruct (pendingRequests s !! id); [|apply Frame_refl].
  eapply Frame_trans; [apply delete_pending_Frame|apply invoke_Frame].
Qed.

(** A frame for another id leaves a request in flight alone. *)
Lemma onmessage_Keeps (msg : Incoming) (s : State) (id : Z) (m : string) (T : Z) (t : nat) :
  WF s ->
  match msg with Response (Some id') _ _ => id' <> id | _ => True end ->
  InFlight s id m T t -> InFlight (onmessage msg s) id m T t.
Proof.
  intros H Hmsg (Hp & Ht & Hpr).
  destruct msg as [| |[id'|] err res]; simpl; try done.
  destruct (pendingRequests s !! id') as [h|] eqn:Hl; [|done].
  unfold InFlight, invoke, settle.
  assert (Hh : forall t', h = Some t' -> t' <> t).
  { intros t' -> ->. destruct (wf_handles _ H _ _ Hl) as [_ Hx].
    destruct (Hx _ Ht) as [m' Hm']. simpl in Hm'. congruence. }
  destruct h as [t'|]; simpl; destruct (promises s !! id'); simpl;
    rewrite ?lookup_delete_ne, ?lookup_insert_ne by (try apply Hh; done); done.
Qed.

Lemma fire_Frame (a : TimerAction) (s : State) : Frame s (fire a s).
Proof.
  destruct a as [id m| |w]; simpl.
  - destruct (pendingRequests s !! id); [|apply Frame_refl].
    eapply Frame_trans; [apply delete_pending_Frame|apply settle_Frame].
  - apply connect_Frame.
  - apply checkConnection_Frame.
Qed.

(** Another timer that fires leaves a request in flight alone. *)
Lemma fire_Keeps (t' : nat) (tm : Timer) (s : State) (id : Z) (m : string) (T : Z) (t : nat) :
  WF s -> timers s !! t' = Some tm -> t' <> t ->
  InFlight s id m T t -> InFlight (fire (action tm) (clearTimeout t' s)) id m T t.
Proof.
  intros H Ht' Hne (Hp & Ht & Hpr).
  assert (H1 : WF (clearTimeout t' s)) by (by apply WF_clearTimeout).
  assert (Hin : InFlight (clearTimeout t' s) id m T t).
  { repeat split; simpl; auto. by rewrite lookup_delete_ne. }
  destruct (action tm) as [id' m'| |w] eqn:Ha; simpl.
  - assert (id' <> id).
    { intros ->. destruct (wf_timeouts _ H _ _ _ _ Ht' Ha) as [_ Hx].
      specialize (Hx _ Hp). congruence. }
    destruct (pendingRequests s !! id'); [|done].
    unfold InFlight, settle. simpl. destruct (promises s !! id'); simpl;
      rewrite ?lookup_delete_ne, ?lookup_insert_ne by done;
      repeat split; auto; by rewrite lookup_delete_ne.
  - by apply connect_Keeps.
  - by apply checkConnection_Keeps.
Qed.

(** [close()]: the socket, the counter, the requests. *)
Lemma close_spec (s : State) :
  let s' := close s in
  ws s' = None /\ reconnectAttempts s' = maxReconnectAttempts /\
  pendingRequests s' = ∅ /\ requestId s' = requestId s /\ now s' = now s /\
  nextTimer s' = nextTimer s /\
  (forall id, promises s' !! id =
     match promises s !! id with
     | Some o => Some o
     | None => match pendingRequests s !! id with
               | Some _ => Some (Rejected "WebSocket transport closed")
               | None => None
               end
     end) /\
  (forall t tm, timers s' !! t = Some tm -> timers s !! t = Some tm) /\
  (forall i, ws s = Some i -> stateOf s i = Some OPEN \/ stateOf s i = Some CONNECTING ->
     stateOf s' i = Some CLOSING /\ log s' = log s ++ [ObsSocketClose i 1000]) /\
  reconnectsScheduled (log s') = reconnectsScheduled (log s) /\
  socketsCreated (log s') = socketsCreated (log s).
Proof.
  intros s'. subst s'. unfold close.
  set (s1 := match ws s with
             | Some i => match stateOf s i with
                         | Some OPEN | Some CONNECTING =>
                             emit (ObsSocketClose i 1000) (set_readyState i CLOSING s)
                         | _ => s
                         end
             | None => s
             end).
  assert (H1 : requestId s1 = requestId s /\ now s1 = now s /\ nextTimer s1 = nextTimer s /\
               promises s1 = promises s /\ pendingRequests s1 = pendingRequests s /\
               timers s1 = timers s /\
               reconnectsScheduled (log s1) = reconnectsScheduled (log s) /\
               socketsCreated (log s1) = socketsCreated (log s) /\
               (forall i, ws s = Some i ->
                  stateOf s i = Some OPEN \/ stateOf s i = Some CONNECTING ->
                  stateOf s1 i = Some CLOSING /\ log s1 = log s ++ [ObsSocketClose i 1000])).
  { subst s1. destruct (ws s) as [i|]; [|by repeat split].
    destruct (stateOf s i) as [[]|] eqn:Hi; simpl;
      rewrite ?reconnectsScheduled_app, ?socketsCreated_app, ?app_nil_r;
      (do 8 (split; [done|])); intros i' [= <-] [?|?]; try congruence;
      (split; [|done]);
      unfold stateOf, set_readyState in *; simpl;
      rewrite list_lookup_alter_eq; by destruct (sockets s !! _). }
  destruct H1 as (Hrid & Hnow & Hnt & Hpr & Hpe & Hti & Hrs & Hsc & Hcl).
  set (s2 := set_attempts maxReconnectAttempts (set_ws None s1)).
  pose proof (rejectAll_promises "WebSocket transport closed" s2) as Rpr.
  pose proof (rejectAll_timers "WebSocket transport closed" s2) as Rti.
  destruct (rejectAll_fields "WebSocket transport closed" s2)
    as (Rws & Rso & Rrid & Ratt & Rpe & Rnt & Rnow & Rlog).
  unfold stateOf. rewrite Rws, Ratt, Rpe, Rrid, Rnow, Rnt, Rlog, Rso.
  change (promises s2) with (promises s1) in Rpr.
  change (pendingRequests s2) with (pendingRequests s1) in Rpr.
  change (timers s2) with (timers s1) in Rti.
  rewrite Hpr, Hpe in Rpr. rewrite Hti in Rti.
  change (sockets s2) with (sockets s1). change (log s2) with (log s1).
  change (ws s2) with (@None nat). change (reconnectAttempts s2) with maxReconnectAttempts.
  change (requestId s2) with (requestId s1). change (now s2) with (now s1).
  change (nextTimer s2) with (nextTimer s1).
  repeat split; auto.
  - by apply Hcl.
  - by apply Hcl.
Qed.

Lemma close_Frame (s : State) : Frame s (close s).
Proof.
  destruct (close_spec s) as (Hws & Hatt & Hpe & Hrid & Hnow & Hnt & Hpr & Hti & Hcl & Hrs & Hsc).
  split.
  - lia.
  - done.
  - done.
  - intros id o Ho. by rewrite Hpr, Ho.
  - intros id _ _. by rewrite Hpe.
Qed.

Lemma Frame_Stable (s s' : State) : Frame s s' -> Stable s s'.
Proof. intros [A1 A2 A3 A4 A5]. split; auto. lia. Qed.

Lemma set_sockets_Frame (v : list Socket) (s : State) : Frame s (set_sockets v s).
Proof. split; simpl; auto; lia. Qed.

(** Every step other than the close of a socket and the passing of time. *)
Lemma step_Frame (s s' : State) (ev : Event) :
  step s ev = Some s' ->
  match ev with SockClose _ _ _ | Elapse _ => False | _ => True end ->
  Frame s s'.
Proof.
  intros Hstep Hev. destruct ev as [m p| |i|i|i failed code|i msg|d|t]; simpl in Hstep; try done.
  - injection Hstep as <-. apply connect_Frame.
  - injection Hstep as <-. apply close_Frame.
  - destruct (stateOf s i) as [[]|]; try done. injection Hstep as <-.
    eapply Frame_trans; [apply set_sockets_Frame|apply onopen_Frame].
  - destruct (stateOf s i) as [[]|]; try done. injection Hstep as <-.
    apply set_sockets_Frame.
  - destruct (stateOf s i) as [[]|]; try done. injection Hstep as <-.
    apply onmessage_Frame.
  - destruct (timers s !! t) as [tm|] eqn:Ht; [|done].
    destruct (due tm <=? now s); [|done]. injection Hstep as <-.
    eapply Frame_trans; [apply clearTimeout_Frame|apply fire_Frame].
Qed.

Lemma step_Stable (s s' : State) (ev : Event) : step s ev = Some s' -> Stable s s'.
Proof.
  intros Hstep.
  destruct (match ev with SockClose _ _ _ | Elapse _ => false | _ => true end) eqn:Hev.
  - apply Frame_Stable. eapply step_Frame; [done|]. by destruct ev.
  - destruct ev as [m p| |i|i|i failed code|i msg|d|t]; simpl in Hstep; try done.
    + assert (Hs : exists s1, Frame s s1 /\ s' = onclose code s1).
      { destruct (stateOf s i) as [[]|]; try done; injection Hstep as <-;
          (destruct failed;
           [eexists; split; [|reflexivity];
            eapply Frame_trans; [apply set_sockets_Frame|apply onerror_Frame]
           |eexists; split; [|reflexivity]; apply set_sockets_Frame]). }
      destruct Hs as (s1 & [A1 A2 A3 A4 A5] & ->).
      destruct (onclose_spec code s1) as (Hws & Hpe & Hrid & Hnow & Hpr & _).
      split.
      * lia.
      * lia.
      * intros id o Ho. rewrite Hpr, (A4 _ _ Ho). done.
      * intros id _ _. by rewrite Hpe.
    + destruct (bool_decide (0 <= d) && _) eqn:Hc; [|done]. injection Hstep as <-.
      apply andb_prop in Hc as [Hd _]. apply bool_decide_eq_true in Hd.
      split; simpl; auto; lia.
Qed.

Lemma Stable_trans (s1 s2 s3 : State) : Stable s1 s2 -> Stable s2 s3 -> Stable s1 s3.
Proof.
  intros [A1 A2 A3 A4] [B1 B2 B3 B4]. split; auto; try lia.
  intros id Hlt Hn. apply B4; [lia|auto].
Qed.

Lemma run_Stable (tr : list Event) (s s' : State) : run s tr = Some s' -> Stable s s'.
Proof.
  revert s. induction tr as [|ev tr IH]; intros s Hrun; simpl in Hrun.
  - injection Hrun as <-. split; auto; lia.
  - destruct (step s ev) as [s1|] eqn:Hstep; [|done].
    eapply Stable_trans; [by eapply step_Stable|by apply IH].
Qed.

(** ** The reconnect policy *)



(** ** Request ids *)

(** C9.  In every reachable state every outstanding id is below the
    counter, the ids handed out so far are strictly increasing, and the
    next request gets the counter's value, which is not in the map. *)
Theorem request_ids_fresh (tr : list Event) (s : State) :
  run init tr = Some s ->
  (forall id, is_Some (pendingRequests s !! id) -> id < requestId s) /\
  (forall (i j : nat) (a b : Z), (i < j)%nat ->
     assigned (log s) !! i = Some a -> assigned (log s) !! j = Some b -> a < b) /\
  (forall m p sock,
     pendingRequests s !! requestId s = None /\
     assigned (log (register m p sock s)) = assigned (log s) ++ [requestId s] /\
     is_Some (pendingRequests (register m p sock s) !! requestId s) /\
     requestId (register m p sock s) = requestId s + 1).
Proof.
  intros Hrun. assert (H : WF s) by (eapply run_WF; eauto using WF_init).
  split; [|split].
  - intros id [h Hh]. by eapply wf_pending.
  - intros i j a b Hij Ha Hb. rewrite (wf_ids _ H) in Ha, Hb.
    apply lookup_seqZ in Ha as [-> _]. apply lookup_seqZ in Hb as [-> _]. lia.
  - intros m p sock.
    destruct (register_spec m p sock s) as (_ & _ & Hrid & _ & _ & Hpe & _ & _ & _ & Hlog).
    repeat split.
    + destruct (pendingRequests s !! requestId s) eqn:Hp; [|done].
      pose proof (wf_pending _ H _ _ Hp). lia.
    + rewrite Hlog, assigned_app. simpl.
      destruct sock; [destruct (bool_decide _)|]; done.
    + rewrite Hpe, lookup_insert_eq. by eexists.
    + done.
Qed.

Lemma request_ids_fresh_witness :
  exists s, run init [sampleRequest; SockOpen 0; sampleRequest] = Some s /\
            assigned (log s) = [1; 2] /\
            forall id, is_Some (pendingRequests s !! id) -> id < requestId s.
Proof.
  eexists. split; [by vm_compute|]. split; [by vm_compute|].
  exact (proj1 (request_ids_fresh [sampleRequest; SockOpen 0; sampleRequest] _ eq_refl)).
Defined.

(** ** The three ways a request settles *)

(** A request sent on an open socket is in flight, with its timeout due
    30000 ms later. *)
Lemma register_InFlight (m : string) (p : Json) (j : nat) (s : State) :
  WF s -> stateOf s j = Some OPEN ->
  InFlight (register m p (Some j) s) (requestId s) m (now s) (nextTimer s) /\
  ObsSend j (Mapper.wsRequestMessage m p (requestId s)) ∈ log (register m p (Some j) s).
Proof.
  intros H Hj.
  destruct (register_spec m p (Some j) s) as (_ & _ & _ & _ & _ & Hpe & Hti & _ & Hpr & Hlog).
  rewrite bool_decide_true in Hpr, Hlog by done.
  split; [repeat split|].
  - by rewrite Hpe, lookup_insert_eq.
  - by rewrite Hti, lookup_insert_eq.
  - rewrite Hpr. destruct (promises s !! requestId s) eqn:Hp; [|done].
    pose proof (wf_promises _ H _ _ Hp). lia.
  - rewrite Hlog. rewrite elem_of_app, !elem_of_cons. auto.
Qed.

Lemma TimedOut_Stable (s s' : State) (id : Z) (m : string) (T : Z) :
  WF s -> Stable s s' -> TimedOut s id m T -> TimedOut s' id m T.
Proof.
  intros H [A1 A2 A3 A4] (Hp & Hn & Ht). repeat split; auto; [|lia].
  apply A4; [|done]. by eapply wf_promises.
Qed.

(** One step that is not a response to [id], a close or [close()]: the
    request stays in flight, unless the step is its timeout. *)
Lemma step_quiet (s s' : State) (ev : Event) (id : Z) (m : string) (T : Z) (t : nat) :
  WF s -> InFlight s id m T t -> step s ev = Some s' -> settles id ev = false ->
  InFlight s' id m T t \/
  (ev = Fire t /\ TimedOut s' id m T /\ now s' = T + requestTimeout).
Proof.
  intros H Hin Hstep Hq.
  destruct ev as [m' p| |i|i|i failed code|i msg|d|t']; simpl in Hstep, Hq; try done.
  - injection Hstep as <-. left. by apply connect_Keeps.
  - destruct (stateOf s i) as [[]|]; try done. injection Hstep as <-.
    left. apply onopen_Keeps; [by apply WF_set_readyState|done].
  - destruct (stateOf s i) as [[]|]; try done. injection Hstep as <-. by left.
  - destruct (stateOf s i) as [[]|]; try done. injection Hstep as <-.
    left. apply onmessage_Keeps; [done| |done].
    destruct msg as [| |[id'|] ? ?]; try done.
    by apply bool_decide_eq_false in Hq.
  - destruct (_ && _); [|done]. injection Hstep as <-. by left.
  - destruct (timers s !! t') as [tm|] eqn:Ht'; [|done].
    destruct (Z.leb_spec (due tm) (now s)) as [Hdue|]; [|done]. injection Hstep as <-.
    destruct (decide (t' = t)) as [->|Hne]; [|left; by eapply fire_Keeps].
    right. split; [done|]. destruct Hin as (Hp & Ht & Hpr).
    rewrite Ht in Ht'. injection Ht' as <-.
    destruct (wf_timers _ H _ _ Ht) as [_ Hnow]. simpl in *.
    rewrite Hp. unfold TimedOut, settle. simpl. rewrite Hpr. simpl.
    rewrite lookup_insert_eq, lookup_delete_eq. repeat split; auto; lia.
Qed.

(** The same along a trace. *)
Lemma run_quiet (tr : list Event) (s s' : State) (id : Z) (m : string) (T : Z) (t : nat) :
  WF s -> InFlight s id m T t -> run s tr = Some s' ->
  forallb (fun ev => negb (settles id ev)) tr = true ->
  InFlight s' id m T t \/ TimedOut s' id m T.
Proof.
  revert s. induction tr as [|ev tr IH]; intros s H Hin Hrun Hq; simpl in Hrun.
  - injection Hrun as <-. by left.
  - simpl in Hq. apply andb_prop in Hq as [Hev Hq]. apply negb_true_iff in Hev.
    destruct (step s ev) as [s1|] eqn:Hstep; [|done].
    assert (H1 : WF s1) by (by eapply step_WF).
    destruct (step_quiet _ _ _ _ _ _ _ H Hin Hstep Hev) as [Hin1|(_ & Hto & _)].
    + by eapply IH.
    + right. eapply TimedOut_Stable; [exact H1|by eapply run_Stable|done].
Qed.

(** A response to [id], the close of a socket or [close()] settles a
    request in flight and removes its entry. *)
Lemma step_settles (s s' : State) (ev : Event) (id : Z) (m : string) (T : Z) (t : nat) :
  InFlight s id m T t -> step s ev = Some s' -> settles id ev = true ->
  pendingRequests s' !! id = None /\
  promises s' !! id =
    Some (match ev with
          | SockMessage _ (Response _ error result) => outcomeOf error result
          | SockClose _ _ _ => Rejected "WebSocket connection closed"
          | _ => Rejected "WebSocket transport closed"
          end).
Proof.
  intros (Hp & Ht & Hpr) Hstep Hq.
  destruct ev as [m' p| |i|i|i failed code|i msg|d|t']; simpl in Hstep, Hq; try done.
  - injection Hstep as <-.
    destruct (close_spec s) as (_ & _ & Hpe & _ & _ & _ & Hprom & _).
    by rewrite Hpe, Hprom, Hpr, Hp.
  - assert (Hs : exists s1, s' = onclose code s1 /\ promises s1 = promises s /\
                            pendingRequests s1 = pendingRequests s).
    { destruct (stateOf s i) as [[]|]; try done; injection Hstep as <-;
        (destruct failed;
         [destruct (onerror_fields i (set_readyState i CLOSED s))
            as (_ & _ & _ & Hx & Hy & _); eexists; split; [reflexivity|by rewrite Hx, Hy]
         |eexists; split; [reflexivity|done]]). }
    destruct Hs as (s1 & -> & Hx & Hy).
    destruct (onclose_spec code s1) as (_ & Hpe & _ & _ & Hprom & _).
    by rewrite Hpe, Hprom, Hx, Hy, Hpr, Hp.
  - destruct (stateOf s i) as [[]|]; try done. injection Hstep as <-.
    destruct msg as [| |[id'|] err res]; try done.
    apply bool_decide_eq_true in Hq as ->. simpl. rewrite Hp.
    unfold invoke, settle. simpl. rewrite Hpr. simpl.
    by rewrite lookup_delete_eq, lookup_insert_eq.
Qed.

(** *** Which steps send a frame *)

Lemma Silent_refl (s : State) : Silent s s.
Proof. exists []. by rewrite app_nil_r. Qed.

Lemma Silent_trans (s1 s2 s3 : State) : Silent s1 s2 -> Silent s2 s3 -> Silent s1 s3.
Proof.
  intros (l1 & H1 & F1) (l2 & H2 & F2). exists (l1 ++ l2).
  split; [by rewrite H2, H1, app_assoc|by apply Forall_app].
Qed.

Lemma Silent_same_log (s s' : State) : log s' = log s -> Silent s s'.
Proof. intros H. exists []. by rewrite app_nil_r. Qed.

Local Ltac silent :=
  first [ by (exists []; split; [simpl; by rewrite app_nil_r|constructor])
        | by (eexists [_]; split; [reflexivity|by repeat constructor]) ].

Lemma Silent_log_eq (s s1 s' : State) : Silent s s1 -> log s' = log s1 -> Silent s s'.
Proof. intros (l & Hl & Hf) H. exists l. by rewrite H. Qed.

Lemma emit_Silent (o : Obs) (s : State) : notSend o -> Silent s (emit o s).
Proof. intros H. exists [o]. split; [done|by constructor]. Qed.

Lemma continueWaiter_sends (w : Waiter) (sock : option nat) (s : State) :
  WF s -> Silent s (continueWaiter w sock s) \/ Registers s (continueWaiter w sock s).
Proof.
  intros H. destruct w as [m p|]; simpl; [right|left; apply Silent_refl].
  exists s, m, p, sock. split; [done|]. split; [apply Silent_refl|]. by split.
Qed.

Lemma failWaiter_Silent (w : Waiter) (s : State) : Silent s (failWaiter w s).
Proof. destruct w; simpl; [by apply emit_Silent|apply Silent_refl]. Qed.

Lemma checkConnection_sends (w : Waiter) (s : State) :
  WF s -> Silent s (checkConnection w s) \/ Registers s (checkConnection w s).
Proof.
  intros H. unfold checkConnection.
  destruct (wsState s) as [[]|]; auto using continueWaiter_sends;
    left; try apply failWaiter_Silent; by apply Silent_same_log.
Qed.

Lemma connect_sends (w : Waiter) (s : State) :
  WF s -> Silent s (connect w s) \/ Registers s (connect w s).
Proof.
  intros H. unfold connect.
  destruct (wsState s) as [[]|]; auto using continueWaiter_sends, checkConnection_sends;
    left; (eexists [_]; split; [reflexivity|by repeat constructor]).
Qed.

Lemma Registers_after (s s1 s' : State) :
  Silent s s1 -> now s1 = now s -> Silent s1 s' \/ Registers s1 s' ->
  Silent s s' \/ Registers s s'.
Proof.
  intros Hs Hn [H|(s0 & m & p & sock & H0 & Hs0 & Hn0 & ->)].
  - left. by eapply Silent_trans.
  - right. exists s0, m, p, sock. split; [done|].
    split; [by eapply Silent_trans|]. split; [congruence|done].
Qed.

Lemma rejectAll_Silent (e : Error) (s : State) : Silent s (rejectAll e s).
Proof.
  apply Silent_same_log.
  by destruct (rejectAll_fields e s) as (_ & _ & _ & _ & _ & _ & _ & ->).
Qed.

Lemma step_sends (s s' : State) (ev : Event) :
  WF s -> step s ev = Some s' ->
  Silent s s' \/ (Registers s s' /\ now s' = now s).
Proof.
  intros H Hstep.
  assert (Hreg : forall s1, Silent s s1 \/ Registers s s1 ->
                            Silent s s1 \/ (Registers s s1 /\ now s1 = now s)).
  { intros s1 [?|Hr]; [by left|right]. split; [done|].
    destruct Hr as (s0 & m & p & sock & _ & _ & Hn & ->).
    destruct (register_spec m p sock s0) as (_ & _ & _ & _ & -> & _). done. }
  destruct ev as [m p| |i|i|i failed code|i msg|d|t]; simpl in Hstep.
  - injection Hstep as <-. by apply Hreg, connect_sends.
  - injection Hstep as <-. left. unfold close.
    eapply Silent_log_eq;
      [|by destruct (rejectAll_fields "WebSocket transport closed"
                       (set_attempts maxReconnectAttempts
                          (set_ws None
                             match ws s with
                             | Some i =>
                                 match stateOf s i with
                                 | Some OPEN | Some CONNECTING =>
                                     emit (ObsSocketClose i 1000) (set_readyState i CLOSING s)
                                 | _ => s
                                 end
                             | None => s
                             end))) as (_ & _ & _ & _ & _ & _ & _ & ->)].
    destruct (ws s) as [i|]; [|silent].
    destruct (stateOf s i) as [[]|]; silent.
  - destruct (stateOf s i) as [[]|]; try done. injection Hstep as <-.
    apply Hreg. unfold onopen. simpl.
    destruct (alter _ i (sockets s) !! i) as [k|]; [|left; silent].
    destruct (connectSettled k); [left; silent|].
    apply (Registers_after _ (set_connectSettled i (set_attempts 0 (set_readyState i OPEN s)))).
    + silent.
    + done.
    + apply continueWaiter_sends.
      by apply WF_set_sockets, WF_set_attempts, WF_set_sockets.
  - destruct (stateOf s i) as [[]|]; try done. injection Hstep as <-.
    left. silent.
  - left.
    assert (Hs : exists s1, Silent s s1 /\ s' = onclose code s1).
    { destruct (stateOf s i) as [[]|]; try done; injection Hstep as <-;
        (destruct failed;
         [eexists; split; [|reflexivity]; unfold onerror; simpl;
          destruct (alter _ i (sockets s) !! i) as [k|]; [|silent];
          destruct (connectSettled k); [silent|];
          destruct (creator k); simpl; silent
         |eexists; split; [|reflexivity]; silent]). }
    destruct Hs as (s1 & Hs1 & ->). eapply Silent_trans; [exact Hs1|].
    unfold onclose.
    destruct (rejectAll_fields "WebSocket connection closed" (set_ws None s1))
      as (_ & _ & _ & _ & _ & _ & _ & Hlog).
    set (x := rejectAll "WebSocket connection closed" (set_ws None s1)) in *.
    clearbody x. simpl in Hlog.
    destruct (_ && _).
    + eexists [_]. split; [simpl; by rewrite Hlog|by repeat constructor].
    + exists []. split; [by rewrite app_nil_r|constructor].
  - destruct (stateOf s i) as [[]|]; try done. injection Hstep as <-.
    left. apply Silent_same_log.
    destruct msg as [| |[id|] err res]; simpl; try done.
    destruct (pendingRequests s !! id) as [h|]; [|done].
    unfold invoke, settle. destruct h; simpl; by destruct (promises s !! id).
  - destruct (_ && _); [|done]. injection Hstep as <-. left. silent.
  - destruct (timers s !! t) as [tm|] eqn:Ht; [|done].
    destruct (due tm <=? now s); [|done]. injection Hstep as <-.
    apply Hreg.
    apply (Registers_after _ (clearTimeout t s)); [silent|done|].
    { assert (H1 : WF (clearTimeout t s)) by (by apply WF_clearTimeout).
      destruct (action tm) as [id m| |w]; simpl.
      * left. apply Silent_same_log.
        destruct (pendingRequests s !! id); [|done].
        unfold settle. simpl. by destruct (promises s !! id).
      * by apply connect_sends.
      * by apply checkConnection_sends. }
Qed.

(** A frame sent by a step belongs to a request that is in flight right
    after the step, with its timeout due 30000 ms later. *)
Lemma sent_InFlight (s s' : State) (ev : Event) (j : nat) (env : Mapper.Envelope Json) :
  WF s -> step s ev = Some s' -> sentBy s s' j env ->
  exists m p t,
    env = Mapper.wsRequestMessage m p (Mapper.id env) /\
    InFlight s' (Mapper.id env) m (now s) t.
Proof.
  intros H Hstep (l & Hl & Hin).
  destruct (step_sends _ _ _ H Hstep) as [(l' & Hl' & Hf)|[(s0 & m & p & sock & H0 & Hs0 & Hn0 & ->) Hn]].
  - rewrite Hl in Hl'. apply app_inv_head in Hl'. subst l'.
    by apply (proj1 (Forall_forall _ _) Hf) in Hin.
  - destruct Hs0 as (l0 & Hl0 & Hf0).
    destruct (register_spec m p sock s0) as (_ & _ & _ & _ & _ & _ & _ & _ & _ & Hlog).
    rewrite Hlog, Hl0, <- app_assoc in Hl. apply app_inv_head in Hl. subst l.
    apply elem_of_app in Hin as [Hin|Hin].
    { by apply (proj1 (Forall_forall _ _) Hf0) in Hin. }
    apply elem_of_cons in Hin as [Hin|Hin]; [done|].
    destruct sock as [j'|]; [|by apply elem_of_nil in Hin].
    destruct (bool_decide (stateOf s0 j' = Some OPEN)) eqn:Hopen;
      [|by apply elem_of_nil in Hin].
    apply bool_decide_eq_true in Hopen.
    apply list_elem_of_singleton in Hin. injection Hin as -> ->.
    exists m, p, (nextTimer s0). split; [done|]. simpl. rewrite <- Hn0.
    by apply register_InFlight.
Qed.

(** What happens to a request in flight. *)
Lemma in_flight_settles (s1 : State) (id : Z) (m : string) (T : Z) (t : nat)
      (tr : list Event) (s2 : State) :
  WF s1 -> InFlight s1 id m T t ->
  run s1 tr = Some s2 ->
  forallb (fun ev => negb (settles id ev)) tr = true ->
  (now s2 < T + 30000 ->
     promises s2 !! id = None /\ is_Some (pendingRequests s2 !! id)) /\
  (T + 30000 < now s2 ->
     promises s2 !! id = Some (Rejected ("Request timeout for method: " +:+ m)) /\
     pendingRequests s2 !! id = None) /\
  (promises s2 !! id = None \/ TimedOut s2 id m T) /\
  (forall ev s3 tr' s4,
     promises s2 !! id = None ->
     step s2 ev = Some s3 -> run s3 tr' = Some s4 ->
     (settles id ev = true ->
        pendingRequests s3 !! id = None /\
        promises s4 !! id =
          Some (match ev with
                | SockMessage _ (Response _ error result) => outcomeOf error result
                | SockClose _ _ _ => Rejected "WebSocket connection closed"
                | _ => Rejected "WebSocket transport closed"
                end)) /\
     (ev = Fire t ->
        now s2 = T + 30000 /\
        pendingRequests s3 !! id = None /\
        promises s4 !! id = Some (Rejected ("Request timeout for method: " +:+ m)))).
Proof.
  intros H1 Hin Hrun Hq.
  assert (H2 : WF s2) by (by eapply run_WF).
  pose proof (run_quiet _ _ _ _ _ _ _ H1 Hin Hrun Hq) as Hcases.
  unfold TimedOut in *. unfold InFlight in Hcases. unfold requestTimeout in *.
  split; [|split; [|split]].
  - intros Hlt. destruct Hcases as [(Hp & Ht & Hpr)|(_ & _ & Hge)]; [|lia].
    split; [done|by eexists].
  - intros Hgt. destruct Hcases as [(Hp & Ht & Hpr)|(Hpr & Hp & _)]; [|done].
    destruct (wf_timers _ H2 _ _ Ht) as [_ Hle]. simpl in Hle. lia.
  - destruct Hcases as [(Hp & Ht & Hpr)|?]; auto.
  - intros ev s3 tr' s4 Hnone Hstep3 Hrun3.
    destruct Hcases as [Hin2|(Hpr & _)]; [|congruence].
    pose proof (run_Stable _ _ _ Hrun3) as [_ _ Hst _].
    split.
    + intros Hset. destruct (step_settles _ _ _ _ _ _ _ Hin2 Hstep3 Hset) as [Hp3 Hpr3].
      split; [done|]. by apply Hst.
    + intros ->.
      destruct (step_quiet _ _ _ _ _ _ _ H2 Hin2 Hstep3 eq_refl)
        as [(Hp & Ht & Hpr)|(_ & (Hpr & Hp & _) & Hnow)].
      * exfalso. simpl in Hstep3. destruct Hin2 as (Hp2 & Ht2 & Hpr2).
        rewrite Ht2 in Hstep3. simpl in Hstep3.
        destruct (_ <=? _); [|done]. injection Hstep3 as <-.
        simpl in Ht. rewrite Hp2 in Ht. unfold settle in Ht. simpl in Ht.
        rewrite Hpr2 in Ht. simpl in Ht. by rewrite lookup_delete_eq in Ht.
      * assert (Hn : now s3 = now s2).
        { simpl in Hstep3. destruct (timers s2 !! t) as [tm|]; [|done].
          destruct (_ <=? _); [|done]. injection Hstep3 as <-.
          by destruct (fire_Frame (action tm) (clearTimeout t s2)) as [_ -> _ _ _]. }
        unfold requestTimeout in Hnow.
        split; [lia|]. split; [done|]. by apply Hst.
Qed.



(** ** [close()] *)

(** What [close()] does achieve: once it has run, the close of a socket
    schedules no reconnect and leaves the counter at the ceiling. *)
Lemma close_suppresses_new_reconnects (s : State) (code : Z) :
  reconnectAttempts (onclose code (close s)) = 5 /\
  reconnectsScheduled (log (onclose code (close s))) = reconnectsScheduled (log s).
Proof.
  destruct (close_spec s) as (_ & Hatt & _ & _ & _ & _ & _ & _ & _ & Hrs & _).
  destruct (onclose_spec code (close s)) as (_ & _ & _ & _ & _ & Ha & Hsch & _).
  rewrite Hatt in Ha, Hsch. unfold maxReconnectAttempts in Ha, Hsch.
  change (5 <? 5) with false in Ha, Hsch.
  rewrite andb_false_r in Ha, Hsch. rewrite app_nil_r in Hsch.
  split; [done|]. by rewrite Hsch, Hrs.
Qed.

(** C3 fails on this trace.  A socket drops and [onclose] arms the
    reconnect timer 1; [close()] is called before the timer is due: it sets
    the counter to 5 and empties the map, but the timer stays armed.  When
    it fires, with no request made since [close()], [connect] creates socket
    1, and when that socket opens the counter is back at 0. *)
Theorem close_leaves_reconnect_timer_armed :
  exists sc s s',
    run init (take 5 closeThenTimerTrace) = Some sc /\
    reconnectAttempts sc = 5 /\ ws sc = None /\ pendingRequests sc = ∅ /\
    timers sc !! 1%nat = Some (mkTimer 1000 Reconnect) /\
    run sc (drop 5 closeThenTimerTrace) = Some s /\
    drop 5 closeThenTimerTrace = [Elapse 500; Fire 1] /\
    socketsCreated (log s) =
      [(0%nat, WRequest "eth_blockNumber" (JArr [])); (1%nat, WReconnect)] /\
    ws s = Some 1%nat /\ stateOf s 1 = Some CONNECTING /\
    step s (SockOpen 1) = Some s' /\ reconnectAttempts s' = 0.
Proof.
  eexists _, _, _.
  split; [vm_compute; reflexivity|].
  split; [reflexivity|]. split; [reflexivity|]. split; [by vm_compute|].
  split; [by vm_compute|].
  split; [vm_compute; reflexivity|].
  split; [reflexivity|]. split; [reflexivity|]. split; [reflexivity|].
  split; [reflexivity|].
  split; [vm_compute; reflexivity|]. reflexivity.
Qed.

End TransportFacts.

(** * The method mapper *)
Section MapperFacts.
Import Mapper.



End MapperFacts.

(** * The preconfs feed *)
Section PreconfsFacts.
Import Preconfs.

Lemma closeSocket_not_live (j : nat) (s : State) (r : ReadyState) :
  stateOf (closeSocket j s) j = Some r -> r = CLOSING \/ r = CLOSED.
Proof.
  unfold closeSocket, stateOf. simpl.
  destruct (sockets s !! j) as [[]|] eqn:Hj; simpl; rewrite ?Hj;
    rewrite ?list_lookup_insert_eq by (by eapply lookup_lt_Some);
    intros [= <-]; auto.
Qed.

(** When the field holds the socket, removing the only listener closes
    that socket and clears the field and the flag, and the next listener
    gets a new socket. *)
Lemma unsubscribe_last_closes_referenced_socket (s : State) (c c' j : nat) :
  preconfsCallbacks s = [c] -> preconfsWebSocket s = Some j ->
  preconfsWebSocket (unsubscribe c s) = None /\
  preconfsConnected (unsubscribe c s) = false /\
  ObsSocketClose j ∈ log (unsubscribe c s) /\
  (forall r, stateOf (unsubscribe c s) j = Some r -> r = CLOSING \/ r = CLOSED) /\
  opened (subscribeToPreconfs c' (unsubscribe c s)) = S (opened (unsubscribe c s)).
Proof.
  intros Hc Hw. unfold unsubscribe. simpl. rewrite Hc, Hw.
  assert (Hd : setDelete c [c] = []).
  { unfold setDelete. rewrite filter_cons_False; [done|]. intros H. by apply H. }
  rewrite Hd.
  repeat split.
  - apply elem_of_app. right. by apply list_elem_of_singleton.
  - apply closeSocket_not_live.
  - unfold subscribeToPreconfs, wsState, initializePreconfsConnection, opened. simpl.
    rewrite length_app. simpl. lia.
Qed.

(** While the field holds a connecting or open socket, a new listener
    makes no socket. *)
Lemma subscribe_reuses_referenced_socket (s : State) (c : nat) :
  wsState s = Some CONNECTING \/ wsState s = Some OPEN ->
  opened (subscribeToPreconfs c s) = opened s.
Proof. unfold subscribeToPreconfs. by intros [-> | ->]. Qed.

(** C6 fails on [remountTrace].  The close event of the first socket
    arrives after the second socket was made, and [onclose] clears the
    field that by then holds the second socket.  The second socket opens
    (no subscribe message is sent, the field being empty); removing the
    last listener then closes nothing: the second socket stays open and
    the connected flag stays set.  A listener registered afterwards makes
    a third socket while the second is still open. *)
Theorem remount_leaves_feed_open :
  run init remountTrace = Some afterRemount /\
  preconfsCallbacks afterRemount = [] /\
  stateOf afterRemount 1 = Some OPEN /\
  preconfsConnected afterRemount = true /\
  (ObsSocketClose 1 ∉ log afterRemount) /\
  (ObsSubscribeSent 1 ∉ log afterRemount) /\
  step afterRemount (Subscribe 2) = Some afterResubscribe /\
  liveSockets afterResubscribe = [1; 2]%nat.
Proof.
  split; [vm_compute; reflexivity|].
  split; [reflexivity|]. split; [reflexivity|]. split; [reflexivity|].
  split.
  { intros H. vm_compute in H.
    repeat (apply elem_of_cons in H as [H|H]; [done|]). by apply elem_of_nil in H. }
  split.
  { intros H. vm_compute in H.
    repeat (apply elem_of_cons in H as [H|H]; [done|]). by apply elem_of_nil in H. }
  split; vm_compute; reflexivity.
Qed.

End PreconfsFacts.

(** * Further properties of the WebSocket transport *)
Section TransportMore.
Import Transport.

(** ** [close()] and the pending requests *)

Lemma rejectFold_cleared (e : Error) (l : list (Z * option nat)) (s : State) (t : nat) :
  Some t ∈ l.*2 ->
  timers (foldr (fun entry acc => invoke entry.1 entry.2 (Rejected e) acc) s l) !! t = None.
Proof.
  induction l as [|[id1 h1] l IH]; simpl; [by intros ?%elem_of_nil|].
  intros Hin. set (x := foldr _ s l) in *.
  assert (Hsub : forall h, timers x !! t = None ->
                           timers (invoke id1 h (Rejected e) x) !! t = None).
  { intros h Hx. unfold invoke, settle. destruct h as [t1|]; simpl;
      destruct (promises x !! id1); simpl; auto;
      apply lookup_delete_None; auto. }
  apply elem_of_cons in Hin as [<-|Hin]; [|by apply Hsub, IH].
  unfold invoke, settle. simpl. destruct (promises x !! id1); simpl;
    by rewrite lookup_delete_eq.
Qed.

(** X1.  [close()], in any state: the variable is cleared, the counter is at
    the ceiling, the map is empty; every request that was pending and
    unsettled is rejected with the closed-transport error and its timeout
    is disarmed; settled promises and promises of ids that were not pending
    are untouched; and a referenced socket that was open or connecting is
    closed with code 1000. *)
Theorem close_rejects_every_pending_request (s : State) :
  ws (close s) = None /\
  reconnectAttempts (close s) = 5 /\
  pendingRequests (close s) = ∅ /\
  (forall id, is_Some (pendingRequests s !! id) -> promises s !! id = None ->
     promises (close s) !! id = Some (Rejected "WebSocket transport closed")) /\
  (forall id o, promises s !! id = Some o -> promises (close s) !! id = Some o) /\
  (forall id, pendingRequests s !! id = None ->
     promises (close s) !! id = promises s !! id) /\
  (forall id t, pendingRequests s !! id = Some (Some t) -> timers (close s) !! t = None) /\
  (forall i, ws s = Some i ->
     stateOf s i = Some OPEN \/ stateOf s i = Some CONNECTING ->
     stateOf (close s) i = Some CLOSING /\
     log (close s) = log s ++ [ObsSocketClose i 1000]).
Proof.
  destruct (close_spec s) as (Hws & Hatt & Hpe & _ & _ & _ & Hpr & _ & Hcl & _).
  split; [done|]. split; [done|]. split; [done|].
  split; [|split; [|split; [|split]]].
  - intros id [h Hh] Hn. by rewrite Hpr, Hn, Hh.
  - intros id o Ho. by rewrite Hpr, Ho.
  - intros id Hn. rewrite Hpr, Hn. by destruct (promises s !! id).
  - intros id t Hp. unfold close, rejectAll. simpl.
    apply rejectFold_cleared.
    assert (Hsame : forall s1 : State, pendingRequests s1 = pendingRequests s ->
              Some t ∈ (map_to_list (pendingRequests s1)).*2).
    { intros s1 ->. apply list_elem_of_fmap. exists (id, Some t).
      split; [done|]. by apply elem_of_map_to_list. }
    apply Hsame. destruct (ws s) as [i|]; [|done].
    by destruct (stateOf s i) as [[]|].
  - done.
Qed.

Lemma close_rejects_every_pending_request_witness :
  promises (close afterRequest) !! 2 = Some (Rejected "WebSocket transport closed").
Proof.
  exact (proj1 (proj2 (proj2 (proj2 (close_rejects_every_pending_request afterRequest)))) 2
               ltac:(exists (Some 1%nat); vm_compute; reflexivity)
               ltac:(vm_compute; reflexivity)).
Defined.

(** ** A settled promise stays settled *)

(** X2.  Along any trace, from any state: once the promise of a request id is
    resolved or rejected, no later response, close, timeout or [close()]
    changes its outcome, and the id never returns to the map once it is
    retired. *)
Theorem promise_settles_once (tr : list Event) (s s' : State) (id : Z) (o : Outcome) :
  run s tr = Some s' ->
  promises s !! id = Some o ->
  promises s' !! id = Some o /\
  (id < requestId s -> pendingRequests s !! id = None -> pendingRequests s' !! id = None).
Proof.
  intros Hrun Ho. destruct (run_Stable _ _ _ Hrun) as [_ _ Hp Hq]. split; auto.
Qed.

Lemma promise_settles_once_witness :
  promises (default init (run afterDrop [sampleRequest; SockOpen 1;
                                         SockMessage 1 (Response (Some 1) None JNull)])) !! 1
  = Some (Rejected "WebSocket connection closed").
Proof.
  exact (proj1 (promise_settles_once
                  [sampleRequest; SockOpen 1; SockMessage 1 (Response (Some 1) None JNull)]
                  afterDrop _ 1 (Rejected "WebSocket connection closed")
                  ltac:(vm_compute; reflexivity) ltac:(vm_compute; reflexivity))).
Defined.

(** ** Timeouts in reachable states *)

(** X3.  In every reachable state the timeouts match the pending requests.  The
    handle the stored handlers of a pending request clear is that of the
    request's own timeout; a timeout timer belongs to an id that was handed
    out and, while the id is pending, it is the timer the stored handlers
    clear, so a request has at most one timeout; only ids that were handed
    out have a settled promise; and the retry counter stays between 0 and
    5. *)
Theorem timeouts_match_pending_requests (tr : list Event) (s : State) :
  run init tr = Some s ->
  0 <= reconnectAttempts s <= 5 /\
  (forall id t tm, pendingRequests s !! id = Some (Some t) -> timers s !! t = Some tm ->
     exists m, action tm = TimeoutReq id m) /\
  (forall t tm id m, timers s !! t = Some tm -> action tm = TimeoutReq id m ->
     id < requestId s /\
     forall h, pendingRequests s !! id = Some h -> h = Some t) /\
  (forall t1 t2 tm1 tm2 id m1 m2,
     timers s !! t1 = Some tm1 -> action tm1 = TimeoutReq id m1 ->
     timers s !! t2 = Some tm2 -> action tm2 = TimeoutReq id m2 ->
     is_Some (pendingRequests s !! id) -> t1 = t2) /\
  (forall id o, promises s !! id = Some o -> id < requestId s).
Proof.
  intros Hrun. assert (H : WF s) by (eapply run_WF; eauto using WF_init).
  split; [apply (wf_attempts _ H)|]. split; [|split; [|split]].
  - intros id t tm Hp Ht. destruct (wf_handles _ H _ _ Hp) as [_ Hh]. by apply Hh.
  - intros t tm id m Ht Ha. by apply (wf_timeouts _ H t tm id m).
  - intros t1 t2 tm1 tm2 id m1 m2 H1 A1 H2 A2 [h Hh].
    destruct (wf_timeouts _ H _ _ _ _ H1 A1) as [_ X1].
    destruct (wf_timeouts _ H _ _ _ _ H2 A2) as [_ X2].
    specialize (X1 _ Hh). specialize (X2 _ Hh). congruence.
  - intros id o Ho. by eapply wf_promises.
Qed.

Lemma timeouts_match_pending_requests_witness :
  exists m, action (mkTimer 30000 (TimeoutReq 2 "eth_blockNumber")) = TimeoutReq 2 m.
Proof.
  exact (proj1 (proj2 (timeouts_match_pending_requests
                         [sampleRequest; SockOpen 0; sampleRequest] afterRequest
                         ltac:(vm_compute; reflexivity)))
               2 1%nat (mkTimer 30000 (TimeoutReq 2 "eth_blockNumber"))
               ltac:(vm_compute; reflexivity) ltac:(vm_compute; reflexivity)).
Defined.

(** ** The retry counter and the reconnect schedule *)

Lemma failWaiter_attempts (w : Waiter) (s : State) :
  reconnectAttempts (failWaiter w s) = reconnectAttempts s.
Proof. by destruct w. Qed.

Lemma checkConnection_attempts (w : Waiter) (s : State) :
  reconnectAttempts (checkConnection w s) = reconnectAttempts s.
Proof.
  unfold checkConnection. destruct (wsState s) as [[]|]; simpl;
    auto using continueWaiter_attempts, failWaiter_attempts.
Qed.

Lemma connect_attempts (w : Waiter) (s : State) :
  reconnectAttempts (connect w s) = reconnectAttempts s.
Proof.
  unfold connect. destruct (wsState s) as [[]|]; simpl;
    auto using continueWaiter_attempts, checkConnection_attempts.
Qed.

Lemma invoke_attempts (id : Z) (h : option nat) (o : Outcome) (s : State) :
  reconnectAttempts (invoke id h o s) = reconnectAttempts s.
Proof.
  unfold invoke, settle. destruct h; simpl; by destruct (promises s !! id).
Qed.

Lemma onmessage_attempts (msg : Incoming) (s : State) :
  reconnectAttempts (onmessage msg s) = reconnectAttempts s.
Proof.
  destruct msg as [| |[id|] e r]; simpl; try done.
  destruct (pendingRequests s !! id); [|done]. by rewrite invoke_attempts.
Qed.

Lemma fire_attempts (a : TimerAction) (s : State) :
  reconnectAttempts (fire a s) = reconnectAttempts s.
Proof.
  destruct a as [id m| |w]; simpl.
  - destruct (pendingRequests s !! id); [|done].
    unfold settle. simpl. by destruct (promises s !! id).
  - apply connect_attempts.
  - apply checkConnection_attempts.
Qed.

(** What one step does to the counter and to the schedule. *)
Lemma step_counter (s s' : State) (ev : Event) :
  step s ev = Some s' ->
  let again := closesAbnormally ev && (reconnectAttempts s <? 5) in
  reconnectAttempts s' =
    match ev with
    | SockOpen _ => 0
    | Close => 5
    | _ => if again then reconnectAttempts s + 1 else reconnectAttempts s
    end /\
  reconnectsScheduled (log s') =
    reconnectsScheduled (log s) ++ (if again then [1000 * (reconnectAttempts s + 1)] else []).
Proof.
  intros Hstep again. subst again.
  destruct ev as [m p| |i|i|i failed code|i msg|d|t]; simpl in *;
    rewrite ?app_nil_r.
  - injection Hstep as <-. split; [apply connect_attempts|apply frame_scheduled, connect_Frame].
  - injection Hstep as <-.
    destruct (close_spec s) as (_ & Hatt & _ & _ & _ & _ & _ & _ & _ & Hrs & _). done.
  - destruct (stateOf s i) as [[]|]; try done. injection Hstep as <-.
    split; [apply onopen_attempts|].
    etrans; [apply frame_scheduled, onopen_Frame|done].
  - destruct (stateOf s i) as [[]|]; try done. by injection Hstep as <-.
  - assert (Hs : exists s1, s' = onclose code s1 /\
                   reconnectAttempts s1 = reconnectAttempts s /\
                   reconnectsScheduled (log s1) = reconnectsScheduled (log s)).
    { exists (if failed then onerror i (set_readyState i CLOSED s)
              else set_readyState i CLOSED s).
      split; [destruct (stateOf s i) as [[]|]; try done; by injection Hstep as <-|].
      destruct failed; [|done].
      destruct (onerror_fields i (set_readyState i CLOSED s)) as (-> & _).
      split; [done|]. etrans; [apply frame_scheduled, onerror_Frame|done]. }
    destruct Hs as (s1 & -> & Ha & Hl).
    destruct (onclose_spec code s1) as (_ & _ & _ & _ & _ & Hatt & Hsch & _).
    unfold maxReconnectAttempts, reconnectDelay in *. rewrite Ha, Hl in *. done.
  - destruct (stateOf s i) as [[]|]; try done. injection Hstep as <-.
    split; [apply onmessage_attempts|apply frame_scheduled, onmessage_Frame].
  - destruct (_ && _); [|done]. by injection Hstep as <-.
  - destruct (timers s !! t) as [tm|]; [|done].
    destruct (due tm <=? now s); [|done]. injection Hstep as <-.
    split; [by rewrite fire_attempts|].
    etrans; [apply frame_scheduled, fire_Frame|done].
Qed.

Lemma abnormalCloses_nonneg (tr : list Event) : 0 <= abnormalCloses tr.
Proof. induction tr as [|ev tr IH]; simpl; [done|]. destruct (closesAbnormally ev); lia. Qed.

(** X4.  Between two opens the reconnects back off linearly and give up after
    the fifth.  Along a trace in which no socket opens and [close()] is not
    called, from a state whose counter [a] is at most 5: the counter ends at
    [min 5 (a + k)], where [k] is the number of closes with a code other
    than 1000, and the reconnects scheduled are exactly those with the
    delays [1000 * (a + 1)], ..., [1000 * min 5 (a + k)], in this order. *)
Theorem reconnects_back_off_linearly (tr : list Event) (s s' : State) :
  run s tr = Some s' ->
  forallb (fun ev => negb (resetsCounter ev)) tr = true ->
  reconnectAttempts s <= 5 ->
  let a := reconnectAttempts s in
  let a' := Z.min 5 (a + abnormalCloses tr) in
  reconnectAttempts s' = a' /\
  reconnectsScheduled (log s') =
    reconnectsScheduled (log s) ++ ((fun k => 1000 * k) <$> seqZ (a + 1) (a' - a)).
Proof.
  revert s. induction tr as [|ev tr IH]; intros s Hrun Hquiet Hle; simpl in *.
  - injection Hrun as <-. rewrite Z.add_0_r, Z.min_r by lia.
    by rewrite Z.sub_diag, app_nil_r.
  - destruct (step s ev) as [s1|] eqn:Hstep; [|done].
    apply andb_true_iff in Hquiet as [Hev Hquiet].
    destruct (step_counter _ _ _ Hstep) as [Ha Hl].
    pose proof (abnormalCloses_nonneg tr) as Hk.
    assert (Ha1 : reconnectAttempts s1 =
                  if closesAbnormally ev && (reconnectAttempts s <? 5)
                  then reconnectAttempts s + 1 else reconnectAttempts s)
      by (by destruct ev).
    clear Ha.
    destruct (closesAbnormally ev) eqn:Hab; simpl in Ha1, Hl.
    + destruct (Z.ltb_spec (reconnectAttempts s) 5) as [Hlt|Hge].
      * destruct (IH s1 Hrun Hquiet ltac:(lia)) as [IHa IHl].
        rewrite Ha1 in IHa, IHl.
        replace (reconnectAttempts s + 1 + abnormalCloses tr)
          with (reconnectAttempts s + (1 + abnormalCloses tr)) in IHa, IHl by lia.
        split; [done|]. rewrite IHl, Hl, <- app_assoc. f_equal.
        set (a' := Z.min 5 (reconnectAttempts s + (1 + abnormalCloses tr))).
        rewrite (seqZ_cons (reconnectAttempts s + 1) (a' - reconnectAttempts s))
          by (subst a'; lia).
        simpl. f_equal. unfold fmap. f_equal. f_equal; lia.
      * destruct (IH s1 Hrun Hquiet ltac:(lia)) as [IHa IHl].
        rewrite Ha1 in IHa, IHl. rewrite IHa, IHl, Hl, app_nil_r.
        rewrite !Z.min_l by lia. done.
    + destruct (IH s1 Hrun Hquiet ltac:(lia)) as [IHa IHl].
      rewrite Ha1 in IHa, IHl. rewrite IHa, IHl, Hl, app_nil_r. done.
Qed.

Lemma reconnects_back_off_linearly_witness :
  reconnectAttempts (default init (run afterOpen repeatedDrops)) = 5 /\
  reconnectsScheduled (log (default init (run afterOpen repeatedDrops))) =
    [1000; 2000; 3000; 4000; 5000].
Proof.
  exact (reconnects_back_off_linearly repeatedDrops afterOpen _
           ltac:(vm_compute; reflexivity) ltac:(vm_compute; reflexivity)
           ltac:(vm_compute; discriminate)).
Defined.

Lemma run_counter_ceiling (tr : list Event) (s s' : State) :
  run s tr = Some s' ->
  forallb (fun ev => match ev with SockOpen _ => false | _ => true end) tr = true ->
  reconnectAttempts s = 5 ->
  reconnectAttempts s' = 5 /\
  reconnectsScheduled (log s') = reconnectsScheduled (log s).
Proof.
  revert s. induction tr as [|ev tr IH]; intros s Hrun Hquiet H5; simpl in *.
  - by injection Hrun as <-.
  - destruct (step s ev) as [s1|] eqn:Hstep; [|done].
    apply andb_true_iff in Hquiet as [Hev Hquiet].
    destruct (step_counter _ _ _ Hstep) as [Ha Hl].
    rewrite H5 in Ha, Hl. change (5 <? 5) with false in Ha, Hl.
    rewrite andb_false_r, app_nil_r in *.
    destruct (IH s1 Hrun Hquiet) as [IHa IHl]; [by destruct ev|].
    split; [done|]. by rewrite IHl.
Qed.

(** X5.  After [close()] no reconnect is scheduled for as long as no socket
    opens: whatever closes, fails, arrives or times out, and however often
    [close()] is called again, the counter stays at 5 and the reconnect
    schedule stays as it was. *)
Theorem close_stops_reconnects_until_next_open (tr : list Event) (s s' : State) :
  run (close s) tr = Some s' ->
  forallb (fun ev => match ev with SockOpen _ => false | _ => true end) tr = true ->
  reconnectAttempts s' = 5 /\
  reconnectsScheduled (log s') = reconnectsScheduled (log s).
Proof.
  intros Hrun Hquiet.
  destruct (close_spec s) as (_ & Hatt & _ & _ & _ & _ & _ & _ & _ & Hrs & _).
  destruct (run_counter_ceiling _ _ _ Hrun Hquiet Hatt) as [Ha Hl].
  split; [done|]. by rewrite Hl.
Qed.

Lemma close_stops_reconnects_until_next_open_witness :
  reconnectsScheduled
    (log (default init (run (close afterOpen) [SockClose 0 false 1006; sampleRequest;
                                               SockClose 1 true 1006]))) =
  reconnectsScheduled (log afterOpen).
Proof.
  exact (proj2 (close_stops_reconnects_until_next_open
                  [SockClose 0 false 1006; sampleRequest; SockClose 1 true 1006]
                  afterOpen _ ltac:(vm_compute; reflexivity) ltac:(vm_compute; reflexivity))).
Defined.

(** ** Which calls of [connect] make a socket *)

Lemma register_socketsCreated (m : string) (p : Json) (sock : option nat) (s : State) :
  socketsCreated (log (register m p sock s)) = socketsCreated (log s).
Proof.
  destruct (register_spec m p sock s) as (_ & _ & _ & _ & _ & _ & _ & _ & _ & ->).
  rewrite socketsCreated_app. simpl.
  destruct sock; [destruct (bool_decide _)|]; simpl; by rewrite app_nil_r.
Qed.

Lemma continueWaiter_sockets (w : Waiter) (sock : option nat) (s : State) :
  socketsCreated (log (continueWaiter w sock s)) = socketsCreated (log s) /\
  ws (continueWaiter w sock s) = ws s /\ sockets (continueWaiter w sock s) = sockets s.
Proof.
  destruct w as [m p|]; simpl; [|done].
  split; [apply register_socketsCreated|].
  by destruct (register_spec m p sock s) as (-> & -> & _).
Qed.

Lemma failWaiter_sockets (w : Waiter) (s : State) :
  socketsCreated (log (failWaiter w s)) = socketsCreated (log s) /\
  ws (failWaiter w s) = ws s /\ sockets (failWaiter w s) = sockets s.
Proof.
  destruct w as [m p|]; simpl; [|done].
  by rewrite socketsCreated_app, app_nil_r.
Qed.

Lemma checkConnection_sockets (w : Waiter) (s : State) :
  socketsCreated (log (checkConnection w s)) = socketsCreated (log s) /\
  ws (checkConnection w s) = ws s /\ sockets (checkConnection w s) = sockets s.
Proof.
  unfold checkConnection. destruct (wsState s) as [[]|]; simpl;
    auto using continueWaiter_sockets, failWaiter_sockets.
Qed.

(** X6.  [connect], whoever calls it (a request or the reconnect timer), makes
    a socket exactly when the variable [ws] holds no socket that is open or
    connecting.  The new socket gets the next index and is connecting, the
    variable refers to it, the sockets made before keep their state, and no
    request id is handed out; otherwise the variable and the sockets stay as
    they are. *)
Theorem connect_makes_socket_only_without_live_one (w : Waiter) (s : State) :
  let live := bool_decide (wsState s = Some OPEN \/ wsState s = Some CONNECTING) in
  let j := length (sockets s) in
  let s' := connect w s in
  socketsCreated (log s') = socketsCreated (log s) ++ (if live then [] else [(j, w)]) /\
  (live = true -> ws s' = ws s /\ sockets s' = sockets s) /\
  (live = false ->
     ws s' = Some j /\ stateOf s' j = Some CONNECTING /\
     (forall i, (i < j)%nat -> stateOf s' i = stateOf s i) /\
     requestId s' = requestId s /\ pendingRequests s' = pendingRequests s /\
     timers s' = timers s /\ promises s' = promises s).
Proof.
  intros live j s'. subst live j s'. unfold connect.
  destruct (wsState s) as [[]|] eqn:Hw;
    [rewrite bool_decide_true by auto
    |rewrite bool_decide_true by auto
    |rewrite bool_decide_false by (intros [|]; done)..]; cbn beta iota zeta.
  3-5: simpl; rewrite socketsCreated_app; simpl;
       split; [done|]; split; [done|]; intros _;
       unfold stateOf; simpl; rewrite lookup_app_r, Nat.sub_diag by done;
       repeat split; try done; intros i Hi; by rewrite lookup_app_l.
  - rewrite app_nil_r.
    destruct (checkConnection_sockets w s) as (? & ? & ?). done.
  - rewrite app_nil_r.
    destruct (continueWaiter_sockets w (ws s) s) as (? & ? & ?). done.
Qed.

Lemma connect_makes_socket_only_without_live_one_witness :
  sockets (connect (WRequest "eth_call" JNull) afterOpen) = sockets afterOpen /\
  ws (connect (WRequest "eth_call" JNull) afterDrop) = Some 1%nat.
Proof.
  split.
  - exact (proj2 (proj1 (proj2 (connect_makes_socket_only_without_live_one
                                  (WRequest "eth_call" JNull) afterOpen))
                        ltac:(vm_compute; reflexivity))).
  - exact (proj1 (proj2 (proj2 (connect_makes_socket_only_without_live_one
                                  (WRequest "eth_call" JNull) afterDrop))
                        ltac:(vm_compute; reflexivity))).
Defined.

(** ** Sockets the variable no longer refers to *)

Lemma onclose_sockets (code : Z) (s : State) : sockets (onclose code s) = sockets s.
Proof.
  unfold onclose.
  destruct (rejectAll_fields "WebSocket connection closed" (set_ws None s))
    as (_ & Hso & _).
  destruct (_ && _); simpl; done.
Qed.

Lemma onerror_states (i j : nat) (s : State) : stateOf (onerror i s) j = stateOf s j.
Proof.
  unfold onerror. destruct (sockets s !! i) as [k|] eqn:Hk; [|done].
  destruct (connectSettled k); [done|].
  destruct (failWaiter_sockets (creator k) (set_connectSettled i s)) as (_ & _ & Hso).
  unfold stateOf. rewrite Hso. simpl.
  destruct (decide (i = j)) as [->|Hne].
  - rewrite list_lookup_alter_eq, Hk. done.
  - by rewrite list_lookup_alter_ne.
Qed.

Lemma set_readyState_other (i j : nat) (r : ReadyState) (s : State) :
  j <> i -> stateOf (set_readyState i r s) j = stateOf s j.
Proof. intros Hne. unfold stateOf. simpl. by rewrite list_lookup_alter_ne. Qed.

(** X7.  [onclose] does not look at which socket closed.  When any socket that
    is not yet closed closes, also one the variable [ws] no longer refers
    to, the variable is cleared and every pending request is rejected with
    the connection-closed error, whichever socket it was sent on; the other
    sockets keep their state. *)
Theorem close_of_any_socket_rejects_all_requests
        (s : State) (i : nat) (r : ReadyState) (failed : bool) (code : Z) :
  stateOf s i = Some r -> r <> CLOSED ->
  exists s', step s (SockClose i failed code) = Some s' /\
    ws s' = None /\ pendingRequests s' = ∅ /\
    (forall id, is_Some (pendingRequests s !! id) -> promises s !! id = None ->
       promises s' !! id = Some (Rejected "WebSocket connection closed")) /\
    (forall j, j <> i -> stateOf s' j = stateOf s j).
Proof.
  intros Hi Hr.
  set (s1 := if failed then onerror i (set_readyState i CLOSED s)
             else set_readyState i CLOSED s).
  exists (onclose code s1). split.
  { simpl. rewrite Hi. by destruct r. }
  assert (H1 : pendingRequests s1 = pendingRequests s /\ promises s1 = promises s /\
               forall j, j <> i -> stateOf s1 j = stateOf s j).
  { subst s1. destruct failed.
    - destruct (onerror_fields i (set_readyState i CLOSED s)) as (_ & _ & _ & -> & -> & _).
      repeat split. intros j Hj. by rewrite onerror_states, set_readyState_other.
    - repeat split. intros j Hj. by rewrite set_readyState_other. }
  destruct H1 as (Hpe & Hpr & Hst).
  destruct (onclose_spec code s1) as (Hws & Hem & _ & _ & Hprom & _).
  split; [done|]. split; [done|]. split.
  - intros id [h Hh] Hn. by rewrite Hprom, Hpr, Hn, Hpe, Hh.
  - intros j Hj. unfold stateOf. rewrite onclose_sockets. by apply Hst.
Qed.

Lemma close_of_any_socket_rejects_all_requests_witness :
  exists s', step withStaleSocket (SockClose 0 false 1000) = Some s' /\
    promises s' !! 2 = Some (Rejected "WebSocket connection closed") /\
    stateOf s' 1 = Some OPEN.
Proof.
  destruct (close_of_any_socket_rejects_all_requests withStaleSocket 0 CLOSING false 1000
              ltac:(vm_compute; reflexivity) ltac:(done))
    as (s' & Hstep & _ & _ & Hrej & Hother).
  exists s'. split; [exact Hstep|]. split.
  - apply Hrej; [exists (Some 1%nat)|]; vm_compute; reflexivity.
  - rewrite (Hother 1%nat) by done. vm_compute; reflexivity.
Defined.

(** X8.  [onopen] resolves the connect promise with the variable [ws], not with
    the socket that opened.  When a socket made for a request opens while
    the variable does not refer to an open socket, the request takes the
    next id and is rejected at once and nothing is sent.  If the variable
    was cleared (another socket closed meanwhile), the rejection is the
    error of reading [readyState] of [null], no timeout is armed and the
    entry stored under the id stays in the map.  If the variable refers to
    a later socket that is not open, the rejection is the not-open error,
    and the entry is stored again with a 30 s timeout although the promise
    is settled. *)
Theorem open_of_unreferenced_socket_rejects_its_request
        (s : State) (i : nat) (m : string) (p : Json) :
  WF s ->
  sockets s !! i = Some (mkSocket CONNECTING (WRequest m p) false) ->
  ws s <> Some i ->
  (forall j, ws s = Some j -> stateOf s j <> Some OPEN) ->
  exists s', step s (SockOpen i) = Some s' /\
    ws s' = ws s /\ stateOf s' i = Some OPEN /\ requestId s' = requestId s + 1 /\
    log s' = log s ++ [ObsRegistered (requestId s) m p] /\
    (ws s = None ->
       promises s' !! requestId s =
         Some (Rejected "Cannot read properties of null (reading 'readyState')") /\
       pendingRequests s' = <[requestId s := None]> (pendingRequests s) /\
       timers s' = timers s) /\
    (is_Some (ws s) ->
       promises s' !! requestId s = Some (Rejected "WebSocket is not open") /\
       pendingRequests s' = <[requestId s := Some (nextTimer s)]> (pendingRequests s) /\
       timers s' = <[nextTimer s := mkTimer (now s + 30000) (TimeoutReq (requestId s) m)]>
                     (timers s)).
Proof.
  intros H Hi Hne Hnot. eexists. split.
  { simpl. unfold stateOf. rewrite Hi. simpl. reflexivity. }
  unfold onopen. simpl. rewrite list_lookup_alter_eq, Hi. simpl.
  match goal with |- context [register m p ?k ?x] => set (s0 := x) end.
  destruct (register_spec m p (ws s) s0)
    as (Hw & Hso & Hrid & _ & _ & Hpe & Hti & _ & Hpr & Hlog).
  assert (Hfresh : promises s !! requestId s = None).
  { destruct (promises s !! requestId s) as [o|] eqn:Ho; [|done].
    pose proof (wf_promises _ H _ _ Ho). lia. }
  assert (Hsent : match ws s with
                  | Some j => bool_decide (stateOf s0 j = Some OPEN)
                  | None => false
                  end = false).
  { destruct (ws s) as [j|] eqn:Hj; [|done]. apply bool_decide_eq_false.
    assert (Hji : j <> i) by congruence.
    subst s0. unfold stateOf. simpl. rewrite !list_lookup_alter_ne by done.
    by apply Hnot. }
  rewrite Hsent in Hpr, Hlog.
  split; [by rewrite Hw|]. split.
  { unfold stateOf. rewrite Hso. subst s0. simpl.
    by rewrite !list_lookup_alter_eq, Hi. }
  split; [by rewrite Hrid|]. split.
  { rewrite Hlog. by destruct (ws s). }
  change (promises s0) with (promises s) in Hpr. change (requestId s0) with (requestId s) in *.
  rewrite Hfresh in Hpr.
  split.
  - intros Hn. rewrite Hn in *. rewrite Hpr, Hpe, Hti. by rewrite lookup_insert_eq.
  - intros [j Hj]. rewrite Hj in *. rewrite Hpr, Hpe, Hti. by rewrite lookup_insert_eq.
Qed.

Lemma open_of_unreferenced_socket_rejects_its_request_witness :
  (exists s', step withOrphanSocket (SockOpen 1) = Some s' /\
     promises s' !! 2 =
       Some (Rejected "Cannot read properties of null (reading 'readyState')") /\
     pendingRequests s' !! 2 = Some None) /\
  (exists s', step withSupersededSocket (SockOpen 1) = Some s' /\
     promises s' !! 2 = Some (Rejected "WebSocket is not open") /\
     pendingRequests s' !! 2 = Some (Some 1%nat)).
Proof.
  split.
  - destruct (open_of_unreferenced_socket_rejects_its_request withOrphanSocket 1
                "eth_blockNumber" (JArr [])
                (run_WF orphanTrace init _ ltac:(vm_compute; reflexivity) WF_init)
                ltac:(vm_compute; reflexivity) ltac:(vm_compute; discriminate)
                ltac:(vm_compute; discriminate))
      as (s' & Hstep & _ & _ & _ & _ & Hnull & _).
    exists s'. split; [exact Hstep|].
    destruct (Hnull ltac:(vm_compute; reflexivity)) as (Hpr & Hpe & _).
    split; [exact Hpr|]. rewrite Hpe. apply lookup_insert_eq.
  - destruct (open_of_unreferenced_socket_rejects_its_request withSupersededSocket 1
                "eth_blockNumber" (JArr [])
                (run_WF supersededTrace init _ ltac:(vm_compute; reflexivity) WF_init)
                ltac:(vm_compute; reflexivity) ltac:(vm_compute; discriminate)
                ltac:(intros j Hj; vm_compute in Hj; injection Hj as <-;
                      vm_compute; discriminate))
      as (s' & Hstep & _ & _ & _ & _ & _ & Hsome).
    exists s'. split; [exact Hstep|].
    destruct (Hsome ltac:(vm_compute; eauto)) as (Hpr & Hpe & _).
    split; [exact Hpr|]. rewrite Hpe. apply lookup_insert_eq.
Defined.

(** ** A connection that fails *)

(** X9.  When the connection of a socket made for a request fails (the browser
    fires [error], then [close]), the request is rejected with the
    connection-failed error without getting an id, and the close schedules
    a reconnect under the usual policy. *)
Theorem failed_connection_rejects_waiting_request
        (s : State) (i : nat) (r : ReadyState) (m : string) (p : Json) (code : Z) :
  sockets s !! i = Some (mkSocket r (WRequest m p) false) -> r <> CLOSED ->
  exists s', step s (SockClose i true code) = Some s' /\
    requestId s' = requestId s /\
    log s' = log s ++
      ObsRequestFailed m "WebSocket connection failed: Error: WebSocket connection failed" ::
      (if bool_decide (code <> 1000) && (reconnectAttempts s <? 5)
       then [ObsReconnectScheduled (1000 * (reconnectAttempts s + 1))] else []).
Proof.
  intros Hi Hr. eexists. split.
  { simpl. unfold stateOf. rewrite Hi. simpl. by destruct r. }
  unfold onerror. simpl. rewrite list_lookup_alter_eq, Hi. simpl.
  match goal with |- context [onclose code ?x] => set (s1 := x) end.
  unfold onclose.
  destruct (rejectAll_fields "WebSocket connection closed" (set_ws None s1))
    as (_ & _ & Hrid & Hatt & _ & _ & _ & Hlog).
  change (reconnectAttempts (set_ws None s1)) with (reconnectAttempts s) in Hatt.
  set (x := rejectAll "WebSocket connection closed" (set_ws None s1)) in *.
  clearbody x. rewrite Hatt. unfold maxReconnectAttempts, reconnectDelay.
  destruct (_ && _); simpl; rewrite ?Hatt, ?Hrid, ?Hlog; subst s1; simpl;
    by rewrite <- ?app_assoc.
Qed.

Lemma failed_connection_rejects_waiting_request_witness :
  exists s', step whileConnecting (SockClose 0 true 1006) = Some s' /\
             requestId s' = 1.
Proof.
  destruct (failed_connection_rejects_waiting_request whileConnecting 0 CONNECTING
              "eth_blockNumber" (JArr []) 1006 ltac:(vm_compute; reflexivity) ltac:(done))
    as (s' & Hstep & Hrid & _).
  exists s'. split; [exact Hstep|exact Hrid].
Defined.

(** ** A request that waits for a connecting socket *)

(** X10.  A request made while the socket is connecting waits by polling every
    100 ms, and the wait has no timeout of its own.  When its poll comes due
    while the variable [ws] is cleared or its socket is still connecting,
    the poll is armed again 100 ms later and nothing else changes: the
    request is neither rejected nor given an id. *)
Theorem waiting_request_polls_again (s : State) (t : nat) (d : Z) (w : Waiter) :
  timers s !! t = Some (mkTimer d (Poll w)) -> d <= now s ->
  ws s = None \/ wsState s = Some CONNECTING ->
  exists s', step s (Fire t) = Some s' /\
    timers s' = <[nextTimer s := mkTimer (now s + 100) (Poll w)]> (delete t (timers s)) /\
    log s' = log s /\ promises s' = promises s /\
    pendingRequests s' = pendingRequests s /\ requestId s' = requestId s /\
    ws s' = ws s /\ sockets s' = sockets s.
Proof.
  intros Ht Hd Hw. eexists. split.
  { simpl. rewrite Ht. simpl. apply Z.leb_le in Hd. rewrite Hd. reflexivity. }
  simpl. unfold checkConnection.
  change (wsState (clearTimeout t s)) with (wsState s).
  assert (Hcase : wsState s = None \/ wsState s = Some CONNECTING).
  { destruct Hw as [Hn|Hc]; [left|by right]. unfold wsState. by rewrite Hn. }
  destruct Hcase as [->| ->]; done.
Qed.

Lemma waiting_request_polls_again_witness :
  exists s', step whilePolling (Fire 0) = Some s' /\ log s' = log whilePolling /\
             requestId s' = 1.
Proof.
  destruct (waiting_request_polls_again whilePolling 0 100
              (WRequest "eth_blockNumber" (JArr []))
              ltac:(vm_compute; reflexivity) ltac:(vm_compute; discriminate)
              ltac:(left; vm_compute; reflexivity))
    as (s' & Hstep & _ & Hlog & _ & _ & Hrid & _).
  exists s'. split; [exact Hstep|]. split; [exact Hlog|exact Hrid].
Defined.

(** ** A request after [close()] *)



(** ** No frame is sent twice *)

Lemma sentIds_app (l1 l2 : list Obs) : sentIds (l1 ++ l2) = sentIds l1 ++ sentIds l2.
Proof.
  induction l1 as [|o l1 IH]; simpl; [done|]. destruct o; simpl; by rewrite ?IH.
Qed.

Lemma sentIds_notSend (l : list Obs) : Forall notSend l -> sentIds l = [].
Proof.
  induction 1 as [|o l Ho _ IH]; simpl; [done|]. by destruct o.
Qed.

Lemma Silent_sentIds (s s' : State) : Silent s s' -> sentIds (log s') = sentIds (log s).
Proof.
  intros (l & -> & Hl). by rewrite sentIds_app, (sentIds_notSend l Hl), app_nil_r.
Qed.

Lemma sentIds_registered (s : State) (id : Z) :
  WF s -> id ∈ sentIds (log s) ->
  id < requestId s /\ exists m p, ObsRegistered id m p ∈ log s.
Proof.
  intros H Hin.
  assert (Hreg : exists m p, ObsRegistered id m p ∈ log s).
  { assert (Hg : forall l, Forall (mappedSend (log s)) l -> id ∈ sentIds l ->
                             exists m p, ObsRegistered id m p ∈ log s).
    { induction 1 as [|o l Ho _ IH]; simpl; [by intros ?%elem_of_nil|].
      destruct o as [| |j env| | |]; simpl in *; auto.
      intros [->|Hin']%elem_of_cons; [|auto].
      destruct Ho as (m & p & Hr & _). eauto. }
    apply (Hg (log s)); [apply (wf_sends _ H)|done]. }
  split; [|done]. destruct Hreg as (m & p & Hr).
  assert (Ha : id ∈ assigned (log s)).
  { clear -Hr. induction (log s) as [|o l IH]; [by apply elem_of_nil in Hr|].
    apply elem_of_cons in Hr as [<-|Hr]; simpl.
    - apply elem_of_cons. by left.
    - specialize (IH Hr). destruct o; simpl; auto. apply elem_of_cons. by right. }
  rewrite (wf_ids _ H) in Ha. apply elem_of_seqZ in Ha. lia.
Qed.

Lemma increasing_snoc (l : list Z) (x : Z) :
  increasing l -> Forall (fun a => a < x) l -> increasing (l ++ [x]).
Proof.
  induction l as [|a l IH]; simpl; [done|].
  intros [Ha Hl] [Hax Hlx]%Forall_cons. split; [|by apply IH].
  apply Forall_app. split; [done|]. by repeat constructor.
Qed.

Lemma increasing_NoDup (l : list Z) : increasing l -> NoDup l.
Proof.
  induction l as [|a l IH]; simpl; [constructor|]. intros [Ha Hl].
  constructor; [|by apply IH]. intros Hin.
  pose proof (proj1 (Forall_forall _ _) Ha _ Hin). lia.
Qed.

Lemma step_sentIds (s s' : State) (ev : Event) :
  WF s -> step s ev = Some s' ->
  increasing (sentIds (log s)) -> increasing (sentIds (log s')).
Proof.
  intros H Hstep Hsorted.
  destruct (step_sends _ _ _ H Hstep) as [Hs|[(s0 & m & p & sock & H0 & Hs0 & _ & ->) _]].
  - by rewrite (Silent_sentIds _ _ Hs).
  - destruct (register_spec m p sock s0) as (_ & _ & _ & _ & _ & _ & _ & _ & _ & ->).
    rewrite sentIds_app. simpl.
    rewrite (Silent_sentIds _ _ Hs0).
    destruct sock as [j|]; [destruct (bool_decide _)|]; simpl; rewrite ?app_nil_r; try done.
    apply increasing_snoc; [done|]. apply Forall_forall. intros x Hx.
    apply sentIds_registered; [done|]. by rewrite (Silent_sentIds _ _ Hs0).
Qed.

(** X28.  No frame is sent twice.  In every reachable state the ids of the
    frames sent so far are strictly increasing: each request is sent at most
    once, in the order the ids were handed out, and a request that was
    rejected by a close or a timeout is never sent again after a reconnect.
    Every frame sent belongs to a request that took its id before. *)
Theorem no_frame_is_sent_twice (tr : list Event) (s : State) :
  run init tr = Some s ->
  (forall (i j : nat) (a b : Z), (i < j)%nat ->
     sentIds (log s) !! i = Some a -> sentIds (log s) !! j = Some b -> a < b) /\
  NoDup (sentIds (log s)) /\
  (forall id, id ∈ sentIds (log s) ->
     id < requestId s /\ exists m p, ObsRegistered id m p ∈ log s).
Proof.
  intros Hrun.
  assert (Hgen : forall s0, run s0 tr = Some s -> WF s0 ->
                            increasing (sentIds (log s0)) ->
                            WF s /\ increasing (sentIds (log s))).
  { clear Hrun. induction tr as [|ev tr IH]; intros s0 Hrun H0 Hs0; simpl in Hrun.
    - by injection Hrun as <-.
    - destruct (step s0 ev) as [s1|] eqn:Hstep; [|done].
      apply (IH s1 Hrun); [by eapply step_WF|by eapply step_sentIds]. }
  destruct (Hgen init Hrun WF_init) as [H Hsorted]; [done|].
  split; [|split].
  - clear -Hsorted. induction (sentIds (log s)) as [|x l IH]; [done|].
    destruct Hsorted as [Hx Hl].
    intros [|i] [|j] a b Hij Ha Hb; simpl in *; try lia.
    + injection Ha as <-. apply (proj1 (Forall_forall _ _) Hx).
      by eapply list_elem_of_lookup_2.
    + apply (IH Hl i j); [lia|done|done].
  - by apply increasing_NoDup.
  - intros id. by apply sentIds_registered.
Qed.

Lemma no_frame_is_sent_twice_witness :
  sentIds (log (default init (run afterRequest [SockClose 0 true 1006; Elapse 1000; Fire 2;
                                                SockOpen 1; sampleRequest]))) = [1; 2; 3] /\
  NoDup (sentIds (log (default init (run init ([sampleRequest; SockOpen 0; sampleRequest] ++
              [SockClose 0 true 1006; Elapse 1000; Fire 2; SockOpen 1; sampleRequest]))))).
Proof.
  split; [vm_compute; reflexivity|].
  exact (proj1 (proj2 (no_frame_is_sent_twice
                         ([sampleRequest; SockOpen 0; sampleRequest] ++
                          [SockClose 0 true 1006; Elapse 1000; Fire 2; SockOpen 1; sampleRequest])
                         _ ltac:(vm_compute; reflexivity)))).
Defined.

End TransportMore.

(** * Further properties of the transaction queue *)
Section TxQueueMore.
Import TxQueue.

Local Arguments drain : simpl never.
Local Arguments seq : simpl never.

(** ** Every promise is accounted for *)

Lemma settled_app (l1 l2 : list Obs) : settled (l1 ++ l2) = settled l1 ++ settled l2.
Proof.
  induction l1 as [|o l1 IH]; simpl; [done|]. destruct o; simpl; by rewrite ?IH.
Qed.

Lemma drain_eq (slot : nat) (it : QueueItem) (rest : list QueueItem) (s : State) :
  drain slot (it :: rest) s =
  let s1 := emit (ObsExecute (promise it)) (set_queue rest s) in
  match executeTransaction (params it) with
  | Return r => drain slot rest (emit (ObsResolve (promise it) r) s1)
  | Throw e => drain slot rest (emit (ObsReject (promise it) e) s1)
  | AwaitGetGasPrice k =>
      set_workers (take slot (workers s1) ++ mkWorker it (AwaitGetGasPrice k) :: drop slot (workers s1))
                  (emit (ObsGetGasPrice (promise it)) s1)
  | AwaitWriteContract c k =>
      set_workers (take slot (workers s1) ++ mkWorker it (AwaitWriteContract c k) :: drop slot (workers s1))
                  (emit (ObsWalletWrite (promise it) c) s1)
  end.
Proof. reflexivity. Qed.

Lemma take_cons_drop_Permutation {A : Type} (n : nat) (x : A) (l : list A) :
  take n l ++ x :: drop n l ≡ₚ x :: l.
Proof. rewrite <- Permutation_middle. by rewrite take_drop. Qed.

Lemma drain_accounted (slot : nat) (q : list QueueItem) (s : State) :
  accounted (drain slot q s) ≡ₚ
  settled (log s) ++ map promise q ++ map (fun w => promise (item w)) (workers s).
Proof.
  revert s. induction q as [|it rest IH]; intros s.
  - done.
  - rewrite drain_eq. cbv zeta.
    destruct (executeTransaction (params it)) as [r|e|k|c k].
    + rewrite IH. simpl. rewrite !settled_app. simpl. rewrite ?app_nil_r.
      rewrite <- !app_assoc. simpl. by rewrite <- Permutation_middle.
    + rewrite IH. simpl. rewrite !settled_app. simpl. rewrite ?app_nil_r.
      rewrite <- !app_assoc. simpl. by rewrite <- Permutation_middle.
    + unfold accounted. simpl. rewrite !settled_app. simpl. rewrite ?app_nil_r.
      rewrite take_cons_drop_Permutation. simpl.
      by rewrite <- Permutation_middle.
    + unfold accounted. simpl. rewrite !settled_app. simpl. rewrite ?app_nil_r.
      rewrite take_cons_drop_Permutation. simpl.
      by rewrite <- Permutation_middle.
Qed.

Lemma writeContract_accounted (a : TxParams) (s : State) :
  accounted (writeContract a s) ≡ₚ accounted s ++ [nextPromise s] /\
  nextPromise (writeContract a s) = S (nextPromise s).
Proof.
  unfold writeContract, processTransactionQueue.
  assert (He : accounted (enqueue a s) ≡ₚ accounted s ++ [nextPromise s]).
  { unfold accounted. simpl. rewrite settled_app, map_app. simpl.
    rewrite app_nil_r, <- !app_assoc. do 2 apply Permutation_app_head.
    apply Permutation_app_comm. }
  destruct (isProcessingQueue (enqueue a s) || _); [done|].
  rewrite drain_accounted, drain_nextPromise. done.
Qed.

Lemma delete_Permutation {A : Type} (l : list A) (i : nat) (x : A) :
  l !! i = Some x -> l ≡ₚ x :: delete i l.
Proof.
  revert i. induction l as [|y l IH]; intros [|i] H; simplify_eq/=; [done|].
  rewrite (IH _ H) at 1. apply perm_swap.
Qed.

Lemma resume_accounted (slot : nat) (it : QueueItem) (t0 t : Async WriteContractResult)
      (s : State) :
  workers s !! slot = Some (mkWorker it t0) ->
  accounted (resume slot it t s) ≡ₚ accounted s /\
  nextPromise (resume slot it t s) = nextPromise s.
Proof.
  intros Hw. unfold resume.
  assert (Hdel : map (fun w => promise (item w)) (workers s) ≡ₚ
                 promise it :: map (fun w => promise (item w)) (delete slot (workers s))).
  { rewrite (delete_Permutation _ _ _ Hw) at 1. done. }
  assert (Hins : forall t', map (fun w => promise (item w)) (<[slot := mkWorker it t']> (workers s))
                            = map (fun w => promise (item w)) (workers s)).
  { intros t'. rewrite list_fmap_insert. apply list_insert_id.
    rewrite list_lookup_fmap, Hw. done. }
  destruct t as [r|e|k|c k].
  - rewrite drain_accounted, drain_nextPromise. split; [|done].
    unfold accounted. simpl. rewrite settled_app. simpl. rewrite ?app_nil_r.
    rewrite Hdel, <- !app_assoc. simpl.
    apply Permutation_app_head. symmetry.
    rewrite <- Permutation_middle. done.
  - rewrite drain_accounted, drain_nextPromise. split; [|done].
    unfold accounted. simpl. rewrite settled_app. simpl. rewrite ?app_nil_r.
    rewrite Hdel, <- !app_assoc. simpl.
    apply Permutation_app_head. symmetry.
    rewrite <- Permutation_middle. done.
  - split; [|done]. unfold accounted. simpl.
    rewrite settled_app. simpl. rewrite ?app_nil_r. unfold fmap in Hins. by rewrite Hins.
  - split; [|done]. unfold accounted. simpl.
    rewrite settled_app. simpl. rewrite ?app_nil_r. unfold fmap in Hins. by rewrite Hins.
Qed.

Lemma cleanup_fold (q : list QueueItem) (s : State) :
  foldl (fun acc it => emit (ObsReject (promise it) "Service cleanup: Transaction cancelled") acc)
        s q =
  mkState (transactionQueue s) (isProcessingQueue s) (workers s) (nextPromise s)
          (log s ++ cancellations q).
Proof.
  revert s. induction q as [|it rest IH]; intros s; simpl.
  - rewrite ?app_nil_r. by destruct s.
  - rewrite IH. simpl. by rewrite <- app_assoc.
Qed.

Lemma settled_cancellations (q : list QueueItem) : settled (cancellations q) = map promise q.
Proof. induction q as [|it q IH]; simpl; by rewrite ?IH. Qed.

Lemma step_accounted (s s' : State) (ev : Event) :
  step s ev = Some s' ->
  exists fresh, accounted s' ≡ₚ accounted s ++ fresh /\
                seq 0 (nextPromise s') = seq 0 (nextPromise s) ++ fresh.
Proof.
  intros Hstep. destruct ev as [a|slot r|slot r|]; simpl in Hstep.
  - injection Hstep as <-. exists [nextPromise s].
    destruct (writeContract_accounted a s) as [H1 H2].
    split; [done|]. by rewrite H2, seq_S.
  - destruct (workers s !! slot) as [[it [| |k|]]|] eqn:Hw; try done.
    injection Hstep as <-. exists [].
    destruct (resume_accounted slot it _ (k r) s Hw) as [H1 H2].
    by rewrite !app_nil_r, H2.
  - destruct (workers s !! slot) as [[it [| | |c k]]|] eqn:Hw; try done.
    injection Hstep as <-. exists [].
    destruct (resume_accounted slot it _ (k r) s Hw) as [H1 H2].
    by rewrite !app_nil_r, H2.
  - injection Hstep as <-. exists []. rewrite ?app_nil_r.
    unfold cleanup. rewrite cleanup_fold. unfold accounted. simpl.
    rewrite settled_app, settled_cancellations, <- !app_assoc. done.
Qed.

Lemma run_accounted (tr : list Event) (s s' : State) :
  run s tr = Some s' ->
  accounted s ≡ₚ seq 0 (nextPromise s) ->
  accounted s' ≡ₚ seq 0 (nextPromise s').
Proof.
  revert s. induction tr as [|ev tr IH]; intros s Hrun Hs; simpl in Hrun.
  - by injection Hrun as <-.
  - destruct (step s ev) as [s1|] eqn:Hstep; [|done].
    apply (IH s1 Hrun).
    destruct (step_accounted _ _ _ Hstep) as (fresh & H1 & H2).
    by rewrite H1, H2, Hs.
Qed.

(** X12.  Every promise [writeContract] has returned is in exactly one place:
    settled, waiting in the queue, or held by a suspended worker.  So on any
    trace, with or without [cleanup], no promise is settled twice, no
    settled promise is still queued or in execution, and once the queue is
    empty and no worker is suspended every promise has been settled. *)
Theorem every_promise_settles_at_most_once (tr : list Event) (s : State) :
  run init tr = Some s ->
  accounted s ≡ₚ seq 0 (nextPromise s) /\
  NoDup (settled (log s)) /\
  (forall p, p ∈ settled (log s) ->
     (p ∉ map promise (transactionQueue s)) /\
     (p ∉ map (fun w => promise (item w)) (workers s))) /\
  (transactionQueue s = [] -> workers s = [] ->
     settled (log s) ≡ₚ seq 0 (nextPromise s)).
Proof.
  intros Hrun.
  assert (H : accounted s ≡ₚ seq 0 (nextPromise s)) by (by apply (run_accounted tr init)).
  assert (Hnd : NoDup (accounted s)) by (rewrite H; apply NoDup_seq).
  unfold accounted in Hnd. apply NoDup_app in Hnd as (Hnd1 & Hnd2 & _).
  split; [done|]. split; [done|]. split.
  - intros p Hp. specialize (Hnd2 p Hp). rewrite elem_of_app in Hnd2.
    split; intros ?; apply Hnd2; auto.
  - intros Hq Hw. unfold accounted in H. by rewrite Hq, Hw, !app_nil_r in H.
Qed.

Lemma every_promise_settles_at_most_once_witness :
  exists s, run init [EvWriteContract sampleParams; EvWriteContract sampleParams; EvCleanup;
                      EvWalletWrite 0 (inl "nonce too low")] = Some s /\
            NoDup (settled (log s)).
Proof.
  eexists. split; [reflexivity|].
  exact (proj1 (proj2 (every_promise_settles_at_most_once
                         [EvWriteContract sampleParams; EvWriteContract sampleParams; EvCleanup;
                          EvWalletWrite 0 (inl "nonce too low")] _ eq_refl))).
Defined.

(** ** [cleanup] *)

Lemma executeTransaction_suspends (p : TxParams) :
  (truthy (gasPrice p) = None /\
   executeTransaction p =
     AwaitGetGasPrice (fun r => match r with
                                | inl e => Throw e
                                | inr g => executeWith p g
                                end)) \/
  (exists g, truthy (gasPrice p) = Some g /\ executeTransaction p = executeWith p g).
Proof.
  unfold executeTransaction. destruct (truthy (gasPrice p)) as [g|]; [right|left]; eauto.
Qed.

(** X13.  [cleanup] cancels what is queued and nothing else.  It rejects exactly
    the queued entries, in queue order, with the cancellation error, empties
    the queue and clears the flag; the suspended workers are left as they
    are, so an execution in progress goes on.  Because the flag is cleared,
    the next [writeContract] starts executing its entry at once, next to
    any execution still in progress. *)
Theorem cleanup_cancels_queue_not_execution (s : State) (a : TxParams) :
  let s1 := cleanup s in
  let s2 := writeContract a s1 in
  log s1 = log s ++ cancellations (transactionQueue s) /\
  transactionQueue s1 = [] /\ isProcessingQueue s1 = false /\
  workers s1 = workers s /\ nextPromise s1 = nextPromise s /\
  workers s2 = workers s ++ [mkWorker (entryOf a s) (executeTransaction (withDefaults a))] /\
  transactionQueue s2 = [] /\ isProcessingQueue s2 = true /\
  executed (log s2) = executed (log s1) ++ [nextPromise s].
Proof.
  intros s1 s2. subst s1 s2. unfold cleanup. rewrite cleanup_fold. simpl.
  do 5 (split; [done|]).
  unfold writeContract, processTransactionQueue, enqueue. simpl.
  rewrite drain_eq. simpl.
  destruct (executeTransaction_suspends (withDefaults a)) as [[_ He]|(g & _ & He)];
    rewrite He; unfold executeWith; simpl;
    rewrite firstn_all, drop_all, !executed_app; simpl; by rewrite !app_nil_r.
Qed.

(** ** Failures of the client calls *)



(** ** What a promise is resolved with *)

Lemma backed_mono (l l' : list Obs) (o : Obs) : backed l o -> backed (l ++ l') o.
Proof.
  destruct o; simpl; try done. intros (c & res & Hin & ->).
  exists c, res. split; [|done]. apply elem_of_app. by left.
Qed.

Lemma awaitsLogged_mono (l l' : list Obs) (w : Worker) :
  awaitsLogged l w -> awaitsLogged (l ++ l') w.
Proof.
  unfold awaitsLogged. destruct (cont w); try done.
  intros [Hin ?]. split; [|done]. apply elem_of_app. by left.
Qed.

Lemma Forall_backed_snoc (l : list Obs) (o : Obs) :
  Forall (backed l) l -> backed (l ++ [o]) o -> Forall (backed (l ++ [o])) (l ++ [o]).
Proof.
  intros Hl Ho. apply Forall_app. split; [|by repeat constructor].
  eapply Forall_impl; [done|]. intros. by apply backed_mono.
Qed.

Lemma Forall_awaits_snoc (l : list Obs) (o : Obs) (ws : list Worker) :
  Forall (awaitsLogged l) ws -> Forall (awaitsLogged (l ++ [o])) ws.
Proof. intros H. eapply Forall_impl; [done|]. intros. by apply awaitsLogged_mono. Qed.

Lemma awaitsLogged_start (l : list Obs) (it : QueueItem) :
  match executeTransaction (params it) with
  | AwaitGetGasPrice k =>
      awaitsLogged l (mkWorker it (AwaitGetGasPrice k))
  | AwaitWriteContract c k =>
      awaitsLogged (l ++ [ObsWalletWrite (promise it) c]) (mkWorker it (AwaitWriteContract c k))
  | _ => False
  end.
Proof.
  destruct (executeTransaction_suspends (params it)) as [[_ He]|(g & _ & He)]; rewrite He.
  - unfold awaitsLogged. simpl. done.
  - unfold executeWith, awaitsLogged. simpl. split; [|done].
    apply elem_of_app. right. by apply list_elem_of_singleton.
Qed.

Lemma drain_backed (slot : nat) (q : list QueueItem) (s : State) :
  Backed s -> Backed (drain slot q s).
Proof.
  revert s. induction q as [|it rest IH]; intros s [Hl Hw].
  - by split.
  - rewrite drain_eq. cbv zeta.
    pose proof (awaitsLogged_start (log s ++ [ObsExecute (promise it)]) it) as Hs.
    assert (Hl1 : Forall (backed (log s ++ [ObsExecute (promise it)]))
                         (log s ++ [ObsExecute (promise it)]))
      by (by apply Forall_backed_snoc).
    assert (Hw1 : Forall (awaitsLogged (log s ++ [ObsExecute (promise it)])) (workers s))
      by (by apply Forall_awaits_snoc).
    destruct (executeTransaction (params it)) as [r|e|k|c k]; try done.
    + split; simpl.
      * by apply Forall_backed_snoc.
      * apply Forall_insert_at; [by apply Forall_awaits_snoc|].
        by apply awaitsLogged_mono.
    + split; simpl.
      * by apply Forall_backed_snoc.
      * apply Forall_insert_at; [by apply Forall_awaits_snoc|done].
Qed.

Lemma step_backed (s s' : State) (ev : Event) :
  step s ev = Some s' -> Backed s -> Backed s'.
Proof.
  intros Hstep [Hl Hw].
  destruct ev as [a|slot r|slot r|]; simpl in Hstep.
  - injection Hstep as <-. unfold writeContract, processTransactionQueue.
    assert (He : Backed (enqueue a s)).
    { split; simpl; [by apply Forall_backed_snoc|by apply Forall_awaits_snoc]. }
    destruct (isProcessingQueue (enqueue a s) || _); [done|].
    apply drain_backed. by destruct He.
  - destruct (workers s !! slot) as [[it t0]|] eqn:Hslot; [|done].
    destruct t0 as [| |k|]; try done. injection Hstep as <-.
    pose proof (Forall_lookup_1 _ _ _ _ Hw Hslot) as Ha.
    unfold awaitsLogged in Ha. simpl in Ha.
    destruct (executeTransaction_suspends (params it)) as [[_ He]|(g & _ & He)];
      rewrite He in Ha; [|done].
    injection Ha as ->. unfold resume.
    destruct r as [e|g]; simpl.
    + apply drain_backed. split; simpl.
      * by apply Forall_backed_snoc.
      * apply Forall_awaits_snoc. by apply Forall_delete.
    + split; simpl.
      * by apply Forall_backed_snoc.
      * apply Forall_insert; [by apply Forall_awaits_snoc|].
        unfold awaitsLogged. simpl. split; [|done].
        apply elem_of_app. right. by apply list_elem_of_singleton.
  - destruct (workers s !! slot) as [[it t0]|] eqn:Hslot; [|done].
    destruct t0 as [| | |c k]; try done. injection Hstep as <-.
    pose proof (Forall_lookup_1 _ _ _ _ Hw Hslot) as Ha.
    unfold awaitsLogged in Ha. simpl in Ha. destruct Ha as [Hin Hk].
    unfold executeWith in Hk. injection Hk as Hc ->. unfold resume.
    destruct r as [e|res]; simpl.
    + apply drain_backed. split; simpl.
      * by apply Forall_backed_snoc.
      * apply Forall_awaits_snoc. by apply Forall_delete.
    + apply drain_backed. split; simpl.
      * apply Forall_backed_snoc; [done|]. simpl. exists c, res.
        split; [|done]. apply elem_of_app. by left.
      * apply Forall_awaits_snoc. by apply Forall_delete.
  - injection Hstep as <-. unfold cleanup. rewrite cleanup_fold. split; simpl.
    + apply Forall_app. split.
      * eapply Forall_impl; [done|]. intros. by apply backed_mono.
      * unfold cancellations. apply Forall_fmap, Forall_true. done.
    + eapply Forall_impl; [done|]. intros. by apply awaitsLogged_mono.
Qed.

Lemma run_backed (tr : list Event) (s s' : State) :
  run s tr = Some s' -> Backed s -> Backed s'.
Proof.
  revert s. induction tr as [|ev tr IH]; intros s Hrun Hs; simpl in Hrun.
  - by injection Hrun as <-.
  - destruct (step s ev) as [s1|] eqn:Hstep; [|done].
    eapply IH; [done|]. by eapply step_backed.
Qed.



End TxQueueMore.

(** * Further properties of the preconfs feed *)
Section PreconfsMore.
Import Preconfs.

(** ** The fields in reachable states *)

Lemma setAdd_spec (c : nat) (l : list nat) :
  NoDup l -> NoDup (setAdd c l) /\ (forall x, x ∈ setAdd c l <-> x = c \/ x ∈ l) /\
             setAdd c l <> [].
Proof.
  intros Hl. unfold setAdd. case_bool_decide as Hc.
  - split; [done|]. split; [|by intros ->; apply elem_of_nil in Hc].
    intros x. split; [auto|]. by intros [->|].
  - split; [|split].
    + apply NoDup_app. split; [done|]. split; [|apply NoDup_singleton].
      intros x Hx ->%list_elem_of_singleton. done.
    + intros x. rewrite elem_of_app, list_elem_of_singleton. tauto.
    + by destruct l.
Qed.

Lemma setDelete_spec (c : nat) (l : list nat) :
  NoDup l -> NoDup (setDelete c l) /\ (forall x, x ∈ setDelete c l <-> x <> c /\ x ∈ l).
Proof.
  intros Hl. unfold setDelete. split; [by apply NoDup_filter|].
  intros x. rewrite list_elem_of_filter. tauto.
Qed.

Lemma closeSocket_fields (j : nat) (s : State) :
  preconfsWebSocket (closeSocket j s) = preconfsWebSocket s /\
  preconfsConnected (closeSocket j s) = preconfsConnected s /\
  preconfsCallbacks (closeSocket j s) = preconfsCallbacks s /\
  issued (closeSocket j s) = issued s /\
  length (sockets (closeSocket j s)) = length (sockets s) /\
  log (closeSocket j s) = log s ++ [ObsSocketClose j].
Proof.
  unfold closeSocket. destruct (stateOf s j) as [[]|]; simpl;
    rewrite ?length_insert; done.
Qed.

Lemma initialize_fields (s : State) :
  preconfsCallbacks (initializePreconfsConnection s) = preconfsCallbacks s /\
  issued (initializePreconfsConnection s) = issued s /\
  forall j, preconfsWebSocket (initializePreconfsConnection s) = Some j ->
            (j < length (sockets (initializePreconfsConnection s)))%nat \/
            preconfsWebSocket s = Some j /\
            sockets (initializePreconfsConnection s) = sockets s.
Proof.
  unfold initializePreconfsConnection.
  destruct (preconfsWebSocket s) as [j0|] eqn:Hw.
  - destruct (_ || _ || _).
    + split; [done|]. split; [done|]. intros j Hj. right. by rewrite <- Hj, Hw.
    + destruct (closeSocket_fields j0 s) as (_ & _ & Hc & Hi & Hlen & _).
      simpl. split; [done|]. split; [done|].
      intros j [= <-]. left. rewrite length_app. simpl. lia.
  - simpl. split; [done|]. split; [done|].
    intros j [= <-]. left. rewrite length_app. simpl. lia.
Qed.

Lemma onmessage_log (entries : list Json) (s : State) :
  onmessage (Some entries) s =
  mkState (preconfsWebSocket s) (preconfsConnected s) (preconfsCallbacks s) (sockets s)
          (issued s) (log s ++ deliveries (preconfsCallbacks s) entries).
Proof.
  unfold onmessage.
  assert (Hin : forall cbs e s0,
            foldl (fun acc' c => emit (ObsDelivered c e) acc') s0 cbs =
            mkState (preconfsWebSocket s0) (preconfsConnected s0) (preconfsCallbacks s0)
                    (sockets s0) (issued s0)
                    (log s0 ++ map (fun c => ObsDelivered c e) cbs)).
  { induction cbs as [|c cbs IH]; intros e s0; simpl.
    - rewrite app_nil_r. by destruct s0.
    - rewrite IH. simpl. by rewrite <- app_assoc. }
  generalize (preconfsCallbacks s) at 1 3 as cbs. intros cbs.
  revert s. induction entries as [|e entries IH]; intros s; simpl.
  - unfold deliveries. simpl. rewrite app_nil_r. by destruct s.
  - rewrite IH, Hin. simpl. unfold deliveries. simpl. by rewrite <- app_assoc.
Qed.

Lemma step_tidy (s s' : State) (ev : Event) : step s ev = Some s' -> Tidy s -> Tidy s'.
Proof.
  intros Hstep [Hnd Hiss Hidle Hfield].
  destruct ev as [c|c| |j|j|j failed|j entries]; simpl in Hstep.
  - injection Hstep as <-. unfold subscribeToPreconfs.
    set (s1 := match wsState s with
               | Some CONNECTING | Some OPEN => s
               | _ => initializePreconfsConnection s
               end).
    assert (H1 : preconfsCallbacks s1 = preconfsCallbacks s /\ issued s1 = issued s /\
                 forall j, preconfsWebSocket s1 = Some j -> (j < length (sockets s1))%nat).
    { destruct (initialize_fields s) as (Hc & Hi & Hj).
      assert (Hinit : forall j, preconfsWebSocket (initializePreconfsConnection s) = Some j ->
                (j < length (sockets (initializePreconfsConnection s)))%nat).
      { intros j Hw. destruct (Hj j Hw) as [?|[Hw' ->]]; auto. }
      subst s1. destruct (wsState s) as [[]|]; auto. }
    destruct H1 as (Hc & Hi & Hj).
    destruct (setAdd_spec c (preconfsCallbacks s1)) as (A1 & A2 & A3); [by rewrite Hc|].
    split; simpl; auto.
    + intros x Hx. apply A2 in Hx. unfold setAdd. case_bool_decide as Hin.
      * destruct Hx as [->|Hx]; [done|]. rewrite Hi. apply Hiss. by rewrite <- Hc.
      * apply elem_of_app. destruct Hx as [->|Hx].
        -- right. by apply list_elem_of_singleton.
        -- left. rewrite Hi. apply Hiss. by rewrite <- Hc.
    + done.
  - case_bool_decide; [|done]. injection Hstep as <-. unfold unsubscribe.
    destruct (setDelete_spec c (preconfsCallbacks s) Hnd) as [D1 D2].
    simpl. destruct (setDelete c (preconfsCallbacks s)) as [|x l] eqn:Hd.
    + destruct (preconfsWebSocket s) as [j|] eqn:Hw.
      * destruct (closeSocket_fields j (set_callbacks [] s)) as (_ & _ & Hc & Hi & _).
        simpl in *. split; simpl; rewrite ?Hc; try done;
          try (intros x Hx; by apply elem_of_nil in Hx).
      * split; simpl; rewrite ?Hw; try done;
          try (intros x Hx; by apply elem_of_nil in Hx).
    + split; simpl; try done. intros y Hy. apply Hiss. by apply D2.
  - injection Hstep as <-. unfold cleanup. split; simpl.
    + apply NoDup_nil_2.
    + intros x Hx. by apply elem_of_nil in Hx.
    + intros _. by destruct (preconfsWebSocket s) eqn:Hw.
    + intros j. destruct (preconfsWebSocket s) as [j0|] eqn:Hw; [done|].
      simpl. by rewrite Hw.
  - destruct (stateOf s j) as [[]|]; try done. injection Hstep as <-.
    unfold onopen. simpl. destruct (preconfsWebSocket s) as [j0|] eqn:Hw.
    + destruct (bool_decide _); split; simpl; rewrite ?Hw, ?length_insert; auto;
        intros j1 [= <-]; by apply Hfield.
    + split; simpl; rewrite ?Hw; auto. done.
  - destruct (stateOf s j) as [[]|]; try done. injection Hstep as <-.
    split; simpl; rewrite ?length_insert; auto.
  - assert (Hs : s' = onclose (if failed then onerror (set_sockets (<[j := CLOSED]> (sockets s)) s)
                               else set_sockets (<[j := CLOSED]> (sockets s)) s)).
    { destruct (stateOf s j) as [[]|]; try done; by injection Hstep as <-. }
    rewrite Hs. destruct failed; split; simpl; auto; done.
  - destruct (stateOf s j) as [[]|]; try done. injection Hstep as <-.
    destruct entries as [entries|]; [|by split].
    rewrite onmessage_log. by split.
Qed.

Lemma run_tidy (tr : list Event) (s s' : State) : run s tr = Some s' -> Tidy s -> Tidy s'.
Proof.
  revert s. induction tr as [|ev tr IH]; intros s Hrun Hs; simpl in Hrun.
  - by injection Hrun as <-.
  - destruct (step s ev) as [s1|] eqn:Hstep; [|done].
    eapply IH; [done|]. by eapply step_tidy.
Qed.

Lemma init_tidy : Tidy init.
Proof. split; simpl; try done. apply NoDup_nil_2. Qed.

(** X16.  In every reachable state the registered listeners are distinct
    (subscribing a function twice registers it once), each of them was
    subscribed, the field refers to a socket that was made, and when no
    listener is registered the field is empty, so the first listener after
    an idle period always gets a new socket. *)
Theorem reachable_listeners_are_distinct (tr : list Event) (s : State) (c : nat) :
  run init tr = Some s ->
  NoDup (preconfsCallbacks s) /\
  (forall x, x ∈ preconfsCallbacks s -> x ∈ issued s) /\
  (forall j, preconfsWebSocket s = Some j -> (j < opened s)%nat) /\
  (preconfsCallbacks s = [] ->
     preconfsWebSocket s = None /\
     opened (subscribeToPreconfs c s) = S (opened s)).
Proof.
  intros Hrun.
  destruct (run_tidy _ _ _ Hrun init_tidy) as [Hnd Hiss Hidle Hfield].
  split; [done|]. split; [done|]. split; [done|].
  intros He. specialize (Hidle He). split; [done|].
  unfold subscribeToPreconfs, wsState, initializePreconfsConnection, opened.
  rewrite Hidle. simpl. rewrite length_app. simpl. lia.
Qed.

Lemma reachable_listeners_are_distinct_witness :
  preconfsCallbacks (default init (run init [Subscribe 0; Subscribe 0; SockOpen 0])) = [0%nat] /\
  NoDup (preconfsCallbacks (default init (run init [Subscribe 0; Subscribe 0; SockOpen 0]))).
Proof.
  split; [reflexivity|].
  exact (proj1 (reachable_listeners_are_distinct [Subscribe 0; Subscribe 0; SockOpen 0] _ 0%nat
                  eq_refl)).
Defined.

(** ** Deliveries *)

Lemma deliveredTo_app (c : nat) (l1 l2 : list Obs) :
  deliveredTo c (l1 ++ l2) = deliveredTo c l1 ++ deliveredTo c l2.
Proof.
  induction l1 as [|o l1 IH]; simpl; [done|].
  destruct o; simpl; rewrite ?IH; try done. by case_bool_decide.
Qed.

Lemma deliveredTo_row (c : nat) (cbs : list nat) (e : Json) :
  NoDup cbs ->
  deliveredTo c (map (fun x => ObsDelivered x e) cbs) = if bool_decide (c ∈ cbs) then [e] else [].
Proof.
  induction cbs as [|x cbs IH]; intros Hnd; cbn [deliveredTo map].
  - rewrite bool_decide_false; [done|]. apply not_elem_of_nil.
  - apply NoDup_cons in Hnd as [Hx Hnd]. rewrite (IH Hnd).
    destruct (decide (x = c)) as [->|Hne].
    + rewrite (bool_decide_true (c = c)) by done.
      rewrite (bool_decide_false (c ∈ cbs)) by done.
      rewrite bool_decide_true; [done|]. apply elem_of_cons. by left.
    + rewrite (bool_decide_false (x = c)) by done.
      destruct (decide (c ∈ cbs)) as [Hc|Hc].
      * rewrite (bool_decide_true (c ∈ cbs)) by done.
        rewrite bool_decide_true; [done|]. apply elem_of_cons. by right.
      * rewrite (bool_decide_false (c ∈ cbs)) by done.
        rewrite bool_decide_false; [done|].
        intros [?|?]%elem_of_cons; [by subst|done].
Qed.

Lemma deliveredTo_deliveries (c : nat) (cbs : list nat) (entries : list Json) :
  NoDup cbs ->
  deliveredTo c (deliveries cbs entries) = if bool_decide (c ∈ cbs) then entries else [].
Proof.
  intros Hnd. unfold deliveries.
  induction entries as [|e entries IH]; simpl.
  - by destruct (bool_decide _).
  - rewrite deliveredTo_app, IH, deliveredTo_row by done. by destruct (bool_decide _).
Qed.



(** ** When a socket is made *)


(** X18.  [subscribeToPreconfs] registers the listener and makes a socket unless
    the field refers to a socket that is connecting or open or the
    connected flag is still set.  In particular, while the referenced
    socket is closing and its close event has not arrived, a new listener
    is registered without a socket being made.  When a socket is made it
    gets the next index, is connecting, and the field refers to it. *)
Theorem subscribe_makes_socket_unless_kept (s : State) (c : nat) :
  let s' := subscribeToPreconfs c s in
  opened s' = (if keepsSocket s then opened s else S (opened s)) /\
  (forall x, x ∈ preconfsCallbacks s -> x ∈ preconfsCallbacks s') /\
  (c ∈ preconfsCallbacks s') /\
  (keepsSocket s = true ->
     preconfsWebSocket s' = preconfsWebSocket s /\ sockets s' = sockets s /\
     log s' = log s) /\
  (keepsSocket s = false ->
     preconfsWebSocket s' = Some (opened s) /\
     stateOf s' (opened s) = Some CONNECTING /\
     ObsSocketCreated (opened s) ∈ log s').
Proof.
  intros s'. subst s'.
  assert (Hadd : forall l x, x ∈ l \/ x = c -> x ∈ setAdd c l).
  { intros l x Hx. unfold setAdd. case_bool_decide; [by destruct Hx as [?| ->]|].
    apply elem_of_app. destruct Hx as [?| ->]; [by left|right].
    by apply list_elem_of_singleton. }
  unfold subscribeToPreconfs, keepsSocket, wsState, opened.
  destruct (preconfsWebSocket s) as [j|] eqn:Hw; simpl.
  - destruct (closeSocket_fields j s) as (_ & _ & Hc & _ & Hlen & Hlog).
    unfold initializePreconfsConnection. rewrite Hw.
    set (cs := closeSocket j s) in *. clearbody cs.
    destruct (stateOf s j) as [[]|] eqn:Hj; destruct (preconfsConnected s);
      repeat case_bool_decide; simplify_eq; simpl;
      rewrite ?length_app, ?Hc; simpl;
      try (repeat split; auto; done).
    all: split; [lia|]; split; [auto|]; split; [auto|]; split; [done|]; intros _.
    all: rewrite Hlen.
    all: split; [done|]; split;
      [unfold stateOf; simpl; by rewrite <- Hlen, lookup_app_r, Nat.sub_diag by lia|].
    all: apply elem_of_app; right; by apply list_elem_of_singleton.
  - unfold initializePreconfsConnection. rewrite Hw. simpl.
    rewrite length_app. simpl.
    split; [lia|]. split; [auto|]. split; [auto|]. split; [done|]. intros _.
    split; [done|]. split.
    + unfold stateOf. simpl. by rewrite lookup_app_r, Nat.sub_diag by lia.
    + apply elem_of_app. right. by apply list_elem_of_singleton.
Qed.

Lemma subscribe_makes_socket_unless_kept_witness :
  stateOf withClosingFeed 0 = Some CLOSING /\
  sockets (subscribeToPreconfs 1 withClosingFeed) = sockets withClosingFeed.
Proof.
  split; [reflexivity|].
  exact (proj1 (proj2 (proj1 (proj2 (proj2 (proj2
           (subscribe_makes_socket_unless_kept withClosingFeed 1)))) eq_refl))).
Defined.

(** X19.  [onopen] reads the field, not the socket that opened.  When a socket
    opens, the connected flag is set and the subscribe message is sent on
    the socket the field refers to, provided that socket is open: on the
    socket that opened if the field refers to it; once more on another
    socket if the field refers to one that is open already; and on no socket
    if the field is empty or refers to a socket that is not open. *)
Theorem open_subscribes_on_referenced_socket (s : State) (i : nat) :
  stateOf s i = Some CONNECTING ->
  exists s', step s (SockOpen i) = Some s' /\
    preconfsConnected s' = true /\ stateOf s' i = Some OPEN /\
    preconfsWebSocket s' = preconfsWebSocket s /\
    log s' = log s ++
      match preconfsWebSocket s with
      | Some j => if bool_decide (j = i \/ stateOf s j = Some OPEN)
                  then [ObsSubscribeSent j] else []
      | None => []
      end.
Proof.
  intros Hi.
  exists (onopen (set_sockets (<[i := OPEN]> (sockets s)) s)).
  split; [unfold step; by rewrite Hi|].
  assert (Hlt : (i < length (sockets s))%nat) by (by eapply lookup_lt_Some).
  unfold onopen. simpl.
  destruct (preconfsWebSocket s) as [j|] eqn:Hw; simpl.
  - assert (Heq : bool_decide (stateOf (set_connected true (set_sockets (<[i:=OPEN]> (sockets s)) s)) j
                               = Some OPEN)
                  = bool_decide (j = i \/ stateOf s j = Some OPEN)).
    { apply bool_decide_ext. unfold stateOf. simpl.
      destruct (decide (j = i)) as [->|Hne].
      - rewrite list_lookup_insert_eq by done. tauto.
      - rewrite list_lookup_insert_ne by done. tauto. }
    rewrite Heq. destruct (bool_decide (j = i \/ _)); simpl;
      unfold stateOf; simpl; rewrite list_lookup_insert_eq by done;
      rewrite ?Hw, ?app_nil_r; done.
  - unfold stateOf. simpl. rewrite list_lookup_insert_eq by done.
    by rewrite Hw, app_nil_r.
Qed.

Lemma open_subscribes_on_referenced_socket_witness :
  ObsSubscribeSent 2 ∈ log withLateSocket /\
  exists s', step withLateSocket (SockOpen 1) = Some s' /\
             log s' = log withLateSocket ++ [ObsSubscribeSent 2].
Proof.
  split; [apply list_elem_of_In; vm_compute; tauto|].
  destruct (open_subscribes_on_referenced_socket withLateSocket 1 eq_refl)
    as (s' & Hstep & _ & _ & _ & Hlog).
  exists s'. split; [exact Hstep|exact Hlog].
Defined.

(** ** What happens without a new subscription *)

Lemma step_no_socket (s s' : State) (ev : Event) :
  step s ev = Some s' -> is_subscribe ev = false -> opened s' = opened s.
Proof.
  intros Hstep Hev. unfold opened.
  destruct ev as [c|c| |j|j|j failed|j entries]; simpl in *; try done.
  - case_bool_decide; [|done]. injection Hstep as <-. unfold unsubscribe. simpl.
    destruct (setDelete c (preconfsCallbacks s)); [|done].
    destruct (preconfsWebSocket s) as [j|]; [|done].
    destruct (closeSocket_fields j (set_callbacks [] s)) as (_ & _ & _ & _ & Hlen & _).
    set (cs := closeSocket _ _) in *. clearbody cs. done.
  - injection Hstep as <-. unfold cleanup. simpl.
    destruct (preconfsWebSocket s) as [j|]; [|done].
    destruct (closeSocket_fields j s) as (_ & _ & _ & _ & Hlen & _).
    set (cs := closeSocket _ _) in *. clearbody cs. done.
  - destruct (stateOf s j) as [[]|]; try done. injection Hstep as <-.
    unfold onopen. simpl. destruct (preconfsWebSocket s); [destruct (bool_decide _)|];
      simpl; by rewrite length_insert.
  - destruct (stateOf s j) as [[]|]; try done. injection Hstep as <-.
    simpl. by rewrite length_insert.
  - destruct (stateOf s j) as [[]|]; try done; injection Hstep as <-;
      destruct failed; simpl; by rewrite length_insert.
  - destruct (stateOf s j) as [[]|]; try done. injection Hstep as <-.
    destruct entries as [entries|]; [|done]. by rewrite onmessage_log.
Qed.

Lemma step_listeners_stay (s s' : State) (ev : Event) :
  step s ev = Some s' -> fromSocket ev = true ->
  preconfsCallbacks s' = preconfsCallbacks s.
Proof.
  intros Hstep Hev.
  destruct ev as [c|c| |j|j|j failed|j entries]; simpl in *; try done.
  - destruct (stateOf s j) as [[]|]; try done. injection Hstep as <-.
    unfold onopen. simpl. destruct (preconfsWebSocket s); [destruct (bool_decide _)|]; done.
  - destruct (stateOf s j) as [[]|]; try done. by injection Hstep as <-.
  - destruct (stateOf s j) as [[]|]; try done; injection Hstep as <-; by destruct failed.
  - destruct (stateOf s j) as [[]|]; try done. injection Hstep as <-.
    destruct entries as [entries|]; [|done]. by rewrite onmessage_log.
Qed.

(** X20.  The feed is never re-established on its own.  Along any trace without
    a call of [subscribeToPreconfs] no socket is made; and along a trace of
    socket events only (opens, closes, failures, frames) the listeners stay
    registered.  So after the socket drops the listeners are still
    registered, with no socket to feed them, until the next subscription. *)
Theorem feed_is_not_reopened_without_subscribe (tr : list Event) (s s' : State) :
  run s tr = Some s' ->
  forallb (fun ev => negb (is_subscribe ev)) tr = true ->
  opened s' = opened s /\
  (forallb fromSocket tr = true -> preconfsCallbacks s' = preconfsCallbacks s).
Proof.
  revert s. induction tr as [|ev tr IH]; intros s Hrun Hns; simpl in *.
  - by injection Hrun as <-.
  - destruct (step s ev) as [s1|] eqn:Hstep; [|done].
    apply andb_true_iff in Hns as [Hev Hns]. apply negb_true_iff in Hev.
    destruct (IH s1 Hrun Hns) as [IHo IHc].
    split; [by rewrite IHo, (step_no_socket _ _ _ Hstep Hev)|].
    intros [Hs Htr]%andb_true_iff.
    by rewrite (IHc Htr), (step_listeners_stay _ _ _ Hstep Hs).
Qed.

Lemma feed_is_not_reopened_without_subscribe_witness :
  exists s', run withFeed [SockClose 0 true] = Some s' /\
             preconfsWebSocket s' = None /\
             opened s' = 1%nat /\ preconfsCallbacks s' = [0; 1]%nat.
Proof.
  eexists. split; [reflexivity|]. split; [reflexivity|].
  destruct (feed_is_not_reopened_without_subscribe [SockClose 0 true] withFeed _
              eq_refl eq_refl) as [Ho Hc].
  split; [exact Ho|exact (Hc eq_refl)].
Defined.

Lemma step_unsubscribed (s s' : State) (ev : Event) (c : nat) :
  step s ev = Some s' -> subscribes c ev = false ->
  c ∉ preconfsCallbacks s -> NoDup (preconfsCallbacks s) ->
  (c ∉ preconfsCallbacks s') /\ NoDup (preconfsCallbacks s') /\
  deliveredTo c (log s') = deliveredTo c (log s).
Proof.
  intros Hstep Hev Hc Hnd.
  destruct ev as [c'|c'| |j|j|j failed|j entries]; simpl in *.
  - injection Hstep as <-. apply bool_decide_eq_false in Hev.
    unfold subscribeToPreconfs.
    set (s1 := match wsState s with
               | Some CONNECTING | Some OPEN => s
               | _ => initializePreconfsConnection s
               end).
    assert (H1 : preconfsCallbacks s1 = preconfsCallbacks s /\
                 deliveredTo c (log s1) = deliveredTo c (log s)).
    { assert (Hi : preconfsCallbacks (initializePreconfsConnection s) = preconfsCallbacks s /\
                   deliveredTo c (log (initializePreconfsConnection s)) = deliveredTo c (log s)).
      { split; [apply initialize_fields|].
        unfold initializePreconfsConnection.
        destruct (preconfsWebSocket s) as [j|].
        - destruct (_ || _ || _); [done|].
          destruct (closeSocket_fields j s) as (_ & _ & _ & _ & _ & Hl).
          set (cs := closeSocket _ _) in *. clearbody cs. simpl.
          rewrite Hl, !deliveredTo_app. simpl. by rewrite !app_nil_r.
        - simpl. rewrite deliveredTo_app. simpl. by rewrite app_nil_r. }
      subst s1. destruct (wsState s) as [[]|]; auto. }
    destruct H1 as [Hcb Hd]. simpl. rewrite Hcb.
    destruct (setAdd_spec c' (preconfsCallbacks s) Hnd) as (A1 & A2 & _).
    split; [|done]. intros Hin. apply A2 in Hin as [->|]; done.
  - case_bool_decide; [|done]. injection Hstep as <-. unfold unsubscribe.
    destruct (setDelete_spec c' (preconfsCallbacks s) Hnd) as [D1 D2].
    assert (Hc' : c ∉ setDelete c' (preconfsCallbacks s)).
    { intros Hin. apply D2 in Hin as [_ ?]. done. }
    cbn [preconfsCallbacks set_callbacks preconfsWebSocket].
    destruct (setDelete c' (preconfsCallbacks s)) as [|x l] eqn:Hd.
    + destruct (preconfsWebSocket s) as [j|]; [|done].
      destruct (closeSocket_fields j (set_callbacks [] s)) as (_ & _ & Hcb & _ & _ & Hl).
      set (cs := closeSocket _ _) in *. clearbody cs.
      simpl in *. rewrite Hcb, Hl, deliveredTo_app. simpl. by rewrite app_nil_r.
    + done.
  - injection Hstep as <-. unfold cleanup. cbn [preconfsCallbacks set_callbacks log].
    split; [apply not_elem_of_nil|]. split; [apply NoDup_nil_2|].
    destruct (preconfsWebSocket s) as [j|]; [|done].
    destruct (closeSocket_fields j s) as (_ & _ & _ & _ & _ & Hl).
    set (cs := closeSocket _ _) in *. clearbody cs. simpl.
    rewrite Hl, deliveredTo_app. simpl. by rewrite app_nil_r.
  - destruct (stateOf s j) as [[]|]; try done. injection Hstep as <-.
    unfold onopen. simpl. destruct (preconfsWebSocket s); [destruct (bool_decide _)|];
      simpl; rewrite ?deliveredTo_app; simpl; by rewrite ?app_nil_r.
  - destruct (stateOf s j) as [[]|]; try done. by injection Hstep as <-.
  - destruct (stateOf s j) as [[]|]; try done; injection Hstep as <-; by destruct failed.
  - destruct (stateOf s j) as [[]|]; try done. injection Hstep as <-.
    destruct entries as [entries|]; [|done]. rewrite onmessage_log. simpl.
    rewrite deliveredTo_app, deliveredTo_deliveries by done.
    by rewrite bool_decide_false, app_nil_r.
Qed.

(** X21.  After its unsubscribe function was called a listener is handed
    nothing more, whatever arrives and whoever else subscribes, unless the
    same listener is subscribed again.  The same holds for every listener
    after [cleanup]. *)
Theorem unsubscribed_listener_gets_nothing (tr : list Event) (s s' : State) (c : nat) :
  NoDup (preconfsCallbacks s) ->
  forallb (fun ev => negb (subscribes c ev)) tr = true ->
  (run (unsubscribe c s) tr = Some s' \/ run (cleanup s) tr = Some s') ->
  (c ∉ preconfsCallbacks s') /\
  deliveredTo c (log s') = deliveredTo c (log s).
Proof.
  intros Hnd Hns Hrun.
  assert (Hgen : forall s0, run s0 tr = Some s' -> c ∉ preconfsCallbacks s0 ->
                            NoDup (preconfsCallbacks s0) ->
                            (c ∉ preconfsCallbacks s') /\
                            deliveredTo c (log s') = deliveredTo c (log s0)).
  { clear Hrun Hnd s. induction tr as [|ev tr IH]; intros s0 Hrun Hc Hnd; simpl in *.
    - by injection Hrun as <-.
    - destruct (step s0 ev) as [s1|] eqn:Hstep; [|done].
      apply andb_true_iff in Hns as [Hev Hns]. apply negb_true_iff in Hev.
      destruct (step_unsubscribed _ _ _ _ Hstep Hev Hc Hnd) as (Hc1 & Hnd1 & Hd1).
      destruct (IH Hns s1 Hrun Hc1 Hnd1) as [? ?]. split; [done|congruence]. }
  destruct Hrun as [Hrun|Hrun].
  - destruct (setDelete_spec c (preconfsCallbacks s) Hnd) as [D1 D2].
    assert (H0 : (c ∉ preconfsCallbacks (unsubscribe c s)) /\
                 NoDup (preconfsCallbacks (unsubscribe c s)) /\
                 deliveredTo c (log (unsubscribe c s)) = deliveredTo c (log s)).
    { unfold unsubscribe. cbn [preconfsCallbacks set_callbacks preconfsWebSocket].
      assert (Hc' : c ∉ setDelete c (preconfsCallbacks s)).
      { intros Hin. apply D2 in Hin as [? _]. done. }
      destruct (setDelete c (preconfsCallbacks s)) as [|x l] eqn:Hd.
      - destruct (preconfsWebSocket s) as [j|]; [|done].
        destruct (closeSocket_fields j (set_callbacks [] s)) as (_ & _ & Hcb & _ & _ & Hl).
        set (cs := closeSocket _ _) in *. clearbody cs.
        simpl in *. rewrite Hcb, Hl, deliveredTo_app. simpl. by rewrite app_nil_r.
      - done. }
    destruct H0 as (Hc0 & Hnd0 & Hd0).
    destruct (Hgen _ Hrun Hc0 Hnd0) as [? ?]. split; [done|congruence].
  - assert (H0 : (c ∉ preconfsCallbacks (cleanup s)) /\
                 NoDup (preconfsCallbacks (cleanup s)) /\
                 deliveredTo c (log (cleanup s)) = deliveredTo c (log s)).
    { unfold cleanup. cbn [preconfsCallbacks set_callbacks log].
      split; [apply not_elem_of_nil|]. split; [apply NoDup_nil_2|].
      destruct (preconfsWebSocket s) as [j|]; [|done].
      destruct (closeSocket_fields j s) as (_ & _ & _ & _ & _ & Hl).
      set (cs := closeSocket _ _) in *. clearbody cs. simpl.
      rewrite Hl, deliveredTo_app. simpl. by rewrite app_nil_r. }
    destruct H0 as (Hc0 & Hnd0 & Hd0).
    destruct (Hgen _ Hrun Hc0 Hnd0) as [? ?]. split; [done|congruence].
Qed.

Lemma unsubscribed_listener_gets_nothing_witness :
  exists s', run (unsubscribe 0 withFeed) [SockMessage 0 (Some [JStr "log"]); Subscribe 2;
                                          SockMessage 0 (Some [JNull])] = Some s' /\
             deliveredTo 0 (log s') = [].
Proof.
  eexists. split; [reflexivity|].
  exact (proj2 (unsubscribed_listener_gets_nothing
                  [SockMessage 0 (Some [JStr "log"]); Subscribe 2; SockMessage 0 (Some [JNull])]
                  withFeed _ 0%nat ltac:(apply (bool_decide_unpack _); vm_compute; exact I)
                  eq_refl (or_introl eq_refl))).
Defined.

End PreconfsMore.

(** * The HTTP transport *)
Section HttpTransportFacts.
Import HttpTransport.

Lemma errorMessage_nonempty (message : option string) : errorMessage message <> EmptyString.
Proof.
  unfold errorMessage. destruct message as [m|]; [|done]. by case_bool_decide.
Qed.

(** X22.  The outcomes of a request over HTTP.  The status is checked before the
    body is read: a response that is not [ok] throws the HTTP error with
    its status, whatever the body holds.  A truthy [error] in the body
    throws its message, or ["RPC error"] when it has none, even when a
    result is present.  The request returns a result exactly when the
    response is [ok] and the body holds no truthy [error], and then it
    returns [data.result].  For the same reply, the WebSocket transport
    settles the request the same way. *)
Theorem http_request_outcomes
        (fetch : Mapper.Envelope Json -> FetchResult) (m : string) (p : Json) :
  let body := Mapper.httpRequestBody m p in
  (forall r, request fetch m p = Returned r <->
             exists status, fetch body = Response true status (Data NoError r)) /\
  (forall status b, fetch body = Response false status b ->
     request fetch m p = Thrown ("HTTP error! status: " +:+ statusToString status)) /\
  (forall status message r, fetch body = Response true status (Data (ErrorObject message) r) ->
     request fetch m p = Thrown (errorMessage message) /\
     errorMessage message <> EmptyString) /\
  (forall status error r, fetch body = Response true status (Data error (Some r)) ->
     request fetch m p =
       match Transport.outcomeOf (wsError error) r with
       | Transport.Resolved v => Returned (Some v)
       | Transport.Rejected e => Thrown e
       end).
Proof.
  intros body. subst body. unfold request.
  split; [|split; [|split]].
  - intros r. split.
    + destruct (fetch _) as [e|[] status [e| |[|msg] res]]; simpl; try done.
      all: intros [= ->]; by exists status.
    + intros [status ->]. done.
  - intros status b ->. done.
  - intros status message r ->. split; [done|apply errorMessage_nonempty].
  - intros status error r ->. by destruct error as [|[msg|]].
Qed.

Lemma http_request_outcomes_witness :
  request (always (Response false 502 (Data NoError (Some (JStr "0x10"))))) "eth_blockNumber"
          (JArr []) = Thrown "HTTP error! status: 502".
Proof.
  exact (proj1 (proj2 (http_request_outcomes
                         (always (Response false 502 (Data NoError (Some (JStr "0x10")))))
                         "eth_blockNumber" (JArr []))) 502 _ eq_refl).
Defined.

End HttpTransportFacts.

(** * [sendFBR] *)
Section SendFBRFacts.
Import SendFBR.

Variable parseEther : string -> Error + Z.
Variable getTransactionCount : string -> Error + Z.
Variable sendTransaction : SendCall -> Error + string.


End SendFBRFacts.

Section SendFBRWitness.
Import SendFBR.


End SendFBRWitness.

(** * The transports of the service *)
Section ServiceFacts.
Import Service.

Lemma closeCurrent_fields (s : State) :
  webSocketTransport (closeCurrent s) = webSocketTransport s /\
  publicClient (closeCurrent s) = publicClient s /\
  walletClient (closeCurrent s) = walletClient s /\
  httpTransports (closeCurrent s) = httpTransports s /\
  length (wsTransports (closeCurrent s)) = length (wsTransports s) /\
  (Forall Transport.WF (wsTransports s) -> Forall Transport.WF (wsTransports (closeCurrent s))).
Proof.
  unfold closeCurrent. destruct (webSocketTransport s) as [n|] eqn:Hn; simpl.
  2: { rewrite Hn. repeat split; auto. }
  rewrite length_alter. do 5 (split; [done|]). intros H.
  apply Forall_alter; [done|]. intros t Ht Hp. by apply WF_close.
Qed.

(** The invariant of the transports of the service. *)
Lemma step_service (s s' : State) (ev : Event) :
  step s ev = Some s' ->
  (exists n, webSocketTransport s = Some n /\ (n < length (wsTransports s))%nat) ->
  Forall Transport.WF (wsTransports s) ->
  (exists n, webSocketTransport s' = Some n /\ (n < length (wsTransports s'))%nat) /\
  Forall Transport.WF (wsTransports s') /\
  publicClient s' = publicClient s.
Proof.
  intros Hstep (n & Hn & Hlt) Hwf.
  destruct (closeCurrent_fields s) as (Hc1 & Hc2 & Hc3 & Hc4 & Hc5 & Hc6).
  destruct ev as [| | |k tev]; simpl in Hstep.
  - injection Hstep as <-. unfold switchToHttpTransport. simpl.
    split; [exists n; split; [congruence|lia]|]. split; [auto|done].
  - injection Hstep as <-. unfold switchToWebSocketTransport. simpl.
    split; [eexists; split; [done|rewrite length_app; simpl; lia]|].
    split; [|done]. apply Forall_app. split; [auto|].
    constructor; [apply WF_init|constructor].
  - injection Hstep as <-. unfold cleanup.
    split; [exists n; split; [congruence|lia]|]. split; [auto|done].
  - destruct (wsTransports s !! k) as [t|] eqn:Hk; [|done].
    destruct (Transport.step t tev) as [t'|] eqn:Ht; [|done].
    injection Hstep as <-. simpl. rewrite length_insert.
    split; [by exists n|]. split; [|done].
    apply Forall_insert; [done|]. eapply step_WF; [done|].
    by eapply Forall_lookup_1.
Qed.

(** X24.  However the transports are switched, cleaned up and used, the service
    keeps reporting a WebSocket transport: [this.webSocketTransport] always
    holds a transport, so [getCurrentTransportType()] is ["websocket"] and
    [isWebSocketConnected()] is true, also after the wallet client was
    switched to HTTP and after the transport was closed.  The public client
    keeps the transport of the constructor; only the wallet client is
    switched.  Every WebSocket transport made keeps its invariant under the
    closes the service performs. *)
Theorem reported_transport_is_always_websocket (tr : list Event) (s : State) :
  run init tr = Some s ->
  getCurrentTransportType s = "websocket" /\
  isWebSocketConnected s = true /\
  publicClient s = WebSocketTransport 0 /\
  (exists n t, webSocketTransport s = Some n /\ wsTransports s !! n = Some t) /\
  Forall Transport.WF (wsTransports s).
Proof.
  intros Hrun.
  assert (Hgen : forall s0, run s0 tr = Some s ->
            (exists n, webSocketTransport s0 = Some n /\ (n < length (wsTransports s0))%nat) ->
            Forall Transport.WF (wsTransports s0) ->
            (exists n, webSocketTransport s = Some n /\ (n < length (wsTransports s))%nat) /\
            Forall Transport.WF (wsTransports s) /\
            publicClient s = publicClient s0).
  { clear Hrun. induction tr as [|ev tr IH]; intros s0 Hrun Hn Hwf; simpl in Hrun.
    - by injection Hrun as <-.
    - destruct (step s0 ev) as [s1|] eqn:Hstep; [|done].
      destruct (step_service _ _ _ Hstep Hn Hwf) as (Hn1 & Hwf1 & Hp1).
      destruct (IH s1 Hrun Hn1 Hwf1) as (? & ? & ?). split; [done|]. split; [done|congruence]. }
  destruct (Hgen init Hrun) as ((n & Hn & Hlt) & Hwf & Hp).
  { exists 0%nat. simpl. split; [done|lia]. }
  { constructor; [apply WF_init|constructor]. }
  unfold getCurrentTransportType, isWebSocketConnected. rewrite Hn.
  split; [done|]. split; [done|]. split; [done|]. split; [|done].
  destruct (lookup_lt_is_Some_2 _ _ Hlt) as [t Ht]. by exists n, t.
Qed.

Lemma reported_transport_is_always_websocket_witness :
  exists s, run init [OnTransport 0 Transport.sampleRequest; SwitchToHttp; Cleanup] = Some s /\
            walletClient s = HttpTransport 0 /\
            getCurrentTransportType s = "websocket".
Proof.
  eexists. split; [vm_compute; reflexivity|]. split; [reflexivity|].
  exact (proj1 (reported_transport_is_always_websocket
                  [OnTransport 0 Transport.sampleRequest; SwitchToHttp; Cleanup] _
                  ltac:(vm_compute; reflexivity))).
Defined.

End ServiceFacts.

(** * Decoding Solidity errors: when the result is [null] *)
Section SolidityErrorMore.
Import Js SolidityError.

(** X25.  [decodeSolidityError] returns [null] in two cases only: the output does
    not start with ["0x"] (the empty string included), or it starts with the
    [Error(string)] selector, the library decoder throws, and [hexToString]
    throws on the manually sliced message.  Every other output yields a
    string. *)
Theorem decodeSolidityError_null_iff
        (decodeErrorResult : ErrorAbi -> string -> Error + Decoded)
        (hexToString : string -> Error + string)
        (output : string) :
  decodeSolidityError decodeErrorResult hexToString output = None <->
  startsWith output "0x" = false \/
  (startsWith output "0x08c379a0" = true /\
   (exists e, decodeErrorResult StandardError output = inl e) /\
   (exists e, hexToString ("0x" +:+ manualMessageHex output) = inl e)).
Proof.
  unfold decodeSolidityError.
  destruct (startsWith output "0x") eqn:H0; simpl.
  - assert (Hp : (if startsWith output "0x4e487b71"
                  then match decodeErrorResult PanicError output with
                       | inr decoded => Some ("Panic(" +:+ toString (firstArg decoded) +:+ ")")
                       | inl _ => Some "Panic"
                       end
                  else Some ("Unknown error (" +:+ slice output 0 10 +:+ ")")) <> None).
    { destruct (startsWith output "0x4e487b71"); [|done].
      by destruct (decodeErrorResult PanicError output). }
    destruct (startsWith output "0x08c379a0") eqn:H1.
    + destruct (decodeErrorResult StandardError output) as [e|d] eqn:Hd.
      * destruct (hexToString _) as [e'|s] eqn:Hh.
        -- split; [|done]. intros _. right. eauto.
        -- split; [done|]. intros [|(_ & _ & e' & ?)]; done.
      * split.
        -- destruct (firstArg d); done.
        -- intros [|(_ & (e & ?) & _)]; done.
    + split; [done|]. intros [|(? & _)]; done.
  - split; [auto|done].
Qed.

Lemma decodeSolidityError_null_iff_witness :
  decodeSolidityError Viem.decodeErrorResult Viem.hexToString "08c379a0" = None.
Proof.
  exact (proj2 (decodeSolidityError_null_iff Viem.decodeErrorResult Viem.hexToString "08c379a0")
               (or_introl eq_refl)).
Defined.

Lemma substring_past (s : string) (n m : nat) :
  (String.length s <= n)%nat -> String.substring n m s = EmptyString.
Proof.
  revert n m. induction s as [|c s IH]; intros n m Hn; simpl in *.
  - by destruct n, m.
  - destruct n as [|n]; [lia|]. apply IH. lia.
Qed.

Lemma substring_length_le (s : string) (n m : nat) :
  (String.length (String.substring n m s) <= String.length s - n)%nat.
Proof.
  revert n m. induction s as [|c s IH]; intros n m; simpl.
  - destruct n, m; simpl; lia.
  - destruct n as [|n]; simpl.
    + destruct m as [|m]; simpl; [lia|]. specialize (IH 0%nat m). lia.
    + apply IH.
Qed.

Lemma manualMessageHex_truncated (output : string) :
  (String.length output <= 138)%nat -> manualMessageHex output = EmptyString.
Proof.
  intros Hlen. unfold manualMessageHex.
  set (errorData := sliceFrom output 10).
  assert (He : (String.length errorData <= 128)%nat).
  { subst errorData. unfold sliceFrom, slice.
    etrans; [apply substring_length_le|]. unfold clampIndex. simpl. lia. }
  assert (Hs : forall stop, slice errorData 128 stop = EmptyString).
  { intros stop. unfold slice. apply substring_past.
    unfold clampIndex. simpl. lia. }
  destruct (parseInt16 _); apply Hs.
Qed.

(** X26.  A truncated [Error(string)] payload yields the empty string.  When the
    output starts with the [Error(string)] selector, holds no byte of the
    message (at most the selector and the offset and length words, 138
    characters) and the library decoder throws, the manual decoding finds no
    message and the result is the empty string, not [null]. *)
Theorem decodeSolidityError_truncated_error_payload
        (decodeErrorResult : ErrorAbi -> string -> Error + Decoded)
        (output : string) (e : Error) :
  startsWith output "0x08c379a0" = true ->
  (String.length output <= 138)%nat ->
  decodeErrorResult StandardError output = inl e ->
  decodeSolidityError decodeErrorResult Viem.hexToString output = Some EmptyString.
Proof.
  intros Hs Hlen Hd. unfold decodeSolidityError.
  destruct (standard_selector_facts _ Hs) as [H0 _].
  by rewrite H0, Hs, Hd, manualMessageHex_truncated.
Qed.

Lemma decodeSolidityError_truncated_error_payload_witness :
  decodeSolidityError Viem.decodeErrorResult Viem.hexToString "0x08c379a0" = Some EmptyString.
Proof.
  exact (decodeSolidityError_truncated_error_payload Viem.decodeErrorResult "0x08c379a0"
           "AbiDecodingZeroDataError" eq_refl ltac:(vm_compute; lia) eq_refl).
Defined.

End SolidityErrorMore.

(** * The address scraper *)
Section ExtractAddressesFacts.
Import ExtractAddresses.

Lemma spanWord_spec (s : string) :
  allChars isWord (spanWord s).1 = true /\
  String.length s = (String.length (spanWord s).1 + String.length (spanWord s).2)%nat.
Proof.
  induction s as [|c s [IH1 IH2]]; simpl; [done|].
  destruct (isWord c) eqn:Hc; [|done].
  destruct (spanWord s) as [w r]. simpl in *. rewrite Hc, IH1. split; [done|lia].
Qed.

Lemma takeHex_spec (n : nat) (s h r : string) :
  takeHex n s = Some (h, r) ->
  String.length h = n /\ allChars isHex h = true /\
  String.length s = (n + String.length r)%nat.
Proof.
  revert s h r. induction n as [|n IH]; intros s h r; simpl.
  - by intros [= <- <-].
  - destruct s as [|c s]; [done|]. destruct (isHex c) eqn:Hc; [|done].
    destruct (takeHex n s) as [[h' r']|] eqn:Ht; [|done]. simpl.
    intros [= <- <-]. destruct (IH _ _ _ Ht) as (H1 & H2 & H3).
    simpl. rewrite Hc, H1, H2, H3. done.
Qed.

Lemma dropChars_length (n : nat) (s : string) :
  (String.length (dropChars n s) <= String.length s)%nat.
Proof.
  revert s. induction n as [|n IH]; intros [|c s]; simpl; try lia.
  specialize (IH s). lia.
Qed.

Local Arguments takeHex : simpl never.
Local Arguments dropChars : simpl never.
Local Arguments String.length : simpl never.

Lemma matchAt_spec (s name address rest : string) :
  matchAt s = Some (name, address, rest) ->
  name <> EmptyString /\ allChars isWord name = true /\ isAddress address /\
  (String.length rest < String.length s)%nat.
Proof.
  unfold matchAt. pose proof (spanWord_spec s) as [Hw Hlen].
  destruct (spanWord s) as [w r1]. simpl in *.
  case_bool_decide as Hne; [done|].
  unfold stripPrefix. destruct (String.prefix " deployed at: 0x" r1); [|done]. simpl.
  destruct (takeHex 40 _) as [[h r]|] eqn:Ht; [|done]. simpl.
  intros [= <- <- <-]. destruct (takeHex_spec _ _ _ _ Ht) as (H1 & H2 & H3).
  split; [done|]. split; [done|]. split; [by exists h|].
  pose proof (dropChars_length (String.length " deployed at: 0x") r1) as Hd. lia.
Qed.

Lemma matchesFrom_spec (fuel : nat) (s : string) :
  Forall (fun m => m.1 <> EmptyString /\ allChars isWord m.1 = true /\ isAddress m.2)
         (matchesFrom fuel s).
Proof.
  revert s. induction fuel as [|fuel IH]; intros s; simpl; [constructor|].
  destruct (matchAt s) as [[[name address] rest]|] eqn:Hm.
  - constructor; [|apply IH]. destruct (matchAt_spec _ _ _ _ Hm) as (? & ? & ? & _). done.
  - destruct s; [constructor|apply IH].
Qed.

(** More fuel than the length of the text changes nothing. *)
Lemma matchesFrom_fuel (n m : nat) (s : string) :
  (String.length s < n)%nat -> (String.length s < m)%nat ->
  matchesFrom n s = matchesFrom m s.
Proof.
  revert m s. induction n as [|n IH]; intros m s Hn Hm; [lia|].
  destruct m as [|m]; [lia|]. simpl.
  destruct (matchAt s) as [[[name address] rest]|] eqn:Hmatch.
  - destruct (matchAt_spec _ _ _ _ Hmatch) as (_ & _ & _ & Hlt).
    f_equal. apply IH; lia.
  - destruct s as [|c s]; [done|].
    change (String.length (String c s)) with (S (String.length s)) in *. apply IH; lia.
Qed.

Lemma lowerChar_spec (c : ascii) :
  isWord c = true -> isWord (lowerChar c) = true /\ isUpper (lowerChar c) = false.
Proof.
  destruct c as [[] [] [] [] [] [] [] []]; vm_compute; intros H; try discriminate H; done.
Qed.

Lemma toLowerCase_key (name : string) :
  name <> EmptyString -> allChars isWord name = true -> isKey (toLowerCase name).
Proof.
  intros Hne Hw. split; [by destruct name|].
  clear Hne. induction name as [|c name IH]; simpl in *; [done|].
  apply andb_true_iff in Hw as [Hc Hw]. destruct (IH Hw) as [IH1 IH2].
  destruct (lowerChar_spec c Hc) as [H1 H2]. by rewrite H1, H2, IH1, IH2.
Qed.

Lemma foldl_assign_lookup (l : list (string * string)) (acc : gmap string string)
      (k v : string) :
  foldl assign acc l !! k = Some v ->
  acc !! k = Some v \/
  (k <> "__proto__" /\ exists name, (name, v) ∈ l /\ toLowerCase name = k).
Proof.
  revert acc. induction l as [|[name a] l IH]; intros acc; simpl; [auto|].
  intros H. destruct (IH _ H) as [Hacc|(Hk & name' & Hin & Hl)].
  - unfold assign in Hacc. simpl in Hacc. case_bool_decide as Hp; [auto|].
    destruct (decide (toLowerCase name = k)) as [<-|Hne].
    + rewrite lookup_insert_eq in Hacc. injection Hacc as ->. right.
      split; [done|]. exists name. split; [apply elem_of_cons; by left|done].
    + rewrite lookup_insert_ne in Hacc by done. auto.
  - right. split; [done|]. exists name'. split; [apply elem_of_cons; by right|done].
Qed.

Lemma foldl_assign_last (l2 : list (string * string)) (acc : gmap string string)
      (k v : string) :
  acc !! k = Some v -> Forall (fun m => toLowerCase m.1 <> k) l2 ->
  foldl assign acc l2 !! k = Some v.
Proof.
  revert acc. induction l2 as [|[name a] l2 IH]; intros acc Hacc Hl; simpl; [done|].
  apply Forall_cons in Hl as [Hne Hl]. apply IH; [|done].
  unfold assign. simpl in *. case_bool_decide; [done|].
  by rewrite lookup_insert_ne.
Qed.

(** X27.  What the scraper returns.  Without a logs section (no ["== Logs =="]
    followed by ["## Setting up"]) the result is empty.  Every entry of the
    result comes from a match of the pattern in the logs section: the key
    is the lower-cased contract name, a non-empty word without upper-case
    letters and never ["__proto__"], and the value is ["0x"] followed by
    exactly 40 hex digits.  A match is recorded under its lower-cased name
    unless a later match has the same lower-cased name, in which case the
    later address replaces it.  The bound on the scan is large enough: a
    larger one finds the same matches. *)
Theorem extracted_addresses_are_well_formed (logContent : string) :
  (logsSection logContent = None -> extractAddressesFromLog logContent = ∅) /\
  (forall k v, extractAddressesFromLog logContent !! k = Some v ->
     isKey k /\ isAddress v /\ k <> "__proto__" /\
     exists logs name, logsSection logContent = Some logs /\
                       (name, v) ∈ allMatches logs /\ toLowerCase name = k) /\
  (forall logs l1 name v l2,
     logsSection logContent = Some logs ->
     allMatches logs = l1 ++ (name, v) :: l2 ->
     toLowerCase name <> "__proto__" ->
     Forall (fun m => toLowerCase m.1 <> toLowerCase name) l2 ->
     extractAddressesFromLog logContent !! toLowerCase name = Some v) /\
  (forall logs n, (String.length logs < n)%nat -> matchesFrom n logs = allMatches logs).
Proof.
  unfold extractAddressesFromLog. split; [by intros ->|]. split; [|split].
  - intros k v. destruct (logsSection logContent) as [logs|]; [|done].
    intros H. apply foldl_assign_lookup in H as [H|(Hk & name & Hin & Hl)]; [done|].
    pose proof (proj1 (Forall_forall _ _) (matchesFrom_spec _ _) _ Hin) as (H1 & H2 & H3).
    simpl in *. split; [rewrite <- Hl; by apply toLowerCase_key|].
    split; [done|]. split; [done|]. by exists logs, name.
  - intros logs l1 name v l2 -> -> Hp Hl2. rewrite foldl_app. simpl.
    apply foldl_assign_last; [|done]. unfold assign at 1. simpl.
    rewrite bool_decide_false by done. apply lookup_insert_eq.
  - intros logs n Hn. apply matchesFrom_fuel; [done|lia].
Qed.

Lemma extracted_addresses_are_well_formed_witness :
  extractAddressesFromLog sampleLog !! "counter" =
    Some "0xe7f1725E7734CE288F8367e1Bb143E90bb3F0512" /\
  isAddress "0xe7f1725E7734CE288F8367e1Bb143E90bb3F0512" /\
  extractAddressesFromLog sampleLog !! "token2" = None.
Proof.
  assert (H : extractAddressesFromLog sampleLog !! "counter" =
              Some "0xe7f1725E7734CE288F8367e1Bb143E90bb3F0512") by (vm_compute; reflexivity).
  split; [exact H|]. split.
  - exact (proj1 (proj2 (proj1 (proj2 (extracted_addresses_are_well_formed sampleLog)) _ _ H))).
  - vm_compute. reflexivity.
Defined.

End ExtractAddressesFacts.
